(** * Gesture media controller: the per-frame decision pipeline

    A shallow embedding of [gesture_media_control.py]: the finger-state
    extractor [fingers_up], the classifier [detect_gesture], the action
    table [perform_action_for_gesture] and the body of the frame loop of
    [main] (smoothing over a bounded deque, cooldown, re-fire suppression).

    Modelling conventions.
    - Python [str] values are [string]; the gesture labels stay strings, as
      in the source, so that "only the five labels occur" is a theorem and
      not a typing fact.
    - A finite Python [float] (an IEEE 754 binary64 number, a double) is
      the rational [Q] it denotes: the coordinates of the landmarks and the
      readings of [time.time()].  Comparisons of finite floats agree with
      the comparisons of those rationals.  Float arithmetic rounds: a
      subtraction or division is the exact one followed by [round64], the
      rounding to the nearest double, ties to even, with overflow to an
      infinity.  The literal [0.8] is the double nearest to 8/10.
    - A raised exception ([IndexError], [ValueError]) is [None].
    - [collections.deque(maxlen=n)] is a list, oldest entry first;
      [collections.Counter] is an association list in insertion order,
      which is the order [most_common] uses to break ties. *)

From Stdlib Require Import String Ascii List Bool Arith ZArith QArith.
From Stdlib Require Import Qround Qpower Qabs Lia Lqa.
Import ListNotations.

Local Open Scope string_scope.
Local Open Scope list_scope.
Local Open Scope nat_scope.

(** ** Exceptions as [option] *)

Definition bind {A B : Type} (m : option A) (k : A -> option B) : option B :=
  match m with
  | Some a => k a
  | None => None
  end.

Notation "x <- m ;; k" := (bind m (fun x => k))
  (at level 61, m at next level, right associativity).

Fixpoint mapM {A B : Type} (f : A -> option B) (l : list A) : option (list B) :=
  match l with
  | [] => Some []
  | a :: rest =>
      b <- f a ;;
      bs <- mapM f rest ;;
      Some (b :: bs)
  end.

(** ** Float comparisons, on rationals *)

Definition Qltb (a b : Q) : bool := negb (Qle_bool b a).

(** ** Float arithmetic *)

(** The result of a float operation: a finite double, given by its value,
    or an infinity.  (No operation of the program gives a NaN: it never
    subtracts or divides infinities.) *)
Inductive float : Type :=
| Finite (value : Q)
| Infinity (negative : bool).

(** The exponent of the binade of [x > 0]: the [k] with 2^k <= x < 2^(k+1). *)
Definition floor_log2 (x : Q) : Z :=
  let guess := (Z.log2 (Qnum x) - Z.log2 (Zpos (Qden x)))%Z in
  if Qle_bool (2 ^ guess)%Q x then guess else (guess - 1)%Z.

(** The nearest integer, ties to the even one. *)
Definition round_half_even (t : Q) : Z :=
  let f := Qfloor t in
  match Qcompare (t - inject_Z f) (1 # 2) with
  | Lt => f
  | Gt => (f + 1)%Z
  | Eq => if Z.even f then f else (f + 1)%Z
  end.

(** [x > 0] rounded to 53 significant bits, or to a multiple of 2^-1074
    below the normal range. *)
Definition round_positive (x : Q) : Q :=
  let e := Z.max (floor_log2 x - 52) (-1074) in
  Qred (inject_Z (round_half_even (x / 2 ^ e)%Q) * 2 ^ e)%Q.

(** The double nearest to [x], ties to even; what rounds to 2^1024 or
    beyond is an infinity. *)
Definition round64 (x : Q) : float :=
  match Qcompare x 0 with
  | Eq => Finite 0
  | Gt => let v := round_positive (Qred x) in
          if Qle_bool (2 ^ 1024)%Q v then Infinity false else Finite v
  | Lt => let v := round_positive (Qred (- x)) in
          if Qle_bool (2 ^ 1024)%Q v then Infinity true else Finite (- v)
  end.

(** [a - b] on floats. *)
Definition float_sub (a b : Q) : float := round64 (a - b).

(** [a > c] for a float result [a] and a finite [c]. *)
Definition float_gt (a : float) (c : Q) : bool :=
  match a with
  | Finite v => Qltb c v
  | Infinity negative => negb negative
  end.

(** [t] is the value of a double. *)
Definition is_double (t : Q) : bool :=
  match round64 t with
  | Finite v => Qeq_bool v t
  | Infinity _ => false
  end.

(** A positive number with at most 53 significant bits, a multiple of
    2^-1074: below 2^1024 these are the positive doubles. *)
Definition on_grid (y : Q) : Prop :=
  exists j k : Z,
    (0 < j < 2 ^ 53)%Z /\ (-1074 <= k)%Z /\ (y == inject_Z j * 2 ^ k)%Q.

(** ** Settings *)

Definition SMOOTHING_FRAMES : nat := 6.
(** The literal [0.8]: the double 3602879701896397 / 2^52, a little above
    8/10. *)
Definition ACTION_COOLDOWN : Q := 3602879701896397 # 4503599627370496.
Definition TIP_IDS : list nat := [4; 8; 12; 16; 20].

(** ** Finger-state extractor *)

Module Landmark.
Record t : Type := mk { x : Q; y : Q }.
End Landmark.

(** [1 if f else 0] *)
Definition int_of_bool (f : bool) : Z := if f then 1%Z else 0%Z.

(** [lm[id].y < lm[id - 2].y] *)
Definition finger_raised (lm : list Landmark.t) (id : nat) : option bool :=
  tip <- nth_error lm id ;;
  pip <- nth_error lm (id - 2) ;;
  Some (Qltb (Landmark.y tip) (Landmark.y pip)).

Definition fingers_up (lm : list Landmark.t) (handedness_label : string)
  : option (list Z) :=
  tip0 <- nth_error TIP_IDS 0 ;;
  thumb_tip <- nth_error lm tip0 ;;
  thumb_ip <- nth_error lm (tip0 - 1) ;;
  let thumb :=
    if (handedness_label =? "Right")%string
    then Qltb (Landmark.x thumb_tip) (Landmark.x thumb_ip)
    else Qltb (Landmark.x thumb_ip) (Landmark.x thumb_tip) in
  others <- mapM (finger_raised lm) (tl TIP_IDS) ;;
  Some (map int_of_bool (thumb :: others)).

(** ** Gesture classifier *)

Fixpoint int_list_eqb (a b : list Z) : bool :=
  match a, b with
  | [], [] => true
  | u :: a', v :: b' => Z.eqb u v && int_list_eqb a' b'
  | _, _ => false
  end.

(** The tuple unpacking on the first line raises [ValueError] unless
    [fingers] has exactly five elements. *)
Definition detect_gesture (fingers : list Z) : option string :=
  match fingers with
  | [thumb; index; middle; ring; pinky] =>
      if int_list_eqb fingers [1; 1; 1; 1; 1]%Z then Some "OPEN_PALM"
      else if int_list_eqb fingers [0; 0; 0; 0; 0]%Z then Some "FIST"
      else if int_list_eqb fingers [1; 0; 0; 0; 0]%Z then Some "THUMB_UP"
      else if int_list_eqb fingers [0; 1; 0; 0; 0]%Z then Some "POINT"
      else Some "UNKNOWN"
  | _ => None
  end.

(** All 0/1 vectors of a given length. *)
Fixpoint finger_vectors (n : nat) : list (list Z) :=
  match n with
  | O => [[]]
  | S k => flat_map (fun v => [0%Z :: v; 1%Z :: v]) (finger_vectors k)
  end.

Definition named_patterns : list (list Z) :=
  [[1; 1; 1; 1; 1]; [0; 0; 0; 0; 0]; [1; 0; 0; 0; 0]; [0; 1; 0; 0; 0]]%Z.

Definition is_label (l : string) (r : option string) : bool :=
  match r with
  | Some s => (s =? l)%string
  | None => false
  end.

(** ** Action mapping *)

(** What [perform_action_for_gesture] asks of the keyboard controller: a
    call of [press_media_key_if_available] and, when that one returns
    [False], a call of [press_key_fallback]. *)
Inductive executor_call : Type :=
| PressMediaKey (key_attr_name : string)
| PressKeyFallback (key_or_combo : list string).

(** [media_key_ok] is the environment: the verdict of
    [press_media_key_if_available] for a key name. *)
Definition press_with_fallback (media_key_ok : string -> bool)
    (key_attr_name : string) (key_or_combo : list string) : list executor_call :=
  let ok := media_key_ok key_attr_name in
  PressMediaKey key_attr_name ::
  (if negb ok then [PressKeyFallback key_or_combo] else []).

Definition perform_action_for_gesture (media_key_ok : string -> bool)
    (gesture_name : string) : list executor_call * option string :=
  if (gesture_name =? "OPEN_PALM")%string then
    (press_with_fallback media_key_ok "media_play_pause" [" "], Some "Play/Pause")
  else if (gesture_name =? "FIST")%string then
    (press_with_fallback media_key_ok "media_previous" ["ctrl_l"; "left"],
     Some "Previous Track")
  else if (gesture_name =? "POINT")%string then
    (press_with_fallback media_key_ok "media_next" ["ctrl_l"; "right"],
     Some "Next Track")
  else if (gesture_name =? "THUMB_UP")%string then
    (press_with_fallback media_key_ok "media_volume_up" ["+"], Some "Volume Up")
  else ([], None).

(** ** Smoothing: a bounded deque and a Counter *)

(** [deque.append] with a [maxlen]: append on the right, then drop the
    leftmost entry when the length exceeds [maxlen]. *)
Definition deque_append (maxlen : nat) (d : list string) (g : string) : list string :=
  let d' := d ++ [g] in
  if maxlen <? length d' then tl d' else d'.

(** [c[k] += 1]: an existing key keeps its position, a new key goes last. *)
Fixpoint counter_add (k : string) (c : list (string * nat)) : list (string * nat) :=
  match c with
  | [] => [(k, 1)]
  | (k', n) :: rest =>
      if (k =? k')%string then (k', S n) :: rest else (k', n) :: counter_add k rest
  end.

Definition Counter (items : list string) : list (string * nat) :=
  fold_left (fun c k => counter_add k c) items [].

(** [max(it, key=itemgetter(1))]: the first entry with the largest count. *)
Fixpoint max_by_count (best : string * nat) (c : list (string * nat)) : string * nat :=
  match c with
  | [] => best
  | e :: rest =>
      if snd best <? snd e then max_by_count e rest else max_by_count best rest
  end.

(** [most_common(1)] *)
Definition most_common_1 (c : list (string * nat)) : list (string * nat) :=
  match c with
  | [] => []
  | e :: rest => [max_by_count e rest]
  end.

(** Lines 184-185: [most_common], [count] and [stable] of a window. *)
Definition smoothing_vote (maxlen : nat) (gesture_history : list string)
  : option (string * nat * bool) :=
  top <- nth_error (most_common_1 (Counter gesture_history)) 0 ;;
  let '(most_common, count) := top in
  Some (most_common, count,
        negb (most_common =? "UNKNOWN")%string && (count =? maxlen)).

(** ** The frame loop *)

Record loop_state : Type := mk_state {
  gesture_history : list string;
  last_action_time : Q;
  last_triggered : option string
}.

Definition initial_state : loop_state :=
  {| gesture_history := []; last_action_time := 0; last_triggered := None |}.

(** What the pose model returned for the frame, and the clock. *)
Inductive hand_result : Type :=
| NoHand
| Hand (hand_landmarks : list Landmark.t) (handedness_label : string).

Record frame_input : Type := mk_frame {
  results : hand_result;
  now : Q
}.

(** A dispatched action: when, for which gesture, with which description,
    and what was asked of the keyboard. *)
Record dispatch : Type := mk_dispatch {
  fire_time : Q;
  fire_gesture : string;
  fire_desc : string;
  fire_calls : list executor_call
}.

(** [most_common != last_triggered], with [last_triggered] possibly [None] *)
Definition differs_from (most_common : string) (last : option string) : bool :=
  match last with
  | None => true
  | Some l => negb (most_common =? l)%string
  end.

(** [if action_desc:] a description that is neither [None] nor empty *)
Definition truthy (action_desc : option string) : option string :=
  match action_desc with
  | Some EmptyString => None
  | other => other
  end.

(** [(now - last_action_time) > ACTION_COOLDOWN]: the difference is
    rounded to a double before it is compared. *)
Definition cooldown_elapsed (now last_action_time : Q) : bool :=
  float_gt (float_sub now last_action_time) ACTION_COOLDOWN.

Section Loop.

Variable media_key_ok : string -> bool.

(** Lines 183-195: a hand was seen and classified as [gesture]. *)
Definition hand_branch (st : loop_state) (gesture : string) (now : Q)
  : option (loop_state * option dispatch) :=
  let history := deque_append SMOOTHING_FRAMES (gesture_history st) gesture in
  let quiet := mk_state history (last_action_time st) (last_triggered st) in
  v <- smoothing_vote SMOOTHING_FRAMES history ;;
  let '(most_common, count, stable) := v in
  if stable && cooldown_elapsed now (last_action_time st) then
    if differs_from most_common (last_triggered st) then
      let '(calls, action_desc) :=
        perform_action_for_gesture media_key_ok most_common in
      match truthy action_desc with
      | Some desc =>
          Some (mk_state history now (Some most_common),
                Some (mk_dispatch now most_common desc calls))
      | None => Some (quiet, None)
      end
    else Some (quiet, None)
  else Some (quiet, None).

(** Line 199: no hand, [UNKNOWN] goes into the history. *)
Definition no_hand_branch (st : loop_state) : loop_state :=
  mk_state (deque_append SMOOTHING_FRAMES (gesture_history st) "UNKNOWN")
           (last_action_time st) (last_triggered st).

(** One iteration of the [while] loop, lines 171-199. *)
Definition frame_step (st : loop_state) (f : frame_input)
  : option (loop_state * option dispatch) :=
  match results f with
  | Hand hand_landmarks handedness_label =>
      fingers <- fingers_up hand_landmarks handedness_label ;;
      gesture <- detect_gesture fingers ;;
      hand_branch st gesture (now f)
  | NoHand => Some (no_hand_branch st, None)
  end.

(** The loop over the frames read before it ends: the actions dispatched
    in order, and the final state, or [None] when an exception ended it. *)
Fixpoint run (st : loop_state) (frames : list frame_input)
  : list dispatch * option loop_state :=
  match frames with
  | [] => ([], Some st)
  | f :: rest =>
      match frame_step st f with
      | None => ([], None)
      | Some (st', out) =>
          let '(fired, final) := run st' rest in
          (match out with Some d => d :: fired | None => fired end, final)
      end
  end.

End Loop.

(** ** Vocabulary of the statements *)

(** The landmark at an index, for a hand that has it. *)
Definition point (lm : list Landmark.t) (i : nat) : Landmark.t :=
  nth i lm (Landmark.mk 0 0).

Definition GESTURES : list string :=
  ["OPEN_PALM"; "FIST"; "THUMB_UP"; "POINT"; "UNKNOWN"].

Definition NAMED_GESTURES : list string :=
  ["OPEN_PALM"; "FIST"; "THUMB_UP"; "POINT"].

(** A right hand with the given fingers raised: 21 landmarks, every tip
    clearly on one side of the joint it is compared with. *)
Definition sample_hand (thumb index middle ring pinky : bool) : list Landmark.t :=
  let side (up : bool) : Q := if up then 3 # 10 else 7 # 10 in
  map (fun i =>
         Landmark.mk
           (if i =? 4 then side thumb else 5 # 10)
           (if i =? 8 then side index
            else if i =? 12 then side middle
            else if i =? 16 then side ring
            else if i =? 20 then side pinky
            else 5 # 10))
      (seq 0 21).

(** The total count a Counter holds for a key. *)
Fixpoint count_in (c : list (string * nat)) (k : string) : nat :=
  match c with
  | [] => 0
  | (k', n) :: rest => (if (k =? k')%string then n else 0) + count_in rest k
  end.

(** The last [n] entries of a list. *)
Definition lastn {A : Type} (n : nat) (l : list A) : list A :=
  skipn (length l - n) l.

(** The window after a sequence of appends, oldest first. *)
Definition push_all (window : list string) (labels : list string) : list string :=
  fold_left (deque_append SMOOTHING_FRAMES) labels window.

(** The [stable] flag line 185 computes for a window. *)
Definition window_stable (window : list string) : bool :=
  match smoothing_vote SMOOTHING_FRAMES window with
  | Some (_, _, stable) => stable
  | None => false
  end.

(** Line 178, the label of a seen hand. *)
Definition gesture_of (lm : list Landmark.t) (label : string) : option string :=
  fingers <- fingers_up lm label ;;
  detect_gesture fingers.

(** Frames that show the same hand at the given times. *)
Definition frames_of (lm : list Landmark.t) (label : string) (times : list Q)
  : list frame_input :=
  map (fun t => mk_frame (Hand lm label) t) times.

(** The window of a state is within its capacity and holds gesture labels. *)
Definition window_ok (st : loop_state) : Prop :=
  length (gesture_history st) <= SMOOTHING_FRAMES /\
  Forall (fun g => In g GESTURES) (gesture_history st).

(** [last_triggered] is unset or names one of the four gestures with an action. *)
Definition named_or_unset (last : option string) : Prop :=
  match last with
  | None => True
  | Some g => In g NAMED_GESTURES
  end.

(** No fired gesture repeats the one fired just before it, [prev] being
    the one before the first. *)
Fixpoint alternating (prev : option string) (fired : list string) : Prop :=
  match fired with
  | [] => True
  | g :: rest => prev <> Some g /\ alternating (Some g) rest
  end.

(** Hands for the examples. *)
Definition open_palm_hand : list Landmark.t := sample_hand true true true true true.
Definition fist_hand : list Landmark.t := sample_hand false false false false false.
Definition point_hand : list Landmark.t := sample_hand false true false false false.

(** ** Further vocabulary *)

(** The label an iteration appends to the history: the classification of
    the hand, or UNKNOWN without a hand; [None] when classifying raises. *)
Definition frame_label (f : frame_input) : option string :=
  match results f with
  | Hand lm label => gesture_of lm label
  | NoHand => Some "UNKNOWN"
  end.

(** A frame whose hand, if any, has the landmarks [fingers_up] reads. *)
Definition enough_landmarks (f : frame_input) : Prop :=
  match results f with
  | Hand lm _ => 21 <= length lm
  | NoHand => True
  end.

(** The gestures with an action, and the description returned for each. *)
Definition ACTIONS : list (string * string) :=
  [("OPEN_PALM", "Play/Pause"); ("FIST", "Previous Track");
   ("POINT", "Next Track"); ("THUMB_UP", "Volume Up")].

(** ** The keyboard helpers, call by call

    [press_media_key_if_available], [press_key_fallback] and
    [perform_action_for_gesture] once more, now down to the calls of
    [keyboard.press] and [keyboard.release].  The controller is the
    environment: which attributes [Key] has, and which call raises, given
    the calls that went through before it.  The state is the list of the
    calls that went through, oldest first; a call that raises leaves it as
    it is, and [try ... except Exception] ends the helper with [False]. *)
Module Keyboard.

(** A key is a member [Key.<attr>] or a character. *)
Inductive key : Type :=
| KeyOf (attr : string)
| Char (c : string).

(** The argument of [press_key_fallback]: one key, or a tuple of keys. *)
Inductive key_or_combo : Type :=
| One (k : key)
| Tuple (ks : list key).

Inductive call : Type :=
| Press (k : key)
| Release (k : key).

Record env : Type := mk_env {
  has_attr : string -> bool;
  raises : list call -> call -> bool
}.

(** A computation on the controller: its result, [None] when it raised,
    and the calls that went through. *)
Definition action (A : Type) : Type := list call -> option A * list call.

Definition ret {A : Type} (a : A) : action A := fun done => (Some a, done).

Definition seq {A B : Type} (m : action A) (k : A -> action B) : action B :=
  fun done =>
    match m done with
    | (Some a, done') => k a done'
    | (None, done') => (None, done')
    end.

(** [try: m  except Exception: return fallback] *)
Definition try_except {A : Type} (m : action A) (fallback : A)
  : list call -> A * list call :=
  fun done =>
    match m done with
    | (Some a, done') => (a, done')
    | (None, done') => (fallback, done')
    end.

Definition do_call (e : env) (c : call) : action unit :=
  fun done => if raises e done c then (None, done) else (Some tt, done ++ [c]).

(** [for k in ks: op(k)] *)
Fixpoint for_each (e : env) (op : key -> call) (ks : list key) : action unit :=
  match ks with
  | [] => ret tt
  | k :: rest => seq (do_call e (op k)) (fun _ => for_each e op rest)
  end.

Definition press_media_key_if_available (e : env) (key_attr_name : string)
  : list call -> bool * list call :=
  fun done =>
    if negb (has_attr e key_attr_name) then (false, done)
    else
      try_except
        (seq (do_call e (Press (KeyOf key_attr_name))) (fun _ =>
         seq (do_call e (Release (KeyOf key_attr_name))) (fun _ =>
         ret true)))
        false done.

Definition press_key_fallback (e : env) (arg : key_or_combo)
  : list call -> bool * list call :=
  try_except
    (match arg with
     | Tuple ks =>
         seq (for_each e Press ks) (fun _ =>
         seq (for_each e Release (rev ks)) (fun _ =>
         ret true))
     | One k =>
         seq (do_call e (Press k)) (fun _ =>
         seq (do_call e (Release k)) (fun _ =>
         ret true))
     end)
    false.

(** [ok = press_media_key_if_available(name); if not ok: press_key_fallback(arg)] *)
Definition media_key_or_fallback (e : env) (key_attr_name : string)
    (arg : key_or_combo) : list call -> list call :=
  fun done =>
    let '(ok, done1) := press_media_key_if_available e key_attr_name done in
    if negb ok then snd (press_key_fallback e arg done1) else done1.

Definition perform_action_for_gesture (e : env) (gesture_name : string)
  : list call -> option string * list call :=
  fun done =>
    if (gesture_name =? "OPEN_PALM")%string then
      (Some "Play/Pause",
       media_key_or_fallback e "media_play_pause" (One (Char " ")) done)
    else if (gesture_name =? "FIST")%string then
      (Some "Previous Track",
       media_key_or_fallback e "media_previous"
                             (Tuple [KeyOf "ctrl_l"; KeyOf "left"]) done)
    else if (gesture_name =? "POINT")%string then
      (Some "Next Track",
       media_key_or_fallback e "media_next"
                             (Tuple [KeyOf "ctrl_l"; KeyOf "right"]) done)
    else if (gesture_name =? "THUMB_UP")%string then
      (Some "Volume Up",
       media_key_or_fallback e "media_volume_up" (One (Char "+")) done)
    else (None, done).

(** The calls [press_key_fallback] makes when none raises. *)
Definition calls_of (arg : key_or_combo) : list call :=
  match arg with
  | One k => [Press k; Release k]
  | Tuple ks => map Press ks ++ map Release (rev ks)
  end.

Definition is_press (c : call) : bool :=
  match c with Press _ => true | Release _ => false end.

(** How many keys a list of calls leaves down: presses minus releases. *)
Definition presses (calls : list call) : nat := length (filter is_press calls).
Definition releases (calls : list call) : nat :=
  length (filter (fun c => negb (is_press c)) calls).

(** The media key and the fallback of each gesture with an action. *)
Definition BINDINGS : list (string * (string * key_or_combo)) :=
  [("OPEN_PALM", ("media_play_pause", One (Char " ")));
   ("FIST", ("media_previous", Tuple [KeyOf "ctrl_l"; KeyOf "left"]));
   ("POINT", ("media_next", Tuple [KeyOf "ctrl_l"; KeyOf "right"]));
   ("THUMB_UP", ("media_volume_up", One (Char "+")))].

End Keyboard.

(** A list of calls made one after the other until one raises: whether all
    went through, and the calls that did. *)
Fixpoint attempt (e : Keyboard.env) (calls : list Keyboard.call)
    (done : list Keyboard.call) : bool * list Keyboard.call :=
  match calls with
  | [] => (true, done)
  | c :: rest =>
      if Keyboard.raises e done c then (false, done)
      else attempt e rest (done ++ [c])
  end.

(** ** The whole loop of [main]

    One pass of the [while] loop reads four things from outside: whether
    [cap.read()] delivered a frame, what the pose model and the clock of
    line 187 gave for it, the clock of line 202, and the key code of
    [cv2.waitKey(1)].  The image operations themselves (flip, colour
    conversion, drawing, [imshow]) are outside the model; the three texts
    handed to [cv2.putText] are kept. *)

From Stdlib Require DecimalString.
From Stdlib Require Import Sorted.

Record iteration : Type := mk_iteration {
  ret : bool;
  seen : frame_input;
  cur_time : Q;
  pressed : Z
}.

(** [str] of an integer. *)
Definition str_of_int (z : Z) : string :=
  DecimalString.NilZero.string_of_int (Z.to_int z).

(** [", ".join(parts)] *)
Fixpoint join (sep : string) (parts : list string) : string :=
  match parts with
  | [] => EmptyString
  | [p] => p
  | p :: rest => String.append p (String.append sep (join sep rest))
  end.

(** [repr] of a list of integers, as an f-string prints it. *)
Definition repr_int_list (l : list Z) : string :=
  String.append "[" (String.append (join ", " (map str_of_int l)) "]").

(** [int(x)] of a float: towards zero; [OverflowError] on an infinity. *)
Definition int_of_float (x : float) : option Z :=
  match x with
  | Finite v => Some (Z.quot (Qnum v) (Zpos (Qden v)))
  | Infinity _ => None
  end.

(** [a < c] for a float result [a] and a finite [c]. *)
Definition float_lt (a : float) (c : Q) : bool :=
  match a with
  | Finite v => Qltb v c
  | Infinity negative => negative
  end.

(** [a / b] on floats, for a finite [b] other than zero. *)
Definition float_div (a b : Q) : float := round64 (a / b).

(** Line 203: [1.0 / (cur_time - prev_time) if prev_time else 0.0].  The
    difference is a float: zero when the two readings are equal, and then
    the division raises [ZeroDivisionError]; an infinity when it
    overflows, and then the quotient is zero.  The quotient is a float
    too, an infinity when it overflows. *)
Definition frames_per_second (prev_time cur_time : Q) : option float :=
  if Qeq_bool prev_time 0 then Some (Finite 0)
  else
    match float_sub cur_time prev_time with
    | Finite d => if Qeq_bool d 0 then None else Some (float_div 1 d)
    | Infinity _ => Some (Finite 0)
    end.

(** Lines 203 and 211: the integer [int(fps)] put on screen; [None] when
    line 203 raises [ZeroDivisionError] or line 211 [OverflowError]. *)
Definition frame_rate_shown (prev_time cur_time : Q) : option Z :=
  fps <- frames_per_second prev_time cur_time ;;
  int_of_float fps.

(** The clock moved forward by at least 2^-1022, the smallest normal
    double. *)
Definition clock_advances (prev_time cur_time : Q) : Prop :=
  (prev_time + 2 ^ (-1022) <= cur_time)%Q.

(** Line 215: [cv2.waitKey(1) & 0xFF == 27] *)
Definition quit_key (pressed : Z) : bool := (Z.land pressed 255 =? 27)%Z.

(** Lines 167-179: [gesture_to_display]. *)
Definition display_of (f : frame_input) : option string :=
  match results f with
  | NoHand => Some "No hand"
  | Hand lm label =>
      fingers <- fingers_up lm label ;;
      gesture <- detect_gesture fingers ;;
      Some (String.append gesture (String.append " " (repr_int_list fingers)))
  end.

(** Lines 169 and 193: [action_text]. *)
Definition action_text_of (out : option dispatch) : string :=
  match out with
  | Some d => String.append "Action: " (fire_desc d)
  | None => EmptyString
  end.

(** The three lines of the overlay. *)
Record hud : Type := mk_hud {
  gesture_line : string;
  action_line : string;
  fps_line : string
}.

Inductive loop_end : Type :=
| CameraNotOpened
| ReadFailed
| EscPressed
| Raised
| StillRunning.

(** What a session did: the actions dispatched, the overlays shown, and
    how it ended; [StillRunning] when the passes given were all made and
    the loop would go on. *)
Record session : Type := mk_session {
  dispatched : list dispatch;
  shown : list hud;
  ended : loop_end
}.

Definition add_pass (out : option dispatch) (h : hud) (s : session) : session :=
  mk_session (match out with Some d => d :: dispatched s | None => dispatched s end)
             (h :: shown s) (ended s).

Section Main.

Variable media_key_ok : string -> bool.

(** Lines 158-216.  An exception in the loop body (lines 177-178), at the
    frame rate (line 203) or at [int(fps)] (line 211) ends the loop: in the
    last two cases after the action of the pass, if any, was dispatched
    and before its overlay is shown. *)
Fixpoint main_loop (st : loop_state) (prev_time : Q) (passes : list iteration)
  : session :=
  match passes with
  | [] => mk_session [] [] StillRunning
  | p :: rest =>
      if negb (ret p) then mk_session [] [] ReadFailed
      else
        match frame_step media_key_ok st (seen p), display_of (seen p) with
        | Some (st', out), Some gesture_to_display =>
            let fired := match out with Some d => [d] | None => [] end in
            match frame_rate_shown prev_time (cur_time p) with
            | None => mk_session fired [] Raised
            | Some fps =>
                let h :=
                  mk_hud (String.append "Gesture: " gesture_to_display)
                         (action_text_of out)
                         (String.append "FPS: " (str_of_int fps)) in
                if quit_key (pressed p) then mk_session fired [h] EscPressed
                else add_pass out h (main_loop st' (cur_time p) rest)
            end
        | _, _ => mk_session [] [] Raised
        end
  end.

(** Lines 142-219. *)
Definition main (opened : bool) (passes : list iteration) : session :=
  if negb opened then mk_session [] [] CameraNotOpened
  else main_loop initial_state 0 passes.

End Main.

(** The action texts a session put on screen, in order. *)
Definition announced (s : session) : list string :=
  filter (fun a => negb (a =? EmptyString)%string) (map action_line (shown s)).

(** ** The two demo scripts

    [hand_landmarks_demo.py] and [gtsture_control_demo.py] have their own
    [fingers_up], which returns the booleans without turning them into
    integers; the second script hands those booleans to its own copy of
    [detect_gesture], which compares them with lists of integers.  Python
    compares a boolean with an integer by value ([True == 1]). *)
Module Demo.

Inductive pyvalue : Type :=
| PyBool (b : bool)
| PyInt (z : Z).

(** [a == b] on booleans and integers. *)
Definition py_eq (a b : pyvalue) : bool :=
  match a, b with
  | PyBool x, PyBool y => Bool.eqb x y
  | PyInt x, PyInt y => Z.eqb x y
  | PyBool x, PyInt y => Z.eqb (int_of_bool x) y
  | PyInt x, PyBool y => Z.eqb x (int_of_bool y)
  end.

(** [a == b] on lists. *)
Fixpoint py_list_eq (a b : list pyvalue) : bool :=
  match a, b with
  | [], [] => true
  | u :: a', v :: b' => py_eq u v && py_list_eq a' b'
  | _, _ => false
  end.

Definition fingers_up (lm : list Landmark.t) (handedness : string)
  : option (list bool) :=
  tip0 <- nth_error TIP_IDS 0 ;;
  thumb_tip <- nth_error lm tip0 ;;
  thumb_ip <- nth_error lm (tip0 - 1) ;;
  let thumb :=
    if (handedness =? "Right")%string
    then Qltb (Landmark.x thumb_tip) (Landmark.x thumb_ip)
    else Qltb (Landmark.x thumb_ip) (Landmark.x thumb_tip) in
  others <- mapM (finger_raised lm) (tl TIP_IDS) ;;
  Some (thumb :: others).

Definition ints (l : list Z) : list pyvalue := map PyInt l.

Definition detect_gesture (fingers : list pyvalue) : option string :=
  match fingers with
  | [thumb; index; middle; ring; pinky] =>
      if py_list_eq fingers (ints [1; 1; 1; 1; 1]%Z) then Some "OPEN_PALM"
      else if py_list_eq fingers (ints [0; 0; 0; 0; 0]%Z) then Some "FIST"
      else if py_list_eq fingers (ints [1; 0; 0; 0; 0]%Z) then Some "THUMB_UP"
      else if py_list_eq fingers (ints [0; 1; 0; 0; 0]%Z) then Some "POINT"
      else Some "UNKNOWN"
  | _ => None
  end.

(** Lines 64-65 of [gtsture_control_demo.py]: the label shown for a hand. *)
Definition gesture_of (lm : list Landmark.t) (handedness : string) : option string :=
  up <- fingers_up lm handedness ;;
  detect_gesture (map PyBool up).

End Demo.

(** * Theorems *)

(** ** Comparisons *)

Lemma Qltb_iff (a b : Q) : Qltb a b = true <-> (a < b)%Q.
Proof.
  unfold Qltb. rewrite negb_true_iff.
  split; intro H.
  - apply Qnot_le_lt. intro Hle. apply Qle_bool_iff in Hle. congruence.
  - destruct (Qle_bool b a) eqn:E; [|reflexivity].
    apply Qle_bool_iff in E. exfalso. exact (Qlt_not_le _ _ H E).
Qed.

Lemma Qltb_eq_false (a b : Q) : (a == b)%Q -> Qltb a b = false.
Proof.
  intro H. destruct (Qltb a b) eqn:E; [|reflexivity].
  apply Qltb_iff in E. rewrite H in E. exfalso. exact (Qlt_irrefl _ E).
Qed.

(** ** Rounding to a double

    What the proofs need of [round64]: it is monotone across the points
    of the grid of doubles, so a bound by a double that holds before
    rounding holds after it, and the other way round. *)

Section Rounding.

Local Open Scope Q_scope.

Lemma pow2_pos (k : Z) : 0 < 2 ^ k.
Proof. apply Qpower_0_lt. reflexivity. Qed.

Lemma pow2_add (a b : Z) : 2 ^ (a + b) == 2 ^ a * 2 ^ b.
Proof. apply Qpower_plus. discriminate. Qed.

Lemma pow2_le (a b : Z) : (a <= b)%Z -> 2 ^ a <= 2 ^ b.
Proof. intro H. apply Qpower_le_compat_l; [exact H | discriminate]. Qed.

Lemma pow2_Z (n : Z) : (0 <= n)%Z -> inject_Z (2 ^ n) == 2 ^ n.
Proof. intro H. rewrite Zpower_Qpower by exact H. reflexivity. Qed.

Lemma floor_log2_le (x : Q) : 0 < x -> 2 ^ floor_log2 x <= x.
Proof.
  intro Hx. unfold floor_log2.
  set (a := Z.log2 (Qnum x)). set (b := Z.log2 (Zpos (Qden x))).
  destruct (Qle_bool (2 ^ (a - b)) x) eqn:E; [apply Qle_bool_iff; exact E|].
  assert (Hn : (0 < Qnum x)%Z).
  { destruct x as [n d]. unfold Qlt in Hx. cbn in *. lia. }
  destruct (Z.log2_spec (Qnum x) Hn) as [Ha _].
  destruct (Z.log2_spec (Zpos (Qden x)) (Pos2Z.is_pos _)) as [_ Hb].
  fold a in Ha. fold b in Hb.
  assert (Ha0 : (0 <= a)%Z) by apply Z.log2_nonneg.
  assert (Hb0 : (0 <= b)%Z) by apply Z.log2_nonneg.
  (* 2^(a-b-1) * d <= 2^(a-b-1) * 2^(b+1) = 2^a <= n *)
  assert (Hd : inject_Z (Zpos (Qden x)) <= 2 ^ (b + 1)).
  { rewrite <- pow2_Z by lia. rewrite <- Zle_Qle.
    replace (b + 1)%Z with (Z.succ b) by lia. lia. }
  assert (Hnq : 2 ^ a <= inject_Z (Qnum x)).
  { rewrite <- pow2_Z by lia. rewrite <- Zle_Qle. exact Ha. }
  assert (Hx_eq : x == inject_Z (Qnum x) / inject_Z (Zpos (Qden x))).
  { destruct x as [n d]. cbn [Qnum Qden]. rewrite <- Qmake_Qdiv. reflexivity. }
  assert (Hdpos : 0 < inject_Z (Zpos (Qden x))).
  { rewrite <- (Zlt_Qlt 0). lia. }
  rewrite Hx_eq. apply Qle_shift_div_l; [exact Hdpos|].
  apply Qle_trans with (2 ^ (a - b - 1) * 2 ^ (b + 1)).
  - apply Qmult_le_l; [apply pow2_pos | exact Hd].
  - rewrite <- pow2_add. replace (a - b - 1 + (b + 1))%Z with a by lia. exact Hnq.
Qed.

Lemma round_half_even_ge (t : Q) (n : Z) :
  inject_Z n <= t -> (n <= round_half_even t)%Z.
Proof.
  intro H. assert (Hf : (n <= Qfloor t)%Z).
  { rewrite <- (Qfloor_Z n). apply Qfloor_resp_le. exact H. }
  unfold round_half_even.
  destruct (Qcompare (t - inject_Z (Qfloor t)) (1 # 2)); [|lia|lia].
  destruct (Z.even (Qfloor t)); lia.
Qed.

Lemma round_half_even_le (t : Q) (n : Z) :
  t <= inject_Z n -> (round_half_even t <= n)%Z.
Proof.
  intro H. pose proof (Qfloor_le t) as Hf.
  assert (Hfn : (Qfloor t <= n)%Z).
  { rewrite Zle_Qle. eapply Qle_trans; eassumption. }
  assert (Hup : 0 < t - inject_Z (Qfloor t) -> (Qfloor t + 1 <= n)%Z).
  { intro Hpos. assert (Hlt : inject_Z (Qfloor t) < inject_Z n) by lra.
    rewrite <- Zlt_Qlt in Hlt. lia. }
  unfold round_half_even.
  destruct (Qcompare (t - inject_Z (Qfloor t)) (1 # 2)) eqn:E.
  - apply Qeq_alt in E. destruct (Z.even (Qfloor t)); [lia|].
    apply Hup. rewrite E. reflexivity.
  - lia.
  - apply Qgt_alt in E. apply Hup. eapply Qlt_trans; [|exact E]. reflexivity.
Qed.

Lemma Qred_eq (q : Q) : Qred q == q.
Proof. apply Qred_correct. Qed.

Lemma on_grid_lt (y : Q) (j k : Z) :
  (0 < j < 2 ^ 53)%Z -> y == inject_Z j * 2 ^ k -> y < 2 ^ (53 + k).
Proof.
  intros Hj Hy. rewrite Hy, pow2_add.
  apply Qmult_lt_r; [apply pow2_pos|].
  rewrite <- pow2_Z by lia. rewrite <- Zlt_Qlt. lia.
Qed.

Lemma on_grid_scaled (y : Q) (j k e : Z) :
  (e <= k)%Z -> y == inject_Z j * 2 ^ k ->
  y / 2 ^ e == inject_Z (j * 2 ^ (k - e)).
Proof.
  intros He Hy. pose proof (pow2_pos e) as Hp.
  rewrite inject_Z_mult, pow2_Z by lia.
  rewrite Hy. replace k with ((k - e) + e)%Z at 1 by lia.
  rewrite pow2_add. field. lra.
Qed.

Lemma round_positive_le (x y : Q) :
  0 < x -> on_grid y -> x <= y -> round_positive x <= y.
Proof.
  intros Hx (j & k & Hj & Hk & Hy) Hxy.
  unfold round_positive.
  set (e := Z.max (floor_log2 x - 52) (-1074)).
  pose proof (pow2_pos e) as Hp.
  rewrite Qred_eq.
  destruct (Z_le_gt_dec e k) as [Hek | Hek].
  - pose proof (on_grid_scaled y j k e Hek Hy) as Hs.
    assert (Hr : (round_half_even (x / 2 ^ e) <= j * 2 ^ (k - e))%Z).
    { apply round_half_even_le. rewrite <- Hs.
      apply Qmult_le_compat_r; [exact Hxy|].
      apply Qlt_le_weak, Qinv_lt_0_compat, Hp. }
    rewrite Zle_Qle in Hr.
    apply Qle_trans with (inject_Z (j * 2 ^ (k - e)) * 2 ^ e).
    + apply Qmult_le_compat_r; [exact Hr | apply Qlt_le_weak, Hp].
    + rewrite <- Hs. apply Qle_lteq. right. field. lra.
  - exfalso.
    assert (He : e = (floor_log2 x - 52)%Z) by lia.
    pose proof (floor_log2_le x Hx) as Hlo.
    pose proof (on_grid_lt y j k Hj Hy) as Hhi.
    assert (Hpw : 2 ^ (53 + k) <= 2 ^ floor_log2 x) by (apply pow2_le; lia).
    lra.
Qed.

Lemma round_positive_ge (x y : Q) :
  0 < x -> on_grid y -> y <= x -> y <= round_positive x.
Proof.
  intros Hx (j & k & Hj & Hk & Hy) Hxy.
  unfold round_positive.
  set (e := Z.max (floor_log2 x - 52) (-1074)).
  pose proof (pow2_pos e) as Hp.
  rewrite Qred_eq.
  destruct (Z_le_gt_dec e k) as [Hek | Hek].
  - pose proof (on_grid_scaled y j k e Hek Hy) as Hs.
    assert (Hr : (j * 2 ^ (k - e) <= round_half_even (x / 2 ^ e))%Z).
    { apply round_half_even_ge. rewrite <- Hs.
      apply Qmult_le_compat_r; [exact Hxy|].
      apply Qlt_le_weak, Qinv_lt_0_compat, Hp. }
    rewrite Zle_Qle in Hr.
    apply Qle_trans with (inject_Z (j * 2 ^ (k - e)) * 2 ^ e).
    + rewrite <- Hs. apply Qle_lteq. right. field. lra.
    + apply Qmult_le_compat_r; [exact Hr | apply Qlt_le_weak, Hp].
  - assert (He : e = (floor_log2 x - 52)%Z) by lia.
    pose proof (floor_log2_le x Hx) as Hlo.
    pose proof (on_grid_lt y j k Hj Hy) as Hhi.
    assert (Hr : (2 ^ 52 <= round_half_even (x / 2 ^ e))%Z).
    { apply round_half_even_ge. rewrite pow2_Z by lia.
      apply Qle_shift_div_l; [exact Hp|].
      rewrite <- pow2_add. replace (52 + e)%Z with (floor_log2 x) by lia.
      exact Hlo. }
    rewrite Zle_Qle, pow2_Z in Hr by lia.
    apply Qle_trans with (2 ^ 52 * 2 ^ e).
    + rewrite <- pow2_add. apply Qlt_le_weak.
      eapply Qlt_le_trans; [exact Hhi|]. apply pow2_le. lia.
    + apply Qmult_le_compat_r; [exact Hr | apply Qlt_le_weak, Hp].
Qed.

Lemma Qcompare_Eq (x : Q) : Qcompare x 0 = Eq -> x == 0.
Proof. intro H. apply Qeq_alt. exact H. Qed.

Lemma Qcompare_Gt (x : Q) : Qcompare x 0 = Gt -> 0 < x.
Proof. intro H. apply Qgt_alt. exact H. Qed.

Lemma Qcompare_Lt (x : Q) : Qcompare x 0 = Lt -> x < 0.
Proof. intro H. apply Qlt_alt. exact H. Qed.

Lemma round_positive_nonneg (x : Q) : 0 < x -> 0 <= round_positive x.
Proof.
  intro Hx. unfold round_positive.
  set (e := Z.max (floor_log2 x - 52) (-1074)).
  pose proof (pow2_pos e) as Hp. rewrite Qred_eq.
  assert (Hr : (0 <= round_half_even (x / 2 ^ e))%Z).
  { apply round_half_even_ge. apply Qlt_le_weak.
    apply Qlt_shift_div_l; [exact Hp|].
    change (inject_Z 0) with 0. rewrite Qmult_0_l. exact Hx. }
  rewrite Zle_Qle in Hr.
  apply Qmult_le_0_compat; [exact Hr | lra].
Qed.

Lemma round64_Qeq (x x' : Q) : x == x' -> round64 x = round64 x'.
Proof.
  intro E. unfold round64. rewrite <- E.
  assert (E1 : Qred x = Qred x') by (apply Qred_complete; exact E).
  assert (E2 : Qred (- x) = Qred (- x')) by (apply Qred_complete; rewrite E; reflexivity).
  rewrite E1, E2. reflexivity.
Qed.

Lemma Qle_bool_false (a b : Q) : Qle_bool a b = false <-> b < a.
Proof.
  split; intro H.
  - apply Qnot_le_lt. intro Hle. apply Qle_bool_iff in Hle. congruence.
  - destruct (Qle_bool a b) eqn:E; [|reflexivity].
    apply Qle_bool_iff in E. exfalso. exact (Qlt_not_le _ _ H E).
Qed.

Lemma Qltb_false (a b : Q) : Qltb a b = false <-> b <= a.
Proof.
  unfold Qltb. rewrite negb_false_iff. apply Qle_bool_iff.
Qed.

(** Rounding never carries a value across a point of the grid. *)
Lemma round64_le_grid (x y : Q) :
  on_grid y -> y < 2 ^ 1024 -> x <= y -> float_gt (round64 x) y = false.
Proof.
  intros Hy Hmax Hxy.
  assert (Hy0 : 0 < y).
  { destruct Hy as (j & k & Hj & _ & ->).
    apply Qmult_lt_0_compat; [|apply pow2_pos].
    rewrite <- (Zlt_Qlt 0). lia. }
  unfold round64. destruct (Qcompare x 0) eqn:Ec.
  - cbn [float_gt]. apply Qltb_false. apply Qlt_le_weak. exact Hy0.
  - apply Qcompare_Lt in Ec.
    assert (Hv : 0 <= round_positive (Qred (- x))).
    { apply round_positive_nonneg. rewrite Qred_eq. lra. }
    destruct (Qle_bool (2 ^ 1024) (round_positive (Qred (- x)))); [reflexivity|].
    cbn [float_gt]. apply Qltb_false. lra.
  - apply Qcompare_Gt in Ec.
    assert (Hv : round_positive (Qred x) <= y).
    { apply round_positive_le; [rewrite Qred_eq; exact Ec | exact Hy |].
      rewrite Qred_eq. exact Hxy. }
    destruct (Qle_bool (2 ^ 1024) (round_positive (Qred x))) eqn:Eo.
    + apply Qle_bool_iff in Eo. lra.
    + cbn [float_gt]. apply Qltb_false. exact Hv.
Qed.

Lemma round64_gt_grid (x y : Q) :
  on_grid y -> y < 2 ^ 1024 -> float_gt (round64 x) y = true -> y < x.
Proof.
  intros Hy Hmax Hgt. destruct (Qlt_le_dec y x) as [H | H]; [exact H|].
  rewrite (round64_le_grid x y Hy Hmax H) in Hgt. discriminate Hgt.
Qed.

Lemma round64_ge_grid (x y : Q) :
  on_grid y -> y <= x ->
  round64 x = Infinity false \/ exists v, round64 x = Finite v /\ y <= v.
Proof.
  intros Hy Hxy.
  assert (Hy0 : 0 < y).
  { destruct Hy as (j & k & Hj & _ & ->).
    apply Qmult_lt_0_compat; [|apply pow2_pos].
    rewrite <- (Zlt_Qlt 0). lia. }
  unfold round64. destruct (Qcompare x 0) eqn:Ec.
  - apply Qcompare_Eq in Ec. lra.
  - apply Qcompare_Lt in Ec. lra.
  - apply Qcompare_Gt in Ec.
    destruct (Qle_bool (2 ^ 1024) (round_positive (Qred x))); [left; reflexivity|].
    right. eexists. split; [reflexivity|].
    apply round_positive_ge; [rewrite Qred_eq; exact Ec | exact Hy |].
    rewrite Qred_eq. exact Hxy.
Qed.

Lemma is_double_round (t : Q) :
  is_double t = true -> exists v, round64 t = Finite v /\ v == t.
Proof.
  unfold is_double. destruct (round64 t) as [v|]; [|discriminate].
  intro H. apply Qeq_bool_iff in H. exists v. split; [reflexivity | exact H].
Qed.

Lemma round_positive_grid (x : Q) :
  exists k : Z, round_positive x == inject_Z k * 2 ^ (-1074).
Proof.
  unfold round_positive.
  set (e := Z.max (floor_log2 x - 52) (-1074)).
  exists (round_half_even (x / 2 ^ e) * 2 ^ (e + 1074))%Z.
  rewrite Qred_eq, inject_Z_mult, pow2_Z by lia.
  replace e with ((e + 1074) + -1074)%Z at 2 by lia.
  rewrite pow2_add. ring.
Qed.

(** Every double is a whole number of steps of 2^-1074. *)
Lemma is_double_grid (t : Q) :
  is_double t = true -> exists k : Z, t == inject_Z k * 2 ^ (-1074).
Proof.
  intro H. apply is_double_round in H. destruct H as (v & Hr & Hv).
  unfold round64 in Hr. destruct (Qcompare t 0) eqn:Ec.
  - apply Qcompare_Eq in Ec. exists 0%Z. rewrite Ec. ring.
  - destruct (Qle_bool (2 ^ 1024) (round_positive (Qred (- t)))); [discriminate|].
    injection Hr as Hr. destruct (round_positive_grid (Qred (- t))) as (k & Hk).
    exists (- k)%Z. rewrite <- Hv, <- Hr, Hk, inject_Z_opp. ring.
  - destruct (Qle_bool (2 ^ 1024) (round_positive (Qred t))); [discriminate|].
    injection Hr as Hr. destruct (round_positive_grid (Qred t)) as (k & Hk).
    exists k. rewrite <- Hv, <- Hr. exact Hk.
Qed.

(** Two doubles differ by at least the smallest positive double. *)
Lemma doubles_apart (a b : Q) :
  is_double a = true -> is_double b = true -> a < b -> 2 ^ (-1074) <= b - a.
Proof.
  intros Ha Hb Hlt.
  destruct (is_double_grid a Ha) as (ka & Hka).
  destruct (is_double_grid b Hb) as (kb & Hkb).
  pose proof (pow2_pos (-1074)) as Hp.
  assert (Hk : (ka < kb)%Z).
  { destruct (Z_lt_le_dec ka kb) as [H | H]; [exact H|]. exfalso.
    rewrite Zle_Qle in H.
    assert (inject_Z kb * 2 ^ (-1074) <= inject_Z ka * 2 ^ (-1074))
      by (apply Qmult_le_compat_r; [exact H | lra]).
    lra. }
  assert (Hk1 : (1 <= kb - ka)%Z) by lia.
  rewrite Zle_Qle in Hk1. unfold Zminus in Hk1.
  rewrite inject_Z_plus, inject_Z_opp in Hk1.
  rewrite Hka, Hkb.
  assert (H : 1 * 2 ^ (-1074) <= (inject_Z kb + - inject_Z ka) * 2 ^ (-1074))
    by (apply Qmult_le_compat_r; [exact Hk1 | lra]).
  lra.
Qed.

Lemma floor_log2_lt (x : Q) : 0 < x -> x < 2 ^ (floor_log2 x + 1).
Proof.
  intro Hx. unfold floor_log2.
  set (a := Z.log2 (Qnum x)). set (b := Z.log2 (Zpos (Qden x))).
  assert (Hn : (0 < Qnum x)%Z).
  { destruct x as [n d]. unfold Qlt in Hx. cbn in *. lia. }
  destruct (Z.log2_spec (Qnum x) Hn) as [_ Ha].
  destruct (Z.log2_spec (Zpos (Qden x)) (Pos2Z.is_pos _)) as [Hb _].
  fold a in Ha. fold b in Hb.
  assert (Ha0 : (0 <= a)%Z) by apply Z.log2_nonneg.
  assert (Hb0 : (0 <= b)%Z) by apply Z.log2_nonneg.
  destruct (Qle_bool (2 ^ (a - b)) x) eqn:E.
  - assert (Hd : 2 ^ b <= inject_Z (Zpos (Qden x))).
    { rewrite <- pow2_Z by lia. rewrite <- Zle_Qle. exact Hb. }
    assert (Hnq : inject_Z (Qnum x) < 2 ^ (a + 1)).
    { rewrite <- pow2_Z by lia. rewrite <- Zlt_Qlt.
      replace (a + 1)%Z with (Z.succ a) by lia. exact Ha. }
    assert (Hx_eq : x == inject_Z (Qnum x) / inject_Z (Zpos (Qden x))).
    { destruct x as [n d]. cbn [Qnum Qden]. rewrite <- Qmake_Qdiv. reflexivity. }
    assert (Hdpos : 0 < inject_Z (Zpos (Qden x))).
    { rewrite <- (Zlt_Qlt 0). lia. }
    rewrite Hx_eq. apply Qlt_shift_div_r; [exact Hdpos|].
    apply Qlt_le_trans with (2 ^ (a - b + 1) * 2 ^ b).
    + rewrite <- pow2_add. replace (a - b + 1 + b)%Z with (a + 1)%Z by lia.
      exact Hnq.
    + apply Qmult_le_l; [apply pow2_pos | exact Hd].
  - apply Qle_bool_false in E. replace (a - b - 1 + 1)%Z with (a - b)%Z by lia.
    exact E.
Qed.

Lemma round_half_even_near (t : Q) :
  Qabs (inject_Z (round_half_even t) - t) <= 1 # 2.
Proof.
  pose proof (Qfloor_le t) as Hlo. pose proof (Qlt_floor t) as Hhi.
  rewrite inject_Z_plus in Hhi. change (inject_Z 1) with 1 in Hhi.
  apply Qabs_Qle_condition. unfold round_half_even.
  destruct (Qcompare (t - inject_Z (Qfloor t)) (1 # 2)) eqn:E.
  - apply Qeq_alt in E. destruct (Z.even (Qfloor t)).
    + split; lra.
    + rewrite inject_Z_plus. change (inject_Z 1) with 1. split; lra.
  - apply Qlt_alt in E. split; lra.
  - apply Qgt_alt in E. rewrite inject_Z_plus. change (inject_Z 1) with 1.
    split; lra.
Qed.

(** [round_positive] is a rounding to nearest: the result is a whole
    number of units 2^e, of at most 53 bits unless the rounding carried
    to 2^53, and it is within half a unit of [x]. *)
Lemma round_positive_nearest (x : Q) :
  0 < x ->
  exists (m e : Z),
    e = Z.max (floor_log2 x - 52) (-1074) /\
    round_positive x == inject_Z m * 2 ^ e /\
    (0 <= m <= 2 ^ 53)%Z /\
    Qabs (round_positive x - x) <= (1 # 2) * 2 ^ e.
Proof.
  intro Hx. unfold round_positive.
  set (e := Z.max (floor_log2 x - 52) (-1074)).
  pose proof (pow2_pos e) as Hp.
  exists (round_half_even (x / 2 ^ e)), e.
  split; [reflexivity|]. split; [apply Qred_eq|]. split.
  - split.
    + apply round_half_even_ge. apply Qlt_le_weak.
      apply Qlt_shift_div_l; [exact Hp|].
      change (inject_Z 0) with 0. rewrite Qmult_0_l. exact Hx.
    + apply round_half_even_le. rewrite pow2_Z by lia.
      apply Qle_shift_div_r; [exact Hp|]. rewrite <- pow2_add.
      apply Qlt_le_weak. eapply Qlt_le_trans; [apply floor_log2_lt; exact Hx|].
      apply pow2_le. lia.
  - rewrite Qred_eq.
    pose proof (round_half_even_near (x / 2 ^ e)) as Hn.
    apply Qabs_Qle_condition in Hn. apply Qabs_Qle_condition.
    set (r := inject_Z (round_half_even (x / 2 ^ e))) in *.
    assert (Ex : x == (x / 2 ^ e) * 2 ^ e) by (field; lra).
    set (t := x / 2 ^ e) in *.
    destruct Hn as [Hn1 Hn2].
    assert (H1 : (r - t) * 2 ^ e <= (1 # 2) * 2 ^ e)
      by (apply Qmult_le_compat_r; lra).
    assert (H2 : - (1 # 2) * 2 ^ e <= (r - t) * 2 ^ e)
      by (apply Qmult_le_compat_r; lra).
    split; rewrite Ex; lra.
Qed.

(** The doubles are the numbers of the grid below 2^1024 (and their
    opposites, and zero): [round64] leaves exactly those unchanged. *)
Lemma is_double_iff_on_grid (t : Q) :
  0 < t -> (is_double t = true <-> on_grid t /\ t < 2 ^ 1024).
Proof.
  intro Ht. split.
  - intro H. apply is_double_round in H. destruct H as (v & Hr & Hv).
    unfold round64 in Hr. destruct (Qcompare t 0) eqn:Ec.
    + apply Qcompare_Eq in Ec. lra.
    + apply Qcompare_Lt in Ec. lra.
    + destruct (Qle_bool (2 ^ 1024) (round_positive (Qred t))) eqn:Eo;
        [discriminate Hr|].
      injection Hr as Hr. apply Qle_bool_false in Eo. rewrite Hr, Hv in Eo.
      split; [|exact Eo].
      assert (Hpos : 0 < Qred t) by (rewrite Qred_eq; exact Ht).
      destruct (round_positive_nearest (Qred t) Hpos)
        as (m & e & He & Hm & [Hm0 Hm53] & _).
      rewrite Hr, Hv in Hm.
      assert (Hm1 : (0 < m)%Z).
      { destruct (Z_lt_le_dec 0 m) as [H | H]; [exact H|]. exfalso.
        assert (E0 : m = 0%Z) by lia. rewrite E0 in Hm.
        change (inject_Z 0) with 0 in Hm. rewrite Qmult_0_l in Hm. lra. }
      destruct (Z_lt_le_dec m (2 ^ 53)) as [Hlt | Hge].
      * exists m, e. split; [lia|]. split; [lia | exact Hm].
      * assert (E53 : m = (2 ^ 53)%Z) by lia.
        exists 1%Z, (53 + e)%Z. split; [split; reflexivity|].
        split; [lia|]. rewrite Hm, E53, pow2_add, pow2_Z by lia.
        change (inject_Z 1) with 1. ring.
  - intros [Hg Hmax]. unfold is_double.
    pose proof (round64_le_grid t t Hg Hmax (Qle_refl t)) as Hle.
    destruct (round64_ge_grid t t Hg (Qle_refl t)) as [Hi | (v & Hv & Hge)].
    + rewrite Hi in Hle. discriminate Hle.
    + rewrite Hv in Hle |- *. cbn [float_gt] in Hle. apply Qltb_false in Hle.
      apply Qeq_bool_iff. lra.
Qed.

(** *** The cooldown test *)

Lemma ACTION_COOLDOWN_literal : round64 (8 # 10) = Finite ACTION_COOLDOWN.
Proof. vm_compute. reflexivity. Qed.

Lemma ACTION_COOLDOWN_on_grid : on_grid ACTION_COOLDOWN.
Proof.
  exists 3602879701896397%Z, (-52)%Z.
  split; [split; reflexivity|]. split; [discriminate|].
  vm_compute. reflexivity.
Qed.

Lemma ACTION_COOLDOWN_finite : ACTION_COOLDOWN < 2 ^ 1024.
Proof.
  apply Qlt_le_trans with (2 ^ 0); [vm_compute; reflexivity|].
  apply pow2_le. discriminate.
Qed.

(** The test of line 188 passes only when the exact difference is above
    the cooldown. *)
Lemma cooldown_elapsed_gt (now last : Q) :
  cooldown_elapsed now last = true -> ACTION_COOLDOWN < now - last.
Proof.
  apply round64_gt_grid;
    [exact ACTION_COOLDOWN_on_grid | exact ACTION_COOLDOWN_finite].
Qed.

Lemma cooldown_not_elapsed (now last : Q) :
  now - last <= ACTION_COOLDOWN -> cooldown_elapsed now last = false.
Proof.
  apply round64_le_grid;
    [exact ACTION_COOLDOWN_on_grid | exact ACTION_COOLDOWN_finite].
Qed.

(** Against [last_action_time = 0] nothing is rounded: for a double [t]
    the test is [t > 0.8]. *)
Lemma cooldown_elapsed_first (t : Q) :
  is_double t = true ->
  (cooldown_elapsed t 0 = true <-> ACTION_COOLDOWN < t).
Proof.
  intro Ht. apply is_double_round in Ht. destruct Ht as (v & Hr & Hv).
  unfold cooldown_elapsed, float_sub.
  rewrite (round64_Qeq (t - 0) t) by ring.
  rewrite Hr. cbn [float_gt]. rewrite Qltb_iff, Hv. reflexivity.
Qed.

End Rounding.

(** ** Classifier *)

Lemma finger_vectors_spec (n : nat) (v : list Z) :
  In v (finger_vectors n) <->
  length v = n /\ Forall (fun b => b = 0%Z \/ b = 1%Z) v.
Proof.
  revert v. induction n as [|n IH]; intro v; cbn [finger_vectors].
  - split.
    + intros [<- | []]. split; [reflexivity | constructor].
    + intros [Hlen _]. destruct v; [now left | discriminate].
  - rewrite in_flat_map. split.
    + intros (w & Hw & Hv). apply IH in Hw. destruct Hw as [Hlen Hall].
      cbn in Hv. destruct Hv as [<- | [<- | []]]; cbn; split; auto.
    + intros [Hlen Hall]. destruct v as [|b w]; [discriminate|].
      inversion Hall as [|? ? Hb Hw]; subst.
      exists w. split.
      * apply IH. split; [now injection Hlen | assumption].
      * cbn. destruct Hb as [-> | ->]; auto.
Qed.

(** C5. [detect_gesture] is defined on each of the 32 five-element 0/1
    vectors ([finger_vectors 5] lists exactly those, without repetition);
    the four patterns [1,1,1,1,1], [0,0,0,0,0], [1,0,0,0,0], [0,1,0,0,0]
    give OPEN_PALM, FIST, THUMB_UP, POINT; every other vector gives
    UNKNOWN, so 4 vectors are named and 28 are UNKNOWN. *)
Theorem detect_gesture_table :
  (forall v, In v (finger_vectors 5) <->
             length v = 5 /\ Forall (fun b => b = 0%Z \/ b = 1%Z) v) /\
  length (finger_vectors 5) = 32 /\
  NoDup (finger_vectors 5) /\
  detect_gesture [1; 1; 1; 1; 1]%Z = Some "OPEN_PALM" /\
  detect_gesture [0; 0; 0; 0; 0]%Z = Some "FIST" /\
  detect_gesture [1; 0; 0; 0; 0]%Z = Some "THUMB_UP" /\
  detect_gesture [0; 1; 0; 0; 0]%Z = Some "POINT" /\
  (forall v, In v (finger_vectors 5) -> ~ In v named_patterns ->
             detect_gesture v = Some "UNKNOWN") /\
  length (filter (fun v => negb (is_label "UNKNOWN" (detect_gesture v)))
                 (finger_vectors 5)) = 4 /\
  length (filter (fun v => is_label "UNKNOWN" (detect_gesture v))
                 (finger_vectors 5)) = 28.
Proof.
  split; [exact (finger_vectors_spec 5)|].
  split; [reflexivity|].
  split.
  { assert (E : nodup (list_eq_dec Z.eq_dec) (finger_vectors 5) = finger_vectors 5)
      by (vm_compute; reflexivity).
    rewrite <- E. apply NoDup_nodup. }
  repeat (split; [reflexivity|]).
  split; [|split; reflexivity].
  intros v Hin Hnamed. cbn in Hin.
  repeat (destruct Hin as [<- | Hin];
          [first [reflexivity | exfalso; apply Hnamed; cbn; tauto]|]).
  destruct Hin.
Qed.

(** ** Extractor *)

Lemma int_of_bool_cases (f : bool) : int_of_bool f = 1%Z \/ int_of_bool f = 0%Z.
Proof. destruct f; [left | right]; reflexivity. Qed.

Lemma int_of_bool_one (f : bool) : int_of_bool f = 1%Z <-> f = true.
Proof. destruct f; cbn; split; (reflexivity || discriminate). Qed.

Lemma int_of_bool_zero (f : bool) : f = false -> int_of_bool f = 0%Z.
Proof. intros ->. reflexivity. Qed.

(** C7. For a hand with its 21 landmarks and a handedness of Right or Left,
    [fingers_up] returns a list of five integers, each 1 (up) or 0 (down):
    the thumb is 1 exactly when (Right and tip.x < joint.x) or (Left and
    tip.x > joint.x), with tip 4 and joint 3; index, middle, ring and pinky
    are 1 exactly when tip.y < pip.y, with tips 8, 12, 16, 20 and pips 6,
    10, 14, 18.  The comparisons are strict: equal coordinates give 0. *)
Theorem fingers_up_spec (lm : list Landmark.t) (label : string) :
  length lm = 21 ->
  label = "Right" \/ label = "Left" ->
  exists thumb index middle ring pinky : Z,
    fingers_up lm label = Some [thumb; index; middle; ring; pinky] /\
    Forall (fun f => f = 1%Z \/ f = 0%Z) [thumb; index; middle; ring; pinky] /\
    (thumb = 1%Z <->
       (label = "Right" /\
        (Landmark.x (point lm 4) < Landmark.x (point lm 3))%Q) \/
       (label = "Left" /\
        (Landmark.x (point lm 3) < Landmark.x (point lm 4))%Q)) /\
    (index = 1%Z <-> (Landmark.y (point lm 8) < Landmark.y (point lm 6))%Q) /\
    (middle = 1%Z <-> (Landmark.y (point lm 12) < Landmark.y (point lm 10))%Q) /\
    (ring = 1%Z <-> (Landmark.y (point lm 16) < Landmark.y (point lm 14))%Q) /\
    (pinky = 1%Z <-> (Landmark.y (point lm 20) < Landmark.y (point lm 18))%Q) /\
    ((Landmark.x (point lm 4) == Landmark.x (point lm 3))%Q -> thumb = 0%Z) /\
    ((Landmark.y (point lm 8) == Landmark.y (point lm 6))%Q -> index = 0%Z) /\
    ((Landmark.y (point lm 12) == Landmark.y (point lm 10))%Q -> middle = 0%Z) /\
    ((Landmark.y (point lm 16) == Landmark.y (point lm 14))%Q -> ring = 0%Z) /\
    ((Landmark.y (point lm 20) == Landmark.y (point lm 18))%Q -> pinky = 0%Z).
Proof.
  intros Hlen Hlabel.
  do 21 (destruct lm as [|? lm]; [discriminate Hlen|]).
  destruct lm; [|discriminate Hlen]. clear Hlen.
  unfold fingers_up, finger_raised, point.
  cbn [TIP_IDS nth_error nth tl mapM bind Nat.sub map].
  do 5 eexists. split; [reflexivity|].
  split; [repeat (apply Forall_cons; [apply int_of_bool_cases|]); apply Forall_nil|].
  split.
  { rewrite int_of_bool_one.
    destruct Hlabel as [-> | ->]; cbn [String.eqb Ascii.eqb Bool.eqb]; rewrite Qltb_iff;
      split; intro H.
    - left. split; [reflexivity | exact H].
    - destruct H as [[_ H] | [H _]]; [exact H | discriminate H].
    - right. split; [reflexivity | exact H].
    - destruct H as [[H _] | [_ H]]; [discriminate H | exact H]. }
  repeat (split; [rewrite int_of_bool_one; apply Qltb_iff|]).
  split.
  { intro H. apply int_of_bool_zero.
    destruct Hlabel as [-> | ->]; cbn [String.eqb Ascii.eqb Bool.eqb];
      apply Qltb_eq_false; [exact H | symmetry; exact H]. }
  repeat split; intro H; apply int_of_bool_zero, Qltb_eq_false; exact H.
Qed.

Lemma fingers_up_spec_witness :
  length (sample_hand true true false false false) = 21 /\
  fingers_up (sample_hand true true false false false) "Left"
  = Some [0; 1; 0; 0; 0]%Z.
Proof.
  split; [reflexivity|].
  destruct (fingers_up_spec (sample_hand true true false false false) "Left")
    as (t & i & m & r & p & E & Hbits & Ht & Hi & Hm & Hr & Hp & _);
    [reflexivity | right; reflexivity |].
  rewrite E. rewrite Forall_forall in Hbits.
  assert (Et : t = 0%Z).
  { destruct (Hbits t) as [B | B]; [cbn; tauto | | exact B].
    apply Ht in B. destruct B as [[B _] | [_ B]];
      [discriminate B | vm_compute in B; discriminate B]. }
  assert (Ei : i = 1%Z) by (apply Hi; vm_compute; reflexivity).
  assert (Em : m = 0%Z).
  { destruct (Hbits m) as [B | B]; [cbn; tauto | | exact B].
    apply Hm in B. vm_compute in B. discriminate B. }
  assert (Er : r = 0%Z).
  { destruct (Hbits r) as [B | B]; [cbn; tauto | | exact B].
    apply Hr in B. vm_compute in B. discriminate B. }
  assert (Ep : p = 0%Z).
  { destruct (Hbits p) as [B | B]; [cbn; tauto | | exact B].
    apply Hp in B. vm_compute in B. discriminate B. }
  rewrite Et, Ei, Em, Er, Ep. reflexivity.
Defined.

(** ** Counter *)

Lemma count_in_counter_add (k k' : string) (c : list (string * nat)) :
  count_in (counter_add k c) k' = (if (k' =? k)%string then 1 else 0) + count_in c k'.
Proof.
  induction c as [|[a n] c IH]; cbn [counter_add count_in].
  - lia.
  - destruct (String.eqb_spec k a) as [-> | Hka]; cbn [count_in].
    + destruct (k' =? a)%string; lia.
    + rewrite IH. lia.
Qed.

Lemma Counter_snoc (l : list string) (k : string) :
  Counter (l ++ [k]) = counter_add k (Counter l).
Proof. unfold Counter. rewrite fold_left_app. reflexivity. Qed.

Lemma count_in_Counter (l : list string) (k : string) :
  count_in (Counter l) k = count_occ string_dec l k.
Proof.
  induction l as [|x l IH] using rev_ind.
  - reflexivity.
  - rewrite Counter_snoc, count_in_counter_add, IH, count_occ_app.
    cbn [count_occ]. destruct (String.eqb_spec k x) as [Ekx | Hkx];
      destruct (string_dec x k) as [E | E]; try congruence; lia.
Qed.

Lemma keys_counter_add (k k' : string) (c : list (string * nat)) :
  In k' (map fst (counter_add k c)) <-> k' = k \/ In k' (map fst c).
Proof.
  induction c as [|[a n] c IH]; cbn [counter_add map fst In].
  - intuition auto.
  - destruct (String.eqb_spec k a) as [-> | Hka]; cbn [map fst In].
    + intuition auto.
    + rewrite IH. intuition auto.
Qed.

Lemma NoDup_keys_counter_add (k : string) (c : list (string * nat)) :
  NoDup (map fst c) -> NoDup (map fst (counter_add k c)).
Proof.
  induction c as [|[a n] c IH]; cbn [counter_add map fst]; intro H.
  - constructor; [intros [] | constructor].
  - inversion H as [|? ? Hnotin Hrest]; subst.
    destruct (String.eqb_spec k a) as [-> | Hka]; cbn [map fst].
    + constructor; assumption.
    + constructor; [|auto].
      rewrite keys_counter_add. intros [E | Hin]; [congruence | contradiction].
Qed.

Lemma NoDup_keys_Counter (l : list string) : NoDup (map fst (Counter l)).
Proof.
  induction l as [|x l IH] using rev_ind.
  - constructor.
  - rewrite Counter_snoc. apply NoDup_keys_counter_add, IH.
Qed.

Lemma count_in_absent (c : list (string * nat)) (k : string) :
  ~ In k (map fst c) -> count_in c k = 0.
Proof.
  induction c as [|[a n] c IH]; cbn [count_in map fst In]; intro H.
  - reflexivity.
  - destruct (String.eqb_spec k a) as [-> | Hka].
    + exfalso. apply H. now left.
    + rewrite IH; [reflexivity | intro; apply H; now right].
Qed.

Lemma count_in_entry (c : list (string * nat)) (k : string) (n : nat) :
  NoDup (map fst c) -> In (k, n) c -> count_in c k = n.
Proof.
  induction c as [|[a m] c IH]; cbn [count_in map fst In]; intros Hnd Hin.
  - destruct Hin.
  - inversion Hnd as [|? ? Hnotin Hrest]; subst.
    destruct Hin as [E | Hin].
    + injection E as Ea Em. subst a m.
      rewrite String.eqb_refl, count_in_absent by assumption. lia.
    + destruct (String.eqb_spec k a) as [-> | Hka].
      * exfalso. apply Hnotin. apply (in_map fst) in Hin. exact Hin.
      * apply IH; assumption.
Qed.

Lemma max_by_count_In (e : string * nat) (c : list (string * nat)) :
  In (max_by_count e c) (e :: c).
Proof.
  revert e. induction c as [|a c IH]; intro e; cbn [max_by_count].
  - now left.
  - destruct (snd e <? snd a).
    + right. apply IH.
    + destruct (IH e) as [E | Hin]; [left; exact E | right; right; exact Hin].
Qed.

Lemma Counter_nonempty (l : list string) : l <> [] -> Counter l <> [].
Proof.
  destruct l as [|x l] using rev_ind; [congruence|].
  intros _. rewrite Counter_snoc. destruct (Counter l) as [|[a n] c]; cbn [counter_add].
  - discriminate.
  - destruct (x =? a)%string; discriminate.
Qed.

Lemma Counter_repeat (g : string) (n : nat) :
  Counter (repeat g (S n)) = [(g, S n)].
Proof.
  induction n as [|n IH].
  - reflexivity.
  - replace (repeat g (S (S n))) with (repeat g (S n) ++ [g]).
    + rewrite Counter_snoc, IH. cbn [counter_add]. now rewrite String.eqb_refl.
    + rewrite <- repeat_cons. reflexivity.
Qed.

(** ** The bounded deque *)

Lemma deque_append_length (maxlen : nat) (d : list string) (g : string) :
  length d <= maxlen -> length (deque_append maxlen d g) <= maxlen.
Proof.
  intro H. unfold deque_append.
  destruct (Nat.ltb_spec maxlen (length (d ++ [g]))) as [Hlt | Hge].
  - destruct d as [|a d]; cbn in *; [lia|].
    rewrite length_app in *. cbn in *. lia.
  - exact Hge.
Qed.

Lemma deque_append_nonempty (maxlen : nat) (d : list string) (g : string) :
  0 < maxlen -> deque_append maxlen d g <> [].
Proof.
  intro H. unfold deque_append.
  destruct (Nat.ltb_spec maxlen (length (d ++ [g]))) as [Hlt | Hge].
  - rewrite length_app in Hlt. cbn in Hlt.
    destruct d as [|a [|b d]]; cbn in *; try lia; discriminate.
  - destruct d; discriminate.
Qed.

(** ** The vote over a window *)

Lemma smoothing_vote_defined (maxlen : nat) (w : list string) :
  w <> [] ->
  exists most_common count,
    In (most_common, count) (Counter w) /\
    smoothing_vote maxlen w =
      Some (most_common, count,
            negb (most_common =? "UNKNOWN")%string && (count =? maxlen)).
Proof.
  intro Hw. apply Counter_nonempty in Hw.
  unfold smoothing_vote, most_common_1.
  destruct (Counter w) as [|e c] eqn:Ec; [congruence|].
  pose proof (max_by_count_In e c) as Hin.
  destruct (max_by_count e c) as [mc cnt].
  exists mc, cnt. split; [exact Hin | reflexivity].
Qed.

Lemma smoothing_vote_stable (maxlen : nat) (w : list string)
    (most_common : string) (count : nat) :
  length w <= maxlen ->
  smoothing_vote maxlen w = Some (most_common, count, true) ->
  w = repeat most_common maxlen /\ most_common <> "UNKNOWN" /\ count = maxlen.
Proof.
  intros Hlen Hvote.
  destruct w as [|a w'] eqn:Ew; [discriminate Hvote|]. rewrite <- Ew in *.
  destruct (smoothing_vote_defined maxlen w) as (mc & cnt & Hin & E);
    [rewrite Ew; discriminate|].
  rewrite E in Hvote. injection Hvote as -> -> Hst.
  apply andb_true_iff in Hst. destruct Hst as [Hunk Hcnt].
  apply Nat.eqb_eq in Hcnt. apply negb_true_iff in Hunk.
  apply String.eqb_neq in Hunk.
  pose proof (count_in_entry _ _ _ (NoDup_keys_Counter w) Hin) as Hc.
  rewrite count_in_Counter in Hc.
  pose proof (count_occ_bound string_dec most_common w) as Hb.
  assert (Hfull : count_occ string_dec w most_common = length w) by lia.
  apply count_occ_unique in Hfull.
  split; [|split; assumption].
  rewrite Hfull. f_equal. lia.
Qed.

Lemma smoothing_vote_repeat (maxlen : nat) (g : string) :
  0 < maxlen -> g <> "UNKNOWN" ->
  smoothing_vote maxlen (repeat g maxlen) = Some (g, maxlen, true).
Proof.
  intros Hpos Hg. destruct maxlen as [|n]; [lia|].
  unfold smoothing_vote. rewrite Counter_repeat. cbn.
  apply String.eqb_neq in Hg. rewrite Hg, Nat.eqb_refl. reflexivity.
Qed.

(** C1. After the append, the vote of lines 184-185 is defined, and it has
    [stable] true with [most_common = g] exactly when the window holds
    SMOOTHING_FRAMES entries, each of them [g], and [g] is not UNKNOWN.
    The window before the append is any content of the deque, hence of
    length at most its capacity. *)
Theorem stable_iff_unanimous (window : list string) (gesture : string) :
  length window <= SMOOTHING_FRAMES ->
  exists most_common count stable,
    smoothing_vote SMOOTHING_FRAMES
                   (deque_append SMOOTHING_FRAMES window gesture)
      = Some (most_common, count, stable) /\
    forall g : string,
      (stable = true /\ most_common = g) <->
      (length (deque_append SMOOTHING_FRAMES window gesture) = SMOOTHING_FRAMES /\
       Forall (fun e => e = g) (deque_append SMOOTHING_FRAMES window gesture) /\
       g <> "UNKNOWN").
Proof.
  intro Hlen.
  pose proof (deque_append_length _ _ gesture Hlen) as Hlen'.
  assert (Hne : deque_append SMOOTHING_FRAMES window gesture <> [])
    by (apply deque_append_nonempty; unfold SMOOTHING_FRAMES; lia).
  set (w := deque_append SMOOTHING_FRAMES window gesture) in *.
  destruct (smoothing_vote_defined SMOOTHING_FRAMES w Hne) as (mc & cnt & _ & E).
  exists mc, cnt, (negb (mc =? "UNKNOWN")%string && (cnt =? SMOOTHING_FRAMES)).
  split; [exact E|].
  intro g. split.
  - intros [Hst <-]. rewrite Hst in E.
    destruct (smoothing_vote_stable _ _ _ _ Hlen' E) as (Hw & Hunk & _).
    split; [|split].
    + rewrite Hw. apply repeat_length.
    + rewrite Hw. apply Forall_forall. intros e He.
      apply repeat_spec in He. exact He.
    + exact Hunk.
  - intros (Hfull & Hall & Hunk).
    assert (Hw : w = repeat g SMOOTHING_FRAMES).
    { rewrite <- Hfull. apply Forall_eq_repeat.
      eapply Forall_impl; [|exact Hall]. intros e He. symmetry. exact He. }
    rewrite Hw, smoothing_vote_repeat in E;
      [|unfold SMOOTHING_FRAMES; lia | exact Hunk].
    injection E as <- <-. apply String.eqb_neq in Hunk.
    rewrite Hunk, Nat.eqb_refl. split; reflexivity.
Qed.

Lemma stable_iff_unanimous_witness :
  length (repeat "FIST" 5) <= SMOOTHING_FRAMES /\
  exists most_common count stable,
    smoothing_vote SMOOTHING_FRAMES
                   (deque_append SMOOTHING_FRAMES (repeat "FIST" 5) "FIST")
      = Some (most_common, count, stable) /\
    forall g : string,
      (stable = true /\ most_common = g) <->
      (length (deque_append SMOOTHING_FRAMES (repeat "FIST" 5) "FIST")
         = SMOOTHING_FRAMES /\
       Forall (fun e => e = g)
              (deque_append SMOOTHING_FRAMES (repeat "FIST" 5) "FIST") /\
       g <> "UNKNOWN").
Proof.
  split.
  - vm_compute. lia.
  - apply (stable_iff_unanimous (repeat "FIST" 5) "FIST"). vm_compute. lia.
Defined.

(** ** The action table *)

Lemma perform_action_named (media_key_ok : string -> bool) (g : string) :
  snd (perform_action_for_gesture media_key_ok g) <> None <-> In g NAMED_GESTURES.
Proof.
  unfold perform_action_for_gesture, NAMED_GESTURES. cbn [In].
  destruct (String.eqb_spec g "OPEN_PALM") as [-> | H1];
    [cbn; split; [tauto | discriminate]|].
  destruct (String.eqb_spec g "FIST") as [-> | H2];
    [cbn; split; [tauto | discriminate]|].
  destruct (String.eqb_spec g "POINT") as [-> | H3];
    [cbn; split; [tauto | discriminate]|].
  destruct (String.eqb_spec g "THUMB_UP") as [-> | H4];
    [cbn; split; [tauto | discriminate]|].
  cbn. split; [congruence|].
  intros [E | [E | [E | [E | []]]]]; congruence.
Qed.

Lemma perform_action_truthy (media_key_ok : string -> bool) (g desc : string) :
  truthy (snd (perform_action_for_gesture media_key_ok g)) = Some desc ->
  In g NAMED_GESTURES.
Proof.
  intro H. apply (perform_action_named media_key_ok).
  destruct (snd (perform_action_for_gesture media_key_ok g)); [discriminate | discriminate H].
Qed.

Lemma detect_gesture_label (fingers : list Z) (g : string) :
  detect_gesture fingers = Some g -> In g GESTURES.
Proof.
  unfold detect_gesture, GESTURES.
  destruct fingers as [|a [|b [|c [|d [|e [|? ?]]]]]]; try discriminate.
  repeat match goal with
         | |- context [if ?b then _ else _] => destruct b
         end; intro H; injection H as <-; cbn; tauto.
Qed.

(** ** One iteration of the loop *)

Section Step.

Variable media_key_ok : string -> bool.

(** What an iteration with a seen hand can do: leave the dispatch state
    alone, or fire under the three conditions of lines 188-192. *)
Lemma hand_branch_inv (st : loop_state) (g : string) (t : Q)
    (st' : loop_state) (out : option dispatch) :
  hand_branch media_key_ok st g t = Some (st', out) ->
  gesture_history st' = deque_append SMOOTHING_FRAMES (gesture_history st) g /\
  ((out = None /\
    last_action_time st' = last_action_time st /\
    last_triggered st' = last_triggered st) \/
   (exists most_common count desc,
      smoothing_vote SMOOTHING_FRAMES (gesture_history st')
        = Some (most_common, count, true) /\
      cooldown_elapsed t (last_action_time st) = true /\
      differs_from most_common (last_triggered st) = true /\
      truthy (snd (perform_action_for_gesture media_key_ok most_common))
        = Some desc /\
      out = Some (mk_dispatch t most_common desc
                    (fst (perform_action_for_gesture media_key_ok most_common))) /\
      last_action_time st' = t /\
      last_triggered st' = Some most_common)).
Proof.
  unfold hand_branch.
  destruct (smoothing_vote SMOOTHING_FRAMES
              (deque_append SMOOTHING_FRAMES (gesture_history st) g))
    as [[[mc cnt] stable]|] eqn:Ev; cbn [bind]; [|discriminate].
  destruct stable; cbn [andb];
    [|intro H; injection H as <- <-; cbn; auto].
  destruct (cooldown_elapsed t (last_action_time st)) eqn:Ec;
    [|intro H; injection H as <- <-; cbn; auto].
  destruct (differs_from mc (last_triggered st)) eqn:Ed;
    [|intro H; injection H as <- <-; cbn; auto].
  destruct (perform_action_for_gesture media_key_ok mc) as [calls desc] eqn:Ep.
  destruct (truthy desc) as [d|] eqn:Et;
    intro H; injection H as <- <-; cbn; [|auto].
  split; [reflexivity|]. right. exists mc, cnt, d.
  rewrite Ep. cbn [fst snd]. repeat split; assumption.
Qed.

Lemma frame_step_inv (st : loop_state) (f : frame_input)
    (st' : loop_state) (out : option dispatch) :
  frame_step media_key_ok st f = Some (st', out) ->
  (results f = NoHand /\ st' = no_hand_branch st /\ out = None) \/
  (exists lm label g,
     results f = Hand lm label /\ gesture_of lm label = Some g /\
     hand_branch media_key_ok st g (now f) = Some (st', out)).
Proof.
  unfold frame_step, gesture_of.
  destruct (results f) as [|lm label].
  - intro H. injection H as <- <-. left. auto.
  - intro H. right.
    destruct (fingers_up lm label) as [fingers|] eqn:Ef; cbn [bind] in *;
      [|discriminate].
    destruct (detect_gesture fingers) as [g|] eqn:Eg; cbn [bind] in *;
      [|discriminate].
    exists lm, label, g. rewrite Ef. cbn [bind]. auto.
Qed.

Lemma gesture_of_label (lm : list Landmark.t) (label g : string) :
  gesture_of lm label = Some g -> In g GESTURES.
Proof.
  unfold gesture_of. destruct (fingers_up lm label) as [v|]; cbn [bind];
    [apply detect_gesture_label | discriminate].
Qed.

(** Every iteration appends one of the five labels, and either leaves
    the dispatch state alone or fires. *)
Lemma frame_step_effect (st : loop_state) (f : frame_input)
    (st' : loop_state) (out : option dispatch) :
  frame_step media_key_ok st f = Some (st', out) ->
  (exists g, In g GESTURES /\
             (results f = NoHand -> g = "UNKNOWN") /\
             gesture_history st' =
               deque_append SMOOTHING_FRAMES (gesture_history st) g) /\
  ((out = None /\
    last_action_time st' = last_action_time st /\
    last_triggered st' = last_triggered st) \/
   (results f <> NoHand /\
    exists most_common count desc,
      smoothing_vote SMOOTHING_FRAMES (gesture_history st')
        = Some (most_common, count, true) /\
      cooldown_elapsed (now f) (last_action_time st) = true /\
      differs_from most_common (last_triggered st) = true /\
      truthy (snd (perform_action_for_gesture media_key_ok most_common))
        = Some desc /\
      out = Some (mk_dispatch (now f) most_common desc
                    (fst (perform_action_for_gesture media_key_ok most_common))) /\
      last_action_time st' = now f /\
      last_triggered st' = Some most_common)).
Proof.
  intro H. apply frame_step_inv in H.
  destruct H as [(Hr & -> & ->) | (lm & label & g & Hr & Hg & Hb)].
  - split.
    + exists "UNKNOWN". split; [cbn; tauto|]. split; reflexivity.
    + left. auto.
  - apply hand_branch_inv in Hb. destruct Hb as [Hh Hd]. split.
    + exists g. split; [eapply gesture_of_label; eassumption|].
      split; [congruence | exact Hh].
    + destruct Hd as [Hq | Hfire]; [left; exact Hq|].
      right. split; [congruence | exact Hfire].
Qed.

End Step.

(** ** Runs of the loop *)

Section Runs.

Variable media_key_ok : string -> bool.

Lemma run_cons (st : loop_state) (f : frame_input) (rest : list frame_input) :
  run media_key_ok st (f :: rest) =
  match frame_step media_key_ok st f with
  | None => ([], None)
  | Some (st', out) =>
      (match out with
       | Some d => d :: fst (run media_key_ok st' rest)
       | None => fst (run media_key_ok st' rest)
       end,
       snd (run media_key_ok st' rest))
  end.
Proof.
  cbn [run]. destruct (frame_step media_key_ok st f) as [[st' out]|]; [|reflexivity].
  destruct (run media_key_ok st' rest). reflexivity.
Qed.

(** A property every iteration preserves holds at the end of a run. *)
Lemma run_preserves (P : loop_state -> Prop) :
  (forall st f st' out,
      frame_step media_key_ok st f = Some (st', out) -> P st -> P st') ->
  forall frames st fired st',
    run media_key_ok st frames = (fired, Some st') -> P st -> P st'.
Proof.
  intros Hstep. induction frames as [|f rest IH]; intros st fired st' Hrun HP.
  - cbn in Hrun. injection Hrun as _ <-. exact HP.
  - rewrite run_cons in Hrun.
    destruct (frame_step media_key_ok st f) as [[st1 out]|] eqn:Ef;
      [|discriminate Hrun].
    injection Hrun as _ Hfinal.
    apply (IH st1 (fst (run media_key_ok st1 rest)) st').
    + rewrite <- Hfinal. apply surjective_pairing.
    + eapply Hstep; eassumption.
Qed.

(** Each dispatch of a run comes more than the cooldown after the
    [last_action_time] the run started with, and after every dispatch
    before it. *)
Lemma run_cooldown (frames : list frame_input) (st : loop_state) :
  ForallOrdPairs
    (fun d1 d2 => (ACTION_COOLDOWN < fire_time d2 - fire_time d1)%Q)
    (fst (run media_key_ok st frames)) /\
  Forall (fun d => (ACTION_COOLDOWN < fire_time d - last_action_time st)%Q)
         (fst (run media_key_ok st frames)).
Proof.
  revert st. induction frames as [|f rest IH]; intro st.
  - cbn. split; constructor.
  - rewrite run_cons.
    destruct (frame_step media_key_ok st f) as [[st1 out]|] eqn:Ef;
      [|cbn; split; constructor].
    destruct (IH st1) as [Hpairs Hall].
    apply frame_step_effect in Ef. destruct Ef as [_ [Hq | [_ Hfire]]].
    + destruct Hq as (-> & Ht & _). cbn [fst]. rewrite <- Ht. split; assumption.
    + destruct Hfire as (mc & cnt & desc & _ & Hc & _ & _ & -> & Ht & _).
      cbn [fst]. apply cooldown_elapsed_gt in Hc.
      rewrite Ht in Hall. split.
      * constructor; [|exact Hpairs]. exact Hall.
      * constructor; [exact Hc|].
        eapply Forall_impl; [|exact Hall]. cbn beta. intros d Hd.
        unfold ACTION_COOLDOWN in *. lra.
Qed.

(** No dispatch of a run repeats the gesture of the dispatch before it,
    nor the first one the gesture the run started with. *)
Lemma run_alternating (frames : list frame_input) (st : loop_state) :
  alternating (last_triggered st)
              (map fire_gesture (fst (run media_key_ok st frames))).
Proof.
  revert st. induction frames as [|f rest IH]; intro st.
  - exact I.
  - rewrite run_cons.
    destruct (frame_step media_key_ok st f) as [[st1 out]|] eqn:Ef; [|exact I].
    specialize (IH st1).
    apply frame_step_effect in Ef. destruct Ef as [_ [Hq | [_ Hfire]]].
    + destruct Hq as (-> & _ & Hl). cbn [fst]. rewrite <- Hl. exact IH.
    + destruct Hfire as (mc & cnt & desc & _ & _ & Hd & _ & -> & _ & Hl).
      cbn [fst map fire_gesture alternating]. rewrite Hl in IH.
      split; [|exact IH].
      intro E. rewrite E in Hd. cbn in Hd. rewrite String.eqb_refl in Hd.
      discriminate Hd.
Qed.

End Runs.

Lemma ordered_pairs_nth {A : Type} (R : A -> A -> Prop) (l : list A) :
  ForallOrdPairs R l ->
  forall i j a b,
    i < j -> nth_error l i = Some a -> nth_error l j = Some b -> R a b.
Proof.
  induction 1 as [|x l Hx Hl IH]; intros i j a b Hij Ha Hb.
  - destruct i; discriminate Ha.
  - destruct j as [|j]; [lia|]. cbn in Hb. destruct i as [|i]; cbn in Ha.
    + injection Ha as <-. rewrite Forall_forall in Hx.
      apply Hx. eapply nth_error_In. exact Hb.
    + apply (IH i j); [lia | assumption | assumption].
Qed.

Lemma alternating_app (prev : option string) (l1 l2 : list string) :
  alternating prev (l1 ++ l2) ->
  alternating (match rev l1 with g :: _ => Some g | [] => prev end) l2.
Proof.
  revert prev. induction l1 as [|g l1 IH]; intros prev H.
  - exact H.
  - cbn in H. destruct H as [_ H]. apply IH in H.
    cbn [rev]. destruct (rev l1) as [|h t]; exact H.
Qed.

Lemma alternating_between (prev : option string) (l1 l2 l3 : list string) (g : string) :
  alternating prev (l1 ++ g :: l2 ++ g :: l3) ->
  exists h, In h l2 /\ h <> g.
Proof.
  intro H. apply alternating_app in H. cbn in H. destruct H as [_ H].
  destruct l2 as [|h l2]; cbn in H; destruct H as [Hne _].
  - congruence.
  - exists h. split; [now left | congruence].
Qed.

(** ** Window and dispatch-state invariants *)

Lemma deque_append_labels (maxlen : nat) (d : list string) (g : string) :
  Forall (fun e => In e GESTURES) d -> In g GESTURES ->
  Forall (fun e => In e GESTURES) (deque_append maxlen d g).
Proof.
  intros Hd Hg.
  assert (H : Forall (fun e => In e GESTURES) (d ++ [g]))
    by (apply Forall_app; split; [exact Hd | constructor; [exact Hg | constructor]]).
  unfold deque_append. destruct (maxlen <? length (d ++ [g])); [|exact H].
  destruct (d ++ [g]) as [|a w]; cbn [tl]; [constructor|].
  inversion H; assumption.
Qed.

Lemma named_is_known (g : string) : In g NAMED_GESTURES -> g <> "UNKNOWN".
Proof. cbn. intros [<- | [<- | [<- | [<- | []]]]]; discriminate. Qed.

(** C8. The initial window fits and holds labels; every iteration keeps
    the window within SMOOTHING_FRAMES entries, each one of OPEN_PALM,
    FIST, THUMB_UP, POINT, UNKNOWN; a frame without a hand appends the
    label UNKNOWN; hence the window of every state a run ends in fits and
    holds only those five labels. *)
Theorem window_invariant (media_key_ok : string -> bool) :
  window_ok initial_state /\
  (forall st f st' out,
      frame_step media_key_ok st f = Some (st', out) ->
      window_ok st -> window_ok st') /\
  (forall st f st' out,
      frame_step media_key_ok st f = Some (st', out) ->
      results f = NoHand ->
      gesture_history st' =
        deque_append SMOOTHING_FRAMES (gesture_history st) "UNKNOWN") /\
  (forall frames fired st,
      run media_key_ok initial_state frames = (fired, Some st) ->
      window_ok st).
Proof.
  assert (Hinit : window_ok initial_state)
    by (split; [cbn; lia | constructor]).
  assert (Hstep : forall st f st' out,
             frame_step media_key_ok st f = Some (st', out) ->
             window_ok st -> window_ok st').
  { intros st f st' out Hf [Hlen Hall].
    apply frame_step_effect in Hf. destruct Hf as [(g & Hg & _ & Hh) _].
    unfold window_ok. rewrite Hh. split.
    - apply deque_append_length. exact Hlen.
    - apply deque_append_labels; assumption. }
  split; [exact Hinit|]. split; [exact Hstep|]. split.
  - intros st f st' out Hf Hr.
    apply frame_step_effect in Hf. destruct Hf as [(g & _ & Hu & Hh) _].
    rewrite Hh, (Hu Hr). reflexivity.
  - intros frames fired st Hrun.
    exact (run_preserves media_key_ok window_ok Hstep frames _ _ _ Hrun Hinit).
Qed.

(** C9. When an iteration does not meet the dispatch condition (no hand,
    or a window that is not stable, or a cooldown that has not elapsed, or
    a stable gesture equal to [last_triggered]), it dispatches nothing and
    leaves [last_action_time] and [last_triggered] as they were. *)
Theorem suppressed_frame_keeps_dispatch_state
    (media_key_ok : string -> bool) (st : loop_state) (f : frame_input)
    (st' : loop_state) (out : option dispatch) :
  frame_step media_key_ok st f = Some (st', out) ->
  (results f = NoHand \/
   exists most_common count stable,
     smoothing_vote SMOOTHING_FRAMES (gesture_history st')
       = Some (most_common, count, stable) /\
     (stable = false \/
      (now f - last_action_time st <= ACTION_COOLDOWN)%Q \/
      last_triggered st = Some most_common)) ->
  last_action_time st' = last_action_time st /\
  last_triggered st' = last_triggered st /\
  out = None.
Proof.
  intros Hf Hcond. apply frame_step_effect in Hf.
  destruct Hf as [_ [(-> & Ht & Hl) | [Hhand Hfire]]]; [auto|].
  exfalso.
  destruct Hfire as (mc & cnt & desc & Hv & Hc & Hd & _).
  destruct Hcond as [Hr | (mc' & cnt' & stable & Hv' & Hcases)]; [contradiction|].
  rewrite Hv in Hv'. injection Hv' as <- <- <-.
  destruct Hcases as [Hs | [Hle | Hsame]].
  - discriminate Hs.
  - apply cooldown_elapsed_gt in Hc.
    exact (Qlt_not_le _ _ Hc Hle).
  - rewrite Hsame in Hd. cbn in Hd. rewrite String.eqb_refl in Hd. discriminate Hd.
Qed.

Lemma suppressed_frame_keeps_dispatch_state_witness :
  let st := mk_state (repeat "OPEN_PALM" 6) 10 (Some "OPEN_PALM") in
  let f := mk_frame (Hand (sample_hand true true true true true) "Right") 100 in
  let st' := mk_state (repeat "OPEN_PALM" 6) 10 (Some "OPEN_PALM") in
  frame_step (fun _ => true) st f = Some (st', None) /\
  last_action_time st' = last_action_time st /\
  last_triggered st' = last_triggered st /\
  @None dispatch = None.
Proof.
  intros st f st'.
  assert (Hf : frame_step (fun _ => true) st f = Some (st', None))
    by (vm_compute; reflexivity).
  split; [exact Hf|].
  apply (suppressed_frame_keeps_dispatch_state (fun _ => true) st f st' None Hf).
  right. exists "OPEN_PALM", 6, true. split; [vm_compute; reflexivity|].
  right. right. reflexivity.
Defined.

(** C10. [perform_action_for_gesture] returns a description exactly for
    OPEN_PALM, FIST, THUMB_UP and POINT; [last_triggered] starts unset;
    an iteration changes the dispatch state only to a gesture for which a
    description came back; every iteration keeps [last_triggered] unset or
    one of those four, and never unsets it; so in every state a run reaches it is unset or one of the four,
    never UNKNOWN, and a run that starts with it set ends with it set. *)
Theorem last_triggered_invariant (media_key_ok : string -> bool) :
  (forall g, snd (perform_action_for_gesture media_key_ok g) <> None <->
             In g NAMED_GESTURES) /\
  last_triggered initial_state = None /\
  (forall st f st' out,
      frame_step media_key_ok st f = Some (st', out) ->
      (last_action_time st' = last_action_time st /\
       last_triggered st' = last_triggered st) \/
      (exists g desc,
          snd (perform_action_for_gesture media_key_ok g) = Some desc /\
          last_triggered st' = Some g)) /\
  (forall st f st' out,
      frame_step media_key_ok st f = Some (st', out) ->
      (named_or_unset (last_triggered st) ->
       named_or_unset (last_triggered st')) /\
      (last_triggered st <> None -> last_triggered st' <> None)) /\
  (forall frames fired st,
      run media_key_ok initial_state frames = (fired, Some st) ->
      named_or_unset (last_triggered st) /\
      last_triggered st <> Some "UNKNOWN") /\
  (forall frames st fired st',
      run media_key_ok st frames = (fired, Some st') ->
      last_triggered st <> None -> last_triggered st' <> None).
Proof.
  assert (Hstep : forall st f st' out,
             frame_step media_key_ok st f = Some (st', out) ->
             (named_or_unset (last_triggered st) ->
              named_or_unset (last_triggered st')) /\
             (last_triggered st <> None -> last_triggered st' <> None)).
  { intros st f st' out Hf. apply frame_step_effect in Hf.
    destruct Hf as [_ [(_ & _ & Hl) | [_ Hfire]]].
    - rewrite Hl. split; auto.
    - destruct Hfire as (mc & cnt & desc & _ & _ & _ & Hp & _ & _ & Hl).
      rewrite Hl. split; [|discriminate].
      intros _. cbn. eapply perform_action_truthy. exact Hp. }
  split; [exact (perform_action_named media_key_ok)|].
  split; [reflexivity|]. split.
  { intros st f st' out Hf. apply frame_step_effect in Hf.
    destruct Hf as [_ [(_ & Ht & Hl) | [_ Hfire]]]; [left; auto|].
    destruct Hfire as (mc & cnt & desc & _ & _ & _ & Hp & _ & _ & Hl).
    right. exists mc.
    destruct (snd (perform_action_for_gesture media_key_ok mc)) as [d|];
      [|discriminate Hp].
    exists d. auto. }
  split; [exact Hstep|]. split.
  - intros frames fired st Hrun.
    assert (Hn : named_or_unset (last_triggered st)).
    { apply (run_preserves media_key_ok
               (fun s => named_or_unset (last_triggered s))
               (fun s f s' o Hf => proj1 (Hstep s f s' o Hf)) frames _ _ _ Hrun).
      exact I. }
    split; [exact Hn|].
    intro E. rewrite E in Hn. cbn in Hn. apply named_is_known in Hn. congruence.
  - intros frames st fired st' Hrun.
    exact (run_preserves media_key_ok
             (fun s => last_triggered s <> None)
             (fun s f s' o Hf => proj2 (Hstep s f s' o Hf)) frames _ _ _ Hrun).
Qed.

(** C2. In every run of the loop, from any state, a dispatch comes more
    than ACTION_COOLDOWN (0.8 s) after every dispatch before it: the
    difference of their timestamps is strictly above the cooldown.  The
    timestamps need not even be monotone for this. *)
Theorem dispatches_respect_cooldown
    (media_key_ok : string -> bool) (st : loop_state)
    (frames : list frame_input) (i j : nat) (d1 d2 : dispatch) :
  i < j ->
  nth_error (fst (run media_key_ok st frames)) i = Some d1 ->
  nth_error (fst (run media_key_ok st frames)) j = Some d2 ->
  (ACTION_COOLDOWN < fire_time d2 - fire_time d1)%Q.
Proof.
  intros Hij H1 H2.
  destruct (run_cooldown media_key_ok frames st) as [Hpairs _].
  exact (ordered_pairs_nth _ _ Hpairs i j d1 d2 Hij H1 H2).
Qed.

Lemma dispatches_respect_cooldown_witness :
  let frames :=
    frames_of open_palm_hand "Right" [1; 2; 3; 4; 5; 6]%Q ++
    frames_of fist_hand "Right" [7; 8; 9; 10; 11; 12]%Q in
  let d1 := mk_dispatch 6 "OPEN_PALM" "Play/Pause" [PressMediaKey "media_play_pause"] in
  let d2 := mk_dispatch 12 "FIST" "Previous Track" [PressMediaKey "media_previous"] in
  0 < 1 /\
  nth_error (fst (run (fun _ => true) initial_state frames)) 0 = Some d1 /\
  nth_error (fst (run (fun _ => true) initial_state frames)) 1 = Some d2 /\
  (ACTION_COOLDOWN < fire_time d2 - fire_time d1)%Q.
Proof.
  intros frames d1 d2.
  assert (H1 : nth_error (fst (run (fun _ => true) initial_state frames)) 0 = Some d1)
    by (vm_compute; reflexivity).
  assert (H2 : nth_error (fst (run (fun _ => true) initial_state frames)) 1 = Some d2)
    by (vm_compute; reflexivity).
  split; [lia|]. split; [exact H1|]. split; [exact H2|].
  apply (dispatches_respect_cooldown (fun _ => true) initial_state frames 0 1 d1 d2);
    [lia | exact H1 | exact H2].
Defined.

(** ** Stepping through frames of a known gesture *)

Section Stepping.

Variable media_key_ok : string -> bool.

Lemma frame_step_hand (st : loop_state) (lm : list Landmark.t)
    (label g : string) (t : Q) :
  gesture_of lm label = Some g ->
  frame_step media_key_ok st (mk_frame (Hand lm label) t)
  = hand_branch media_key_ok st g t.
Proof.
  unfold frame_step, gesture_of. cbn [results now].
  destruct (fingers_up lm label) as [v|]; cbn [bind]; [|discriminate].
  intros ->. reflexivity.
Qed.

Lemma hand_branch_unstable (w : list string) (lat : Q) (lt : option string)
    (g : string) (t : Q) (w' : list string) (mc : string) (cnt : nat) :
  deque_append SMOOTHING_FRAMES w g = w' ->
  smoothing_vote SMOOTHING_FRAMES w' = Some (mc, cnt, false) ->
  hand_branch media_key_ok (mk_state w lat lt) g t = Some (mk_state w' lat lt, None).
Proof.
  intros Hw Hv. unfold hand_branch. cbn [gesture_history last_action_time last_triggered].
  rewrite Hw, Hv. reflexivity.
Qed.

Lemma hand_branch_same (w : list string) (lat : Q) (g : string) (t : Q)
    (w' : list string) (mc : string) (cnt : nat) :
  deque_append SMOOTHING_FRAMES w g = w' ->
  smoothing_vote SMOOTHING_FRAMES w' = Some (mc, cnt, true) ->
  hand_branch media_key_ok (mk_state w lat (Some mc)) g t
  = Some (mk_state w' lat (Some mc), None).
Proof.
  intros Hw Hv. unfold hand_branch. cbn [gesture_history last_action_time last_triggered].
  rewrite Hw, Hv. cbn [bind andb differs_from]. rewrite String.eqb_refl. cbn [negb].
  destruct (cooldown_elapsed t lat); reflexivity.
Qed.

Lemma hand_branch_fire (w : list string) (lat : Q) (lt : option string)
    (g : string) (t : Q) (w' : list string) (mc : string) (cnt : nat)
    (calls : list executor_call) (desc : string) :
  deque_append SMOOTHING_FRAMES w g = w' ->
  smoothing_vote SMOOTHING_FRAMES w' = Some (mc, cnt, true) ->
  differs_from mc lt = true ->
  perform_action_for_gesture media_key_ok mc = (calls, Some desc) ->
  desc <> EmptyString ->
  cooldown_elapsed t lat = true ->
  hand_branch media_key_ok (mk_state w lat lt) g t
  = Some (mk_state w' t (Some mc), Some (mk_dispatch t mc desc calls)).
Proof.
  intros Hw Hv Hd Hp Hdesc Hc. unfold hand_branch.
  cbn [gesture_history last_action_time last_triggered].
  rewrite Hw, Hv. cbn [bind andb]. rewrite Hc, Hd, Hp.
  destruct desc; [congruence | reflexivity].
Qed.

End Stepping.

Lemma run_step_quiet (media_key_ok : string -> bool) (st st' : loop_state)
    (f : frame_input) (rest : list frame_input) :
  frame_step media_key_ok st f = Some (st', None) ->
  run media_key_ok st (f :: rest) = run media_key_ok st' rest.
Proof.
  intro H. cbn [run]. rewrite H. destruct (run media_key_ok st' rest). reflexivity.
Qed.

Lemma run_step_last (media_key_ok : string -> bool) (st st' : loop_state)
    (f : frame_input) (out : option dispatch) :
  frame_step media_key_ok st f = Some (st', out) ->
  run media_key_ok st [f]
  = (match out with Some d => [d] | None => [] end, Some st').
Proof. intro H. cbn [run]. rewrite H. reflexivity. Qed.

(** One quiet frame of a hand classified by [Hg], on a concrete window. *)
Ltac quiet_frame Hg :=
  erewrite run_step_quiet;
  [ | rewrite (frame_step_hand _ _ _ _ _ _ Hg);
      first [ eapply hand_branch_unstable; vm_compute; reflexivity
            | eapply hand_branch_same; vm_compute; reflexivity ] ].

(** The last frame of a block, firing because the cooldown [Hc] elapsed. *)
Ltac fire_frame Hg Hc :=
  erewrite run_step_last;
  [ | rewrite (frame_step_hand _ _ _ _ _ _ Hg);
      eapply hand_branch_fire;
      [ vm_compute; reflexivity | vm_compute; reflexivity | reflexivity
      | reflexivity | discriminate | exact Hc ] ].

(** C3. Re-fire suppression.  In every run, from any state: between two
    dispatches of the same gesture G there is a dispatch of a gesture
    other than G, whatever happens to the window and the clock in between.
    And the scenario, for any hands classified OPEN_PALM and FIST and any
    clock for which the cooldown test of line 188 passes at the sixth frame
    of the first, third and fourth block: six OPEN_PALM frames fire Play/Pause at
    the sixth, six more OPEN_PALM frames fire nothing, six FIST frames fire
    Previous Track at the sixth, six more OPEN_PALM frames fire Play/Pause
    again at the sixth. *)
Theorem no_refire_until_other_gesture (media_key_ok : string -> bool) :
  (forall st frames l1 d1 l2 d2 l3,
      fst (run media_key_ok st frames) = l1 ++ d1 :: l2 ++ d2 :: l3 ->
      fire_gesture d1 = fire_gesture d2 ->
      exists d, In d l2 /\ fire_gesture d <> fire_gesture d1) /\
  (forall st frames d fired,
      fst (run media_key_ok st frames) = d :: fired ->
      last_triggered st <> Some (fire_gesture d)) /\
  (forall palm palm_label fist fist_label
          (t1 t2 t3 t4 t5 a : Q) (b1 b2 b3 b4 b5 b6 : Q)
          (u1 u2 u3 u4 u5 c : Q) (v1 v2 v3 v4 v5 d : Q),
      gesture_of palm palm_label = Some "OPEN_PALM" ->
      gesture_of fist fist_label = Some "FIST" ->
      cooldown_elapsed a 0 = true ->
      cooldown_elapsed c a = true ->
      cooldown_elapsed d c = true ->
      let calls g := fst (perform_action_for_gesture media_key_ok g) in
      let held g t := mk_state (repeat g 6) t (Some g) in
      run media_key_ok initial_state
          (frames_of palm palm_label [t1; t2; t3; t4; t5; a])
      = ([mk_dispatch a "OPEN_PALM" "Play/Pause" (calls "OPEN_PALM")],
         Some (held "OPEN_PALM" a)) /\
      run media_key_ok (held "OPEN_PALM" a)
          (frames_of palm palm_label [b1; b2; b3; b4; b5; b6])
      = ([], Some (held "OPEN_PALM" a)) /\
      run media_key_ok (held "OPEN_PALM" a)
          (frames_of fist fist_label [u1; u2; u3; u4; u5; c])
      = ([mk_dispatch c "FIST" "Previous Track" (calls "FIST")],
         Some (held "FIST" c)) /\
      run media_key_ok (held "FIST" c)
          (frames_of palm palm_label [v1; v2; v3; v4; v5; d])
      = ([mk_dispatch d "OPEN_PALM" "Play/Pause" (calls "OPEN_PALM")],
         Some (held "OPEN_PALM" d))).
Proof.
  split; [|split].
  - intros st frames l1 d1 l2 d2 l3 Hrun Hsame.
    pose proof (run_alternating media_key_ok frames st) as Halt.
    rewrite Hrun in Halt.
    rewrite map_app in Halt. cbn [map] in Halt. rewrite map_app in Halt.
    cbn [map] in Halt. rewrite <- Hsame in Halt.
    apply alternating_between in Halt. destruct Halt as (h & Hin & Hne).
    apply in_map_iff in Hin. destruct Hin as (d & <- & Hd).
    exists d. split; assumption.
  - intros st frames d fired Hrun.
    pose proof (run_alternating media_key_ok frames st) as Halt.
    rewrite Hrun in Halt. cbn in Halt. exact (proj1 Halt).
  - intros palm palm_label fist fist_label t1 t2 t3 t4 t5 a b1 b2 b3 b4 b5 b6
           u1 u2 u3 u4 u5 c v1 v2 v3 v4 v5 d Hp Hf Ha Hc Hd calls held.
    subst calls held. unfold initial_state, frames_of. cbn [map repeat].
    split; [|split; [|split]].
    + do 5 quiet_frame Hp. fire_frame Hp Ha. reflexivity.
    + do 6 quiet_frame Hp. reflexivity.
    + do 5 quiet_frame Hf. fire_frame Hf Hc. reflexivity.
    + do 5 quiet_frame Hp. fire_frame Hp Hd. reflexivity.
Qed.

(** ** The first dispatch *)

Lemma stable_label_is_named (window : list string) (g : string) (count : nat) :
  length window <= SMOOTHING_FRAMES ->
  Forall (fun e => In e GESTURES) window ->
  smoothing_vote SMOOTHING_FRAMES window = Some (g, count, true) ->
  In g NAMED_GESTURES.
Proof.
  intros Hlen Hall Hv. apply smoothing_vote_stable in Hv; [|exact Hlen].
  destruct Hv as (Hw & Hg & _).
  assert (Hin : In g GESTURES).
  { rewrite Forall_forall in Hall. apply Hall. rewrite Hw. cbn. now left. }
  cbn in Hin |- *. intuition congruence.
Qed.

(** C4, as the code has it.  [last_action_time] starts at 0, it is not
    unset: while nothing has fired ([last_action_time] 0, [last_triggered]
    unset), a frame that makes the window stable on a gesture (stable, so
    not UNKNOWN) dispatches its action when the clock reading [now], a
    double, is above ACTION_COOLDOWN, the double 0.8, and dispatches
    nothing when [now] is at most ACTION_COOLDOWN, the double 0.8 itself
    included; the unset [last_triggered] never stands in the way. *)
Theorem first_dispatch_iff_clock_past_cooldown
    (media_key_ok : string -> bool) (st : loop_state)
    (lm : list Landmark.t) (label gesture : string)
    (t : Q) (g : string) (count : nat) :
  last_action_time st = 0%Q ->
  last_triggered st = None ->
  window_ok st ->
  gesture_of lm label = Some gesture ->
  smoothing_vote SMOOTHING_FRAMES
                 (deque_append SMOOTHING_FRAMES (gesture_history st) gesture)
    = Some (g, count, true) ->
  (is_double t = true -> (ACTION_COOLDOWN < t)%Q ->
   exists desc,
     snd (perform_action_for_gesture media_key_ok g) = Some desc /\
     frame_step media_key_ok st (mk_frame (Hand lm label) t)
     = Some (mk_state (deque_append SMOOTHING_FRAMES (gesture_history st) gesture)
                      t (Some g),
             Some (mk_dispatch t g desc
                     (fst (perform_action_for_gesture media_key_ok g))))) /\
  ((t <= ACTION_COOLDOWN)%Q ->
   frame_step media_key_ok st (mk_frame (Hand lm label) t)
   = Some (mk_state (deque_append SMOOTHING_FRAMES (gesture_history st) gesture)
                    0 None,
           None)).
Proof.
  intros Hlat Hlt [Hlen Hall] Hgest Hv.
  assert (Hg : In g NAMED_GESTURES).
  { eapply stable_label_is_named; [| |exact Hv].
    - apply deque_append_length. exact Hlen.
    - apply deque_append_labels; [exact Hall|].
      eapply gesture_of_label. exact Hgest. }
  rewrite (frame_step_hand media_key_ok st lm label gesture t Hgest).
  destruct st as [w lat lt]. cbn in Hlat, Hlt, Hv |- *.
  subst lat lt. split.
  - intros Hdouble Ht.
    assert (Hp : exists desc,
               perform_action_for_gesture media_key_ok g
               = (fst (perform_action_for_gesture media_key_ok g), Some desc)
               /\ desc <> EmptyString).
    { cbn in Hg. destruct Hg as [<- | [<- | [<- | [<- | []]]]];
        eexists; (split; [reflexivity | discriminate]). }
    destruct Hp as (desc & Hp & Hdesc). exists desc. split.
    + rewrite Hp. reflexivity.
    + eapply hand_branch_fire; try eassumption; try reflexivity.
      apply cooldown_elapsed_first; assumption.
  - intro Ht. unfold hand_branch.
    cbn [gesture_history last_action_time last_triggered]. rewrite Hv.
    cbn [bind andb].
    assert (Hc : cooldown_elapsed t 0 = false)
      by (apply cooldown_not_elapsed; lra).
    rewrite Hc. reflexivity.
Qed.

Lemma first_dispatch_iff_clock_past_cooldown_witness :
  let st := mk_state (repeat "POINT" 5) 0 None in
  last_action_time st = 0%Q /\
  last_triggered st = None /\
  window_ok st /\
  gesture_of point_hand "Right" = Some "POINT" /\
  smoothing_vote SMOOTHING_FRAMES
                 (deque_append SMOOTHING_FRAMES (gesture_history st) "POINT")
    = Some ("POINT", 6, true) /\
  is_double 1 = true /\
  (ACTION_COOLDOWN < 1)%Q /\
  exists desc,
    snd (perform_action_for_gesture (fun _ => false) "POINT") = Some desc /\
    frame_step (fun _ => false) st (mk_frame (Hand point_hand "Right") 1)
    = Some (mk_state (deque_append SMOOTHING_FRAMES (gesture_history st) "POINT")
                     1 (Some "POINT"),
            Some (mk_dispatch 1 "POINT" desc
                    (fst (perform_action_for_gesture (fun _ => false) "POINT")))).
Proof.
  intro st.
  assert (H1 : last_action_time st = 0%Q) by reflexivity.
  assert (H2 : last_triggered st = None) by reflexivity.
  assert (H3 : window_ok st).
  { split; [vm_compute; lia|]. repeat constructor; cbn; tauto. }
  assert (H4 : gesture_of point_hand "Right" = Some "POINT")
    by (vm_compute; reflexivity).
  assert (H5 : smoothing_vote SMOOTHING_FRAMES
                 (deque_append SMOOTHING_FRAMES (gesture_history st) "POINT")
               = Some ("POINT", 6, true)) by (vm_compute; reflexivity).
  assert (H6 : is_double 1 = true) by (vm_compute; reflexivity).
  assert (H7 : (ACTION_COOLDOWN < 1)%Q) by (vm_compute; reflexivity).
  repeat (split; [assumption|]).
  exact (proj1 (first_dispatch_iff_clock_past_cooldown
                  (fun _ => false) st point_hand "Right" "POINT" 1 "POINT" 6
                  H1 H2 H3 H4 H5) H6 H7).
Defined.

(** C4, as stated, fails within the first 0.8 seconds after the epoch: six
    OPEN_PALM frames from the initial state, with the clock readings 0.125,
    0.25, 0.375, 0.5, 0.625 and 0.75, make the window stable on OPEN_PALM
    while nothing has fired, and nothing is dispatched; the same at the
    double 0.8 itself, where [0.8 - 0 > 0.8] is false.  So it is not the
    case that the frame that makes the window stable dispatches at every
    clock reading. *)
Lemma first_dispatch_not_for_every_clock :
  let clock := [1 # 8; 2 # 8; 3 # 8; 4 # 8; 5 # 8; 6 # 8]%Q in
  let frames := frames_of open_palm_hand "Right" clock in
  let five := mk_state (repeat "OPEN_PALM" 5) 0 None in
  let six := mk_state (repeat "OPEN_PALM" 6) 0 None in
  forallb is_double clock = true /\
  run (fun _ => true) initial_state frames = ([], Some six) /\
  smoothing_vote SMOOTHING_FRAMES (repeat "OPEN_PALM" 6)
  = Some ("OPEN_PALM", 6, true) /\
  is_double ACTION_COOLDOWN = true /\
  frame_step (fun _ => true) five
             (mk_frame (Hand open_palm_hand "Right") ACTION_COOLDOWN)
  = Some (six, None) /\
  ~ (forall t : Q,
        is_double t = true ->
        exists st' d,
          frame_step (fun _ => true) five
                     (mk_frame (Hand open_palm_hand "Right") t)
          = Some (st', Some d)).
Proof.
  intros clock frames five six.
  split; [vm_compute; reflexivity|].
  split; [vm_compute; reflexivity|].
  split; [vm_compute; reflexivity|].
  split; [vm_compute; reflexivity|].
  split; [vm_compute; reflexivity|].
  intro H. destruct (H (6 # 8) eq_refl) as (st' & d & E).
  vm_compute in E. discriminate E.
Qed.

(** ** The window as the last labels pushed *)

Lemma lastn_app_ge {A : Type} (n : nat) (l1 l2 : list A) :
  n <= length l2 -> lastn n (l1 ++ l2) = lastn n l2.
Proof.
  intro H. unfold lastn. rewrite length_app, skipn_app.
  rewrite skipn_all2 by lia. cbn [app]. f_equal. lia.
Qed.

Lemma lastn_app_le {A : Type} (n : nat) (l1 l2 : list A) :
  length l2 <= n -> lastn n (l1 ++ l2) = lastn (n - length l2) l1 ++ l2.
Proof.
  intro H. unfold lastn. rewrite length_app, skipn_app.
  replace (length l1 + length l2 - n - length l1) with 0 by lia.
  cbn [skipn]. f_equal. f_equal. lia.
Qed.

Lemma lastn_length {A : Type} (n : nat) (l : list A) :
  length (lastn n l) = Nat.min n (length l).
Proof. unfold lastn. rewrite length_skipn. lia. Qed.

Lemma lastn_all {A : Type} (n : nat) (l : list A) :
  length l <= n -> lastn n l = l.
Proof.
  intro H. unfold lastn. replace (length l - n) with 0 by lia. reflexivity.
Qed.

Lemma deque_append_lastn (maxlen : nat) (d : list string) (g : string) :
  length d <= maxlen -> deque_append maxlen d g = lastn maxlen (d ++ [g]).
Proof.
  intro H. unfold deque_append, lastn.
  destruct (Nat.ltb_spec maxlen (length (d ++ [g]))) as [Hlt | Hge].
  - rewrite length_app in *. cbn [length] in *.
    replace (length d + 1 - maxlen) with 1 by lia.
    destruct (d ++ [g]); reflexivity.
  - replace (length (d ++ [g]) - maxlen) with 0 by lia. reflexivity.
Qed.

Lemma push_all_lastn (labels window : list string) :
  length window <= SMOOTHING_FRAMES ->
  push_all window labels = lastn SMOOTHING_FRAMES (window ++ labels).
Proof.
  revert window. induction labels as [|y ys IH]; intros w Hw.
  - cbn. rewrite app_nil_r. symmetry. apply lastn_all. exact Hw.
  - cbn [push_all fold_left]. fold (push_all (deque_append SMOOTHING_FRAMES w y) ys).
    rewrite IH by (apply deque_append_length; exact Hw).
    rewrite deque_append_lastn by exact Hw.
    replace (w ++ y :: ys) with ((w ++ [y]) ++ ys)
      by (rewrite <- app_assoc; reflexivity).
    destruct (Nat.le_gt_cases SMOOTHING_FRAMES (length (w ++ [y]))) as [Hge | Hlt].
    + unfold lastn at 2.
      rewrite <- (firstn_skipn (length (w ++ [y]) - SMOOTHING_FRAMES) (w ++ [y])) at 3.
      rewrite <- app_assoc.
      symmetry. apply lastn_app_ge.
      rewrite length_app, length_skipn. lia.
    + rewrite (lastn_all _ (w ++ [y])) by lia. reflexivity.
Qed.

Lemma push_all_length (labels window : list string) :
  length window <= SMOOTHING_FRAMES ->
  length (push_all window labels) <= SMOOTHING_FRAMES.
Proof.
  intro H. rewrite push_all_lastn by exact H. rewrite lastn_length. lia.
Qed.

(** A stable window is the last SMOOTHING_FRAMES labels pushed, all equal
    and not UNKNOWN. *)
Lemma stable_window_last_labels (window labels : list string)
    (g : string) (count : nat) :
  length window <= SMOOTHING_FRAMES ->
  smoothing_vote SMOOTHING_FRAMES (push_all window labels) = Some (g, count, true) ->
  lastn SMOOTHING_FRAMES (window ++ labels) = repeat g SMOOTHING_FRAMES /\
  g <> "UNKNOWN".
Proof.
  intros Hw Hv.
  apply smoothing_vote_stable in Hv; [|apply push_all_length; exact Hw].
  destruct Hv as (E & Hg & _). rewrite push_all_lastn in E by exact Hw.
  split; assumption.
Qed.

Lemma window_stable_vote (window : list string) :
  window_stable window = true ->
  exists g count, smoothing_vote SMOOTHING_FRAMES window = Some (g, count, true).
Proof.
  unfold window_stable.
  destruct (smoothing_vote SMOOTHING_FRAMES window) as [[[g c] s]|];
    [|discriminate].
  intros ->. exists g, c. reflexivity.
Qed.

(** A window that still holds two different labels, or UNKNOWN, cannot be
    stable. *)
Lemma recent_labels_block (window recent : list string) (a : string) :
  length window <= SMOOTHING_FRAMES ->
  length recent <= SMOOTHING_FRAMES ->
  In a recent ->
  (a = "UNKNOWN" \/ exists b, In b recent /\ b <> a) ->
  window_stable (push_all window recent) = false.
Proof.
  intros Hw Hr Ha Hbad.
  destruct (window_stable (push_all window recent)) eqn:Es; [|reflexivity].
  exfalso. apply window_stable_vote in Es. destruct Es as (g & c & Hv).
  apply stable_window_last_labels in Hv; [|exact Hw].
  destruct Hv as [E Hg]. rewrite lastn_app_le in E by exact Hr.
  assert (Hall : forall e, In e recent -> e = g).
  { intros e He. apply (repeat_spec SMOOTHING_FRAMES g e).
    rewrite <- E. apply in_or_app. right. exact He. }
  destruct Hbad as [-> | (b & Hb & Hne)].
  - apply Hg. symmetry. exact (Hall _ Ha).
  - apply Hne. rewrite (Hall _ Ha), (Hall _ Hb). reflexivity.
Qed.

Lemma deque_append_fits (maxlen : nat) (d : list string) (g : string) :
  length (d ++ [g]) <= maxlen -> deque_append maxlen d g = d ++ [g].
Proof.
  intro H. unfold deque_append.
  destruct (Nat.ltb_spec maxlen (length (d ++ [g]))); [lia | reflexivity].
Qed.

(** The labels a run appends to the window, one per frame. *)
Lemma run_window (media_key_ok : string -> bool) (frames : list frame_input) :
  forall st fired st',
    run media_key_ok st frames = (fired, Some st') ->
    exists labels,
      Forall2 (fun f l => In l GESTURES /\ (results f = NoHand -> l = "UNKNOWN"))
              frames labels /\
      gesture_history st' = push_all (gesture_history st) labels.
Proof.
  induction frames as [|f rest IH]; intros st fired st' Hrun.
  - cbn in Hrun. injection Hrun as _ <-. exists []. split; [constructor | reflexivity].
  - rewrite run_cons in Hrun.
    destruct (frame_step media_key_ok st f) as [[st1 out]|] eqn:Ef;
      [|discriminate Hrun].
    injection Hrun as _ Hfinal.
    apply frame_step_effect in Ef. destruct Ef as [(g & Hg & Hu & Hh) _].
    destruct (IH st1 (fst (run media_key_ok st1 rest)) st') as (labels & Hl & Hw).
    { rewrite <- Hfinal. apply surjective_pairing. }
    exists (g :: labels). split.
    + constructor; [split; assumption | exact Hl].
    + rewrite Hw, Hh. reflexivity.
Qed.

(** C6, as the code has it.  Appending a label [x] that differs from the
    entry [p] appended just before it (so also one that differs from all
    the rest of the window) leaves the window unstable on that frame and
    on the next SMOOTHING_FRAMES - 2 frames, whatever they append; when
    the label is UNKNOWN (an UNKNOWN classification or a frame without a
    hand) the window is unstable on that frame and on the next
    SMOOTHING_FRAMES - 1 frames; and a window stable again after a
    differing label has seen SMOOTHING_FRAMES identical labels, not
    UNKNOWN, appended in a row.  Every frame of a run appends one label to
    the window, UNKNOWN when there is no hand. *)
Theorem differing_label_blocks_stability :
  (forall w0 p x later,
      length (w0 ++ [p]) <= SMOOTHING_FRAMES ->
      p <> x ->
      length later <= SMOOTHING_FRAMES - 2 ->
      window_stable
        (push_all (deque_append SMOOTHING_FRAMES (w0 ++ [p]) x) later) = false) /\
  (forall w later,
      length w <= SMOOTHING_FRAMES ->
      length later <= SMOOTHING_FRAMES - 1 ->
      window_stable
        (push_all (deque_append SMOOTHING_FRAMES w "UNKNOWN") later) = false) /\
  (forall w0 p x later g count,
      length (w0 ++ [p]) <= SMOOTHING_FRAMES ->
      p <> x ->
      smoothing_vote SMOOTHING_FRAMES
        (push_all (deque_append SMOOTHING_FRAMES (w0 ++ [p]) x) later)
        = Some (g, count, true) ->
      SMOOTHING_FRAMES <= length (x :: later) /\
      lastn SMOOTHING_FRAMES (x :: later) = repeat g SMOOTHING_FRAMES /\
      g <> "UNKNOWN") /\
  (forall media_key_ok st frames fired st',
      run media_key_ok st frames = (fired, Some st') ->
      exists labels,
        Forall2 (fun f l => In l GESTURES /\ (results f = NoHand -> l = "UNKNOWN"))
                frames labels /\
        gesture_history st' = push_all (gesture_history st) labels).
Proof.
  assert (Hdiff : forall w0 p x later,
             length (w0 ++ [p]) <= SMOOTHING_FRAMES ->
             p <> x ->
             length later <= SMOOTHING_FRAMES - 2 ->
             window_stable
               (push_all (deque_append SMOOTHING_FRAMES (w0 ++ [p]) x) later)
             = false).
  { intros w0 p x later Hw Hpx Hlater.
    change (push_all (deque_append SMOOTHING_FRAMES (w0 ++ [p]) x) later)
      with (push_all (w0 ++ [p]) (x :: later)).
    rewrite <- (deque_append_fits SMOOTHING_FRAMES w0 p Hw).
    change (push_all (deque_append SMOOTHING_FRAMES w0 p) (x :: later))
      with (push_all w0 (p :: x :: later)).
    rewrite length_app in Hw. cbn [length] in Hw.
    apply (recent_labels_block w0 (p :: x :: later) x).
    - lia.
    - unfold SMOOTHING_FRAMES in *. cbn [length]. lia.
    - cbn. tauto.
    - right. exists p. split; [cbn; tauto | exact Hpx]. }
  split; [exact Hdiff|]. split; [|split].
  - intros w later Hw Hlater.
    change (push_all (deque_append SMOOTHING_FRAMES w "UNKNOWN") later)
      with (push_all w ("UNKNOWN" :: later)).
    apply (recent_labels_block w ("UNKNOWN" :: later) "UNKNOWN").
    + exact Hw.
    + unfold SMOOTHING_FRAMES in *. cbn [length]. lia.
    + cbn. tauto.
    + left. reflexivity.
  - intros w0 p x later g count Hw Hpx Hv.
    assert (Hlen : SMOOTHING_FRAMES <= length (x :: later)).
    { destruct (Nat.le_gt_cases SMOOTHING_FRAMES (length (x :: later)))
        as [H | H]; [exact H|].
      exfalso. pose proof (Hdiff w0 p x later Hw Hpx) as Hn.
      unfold window_stable in Hn. rewrite Hv in Hn.
      cbn [length] in H. unfold SMOOTHING_FRAMES in *.
      assert (Hf : true = false) by (apply Hn; lia). discriminate Hf. }
    split; [exact Hlen|].
    change (push_all (deque_append SMOOTHING_FRAMES (w0 ++ [p]) x) later)
      with (push_all (w0 ++ [p]) (x :: later)) in Hv.
    apply stable_window_last_labels in Hv; [|exact Hw].
    destruct Hv as [E Hg]. rewrite lastn_app_ge in E by exact Hlen.
    split; assumption.
  - intros media_key_ok st frames. apply run_window.
Qed.

(** C6, as stated, fails: POINT differs from every entry of a window of
    six FIST, and the fifth frame after it (five being SMOOTHING_FRAMES - 1)
    finds the window stable on POINT; the same shows in a run of the loop,
    which dispatches Next Track on that fifth frame. *)
Lemma stability_regained_on_fifth_next_frame :
  ~ (forall w x later,
        length w <= SMOOTHING_FRAMES ->
        w <> [] ->
        Forall (fun e => e <> x) w ->
        length later <= SMOOTHING_FRAMES - 1 ->
        window_stable (push_all (deque_append SMOOTHING_FRAMES w x) later) = false) /\
  window_stable
    (push_all (deque_append SMOOTHING_FRAMES (repeat "FIST" 6) "POINT")
              (repeat "POINT" 5)) = true /\
  run (fun _ => true) (mk_state (repeat "FIST" 6) 6 (Some "FIST"))
      (frames_of point_hand "Right" [10; 11; 12; 13; 14; 15]%Q)
  = ([mk_dispatch 15 "POINT" "Next Track" [PressMediaKey "media_next"]],
     Some (mk_state (repeat "POINT" 6) 15 (Some "POINT"))).
Proof.
  assert (H : window_stable
                (push_all (deque_append SMOOTHING_FRAMES (repeat "FIST" 6) "POINT")
                          (repeat "POINT" 5)) = true)
    by (vm_compute; reflexivity).
  split; [|split; [exact H | vm_compute; reflexivity]].
  intro Hclaim.
  rewrite (Hclaim (repeat "FIST" 6) "POINT" (repeat "POINT" 5)) in H.
  - discriminate H.
  - vm_compute. lia.
  - discriminate.
  - repeat constructor; discriminate.
  - vm_compute. lia.
Qed.

(** ** The theorems at concrete inputs *)

Lemma detect_gesture_table_witness :
  In [1; 1; 0; 0; 0]%Z (finger_vectors 5) /\
  ~ In [1; 1; 0; 0; 0]%Z named_patterns /\
  detect_gesture [1; 1; 0; 0; 0]%Z = Some "UNKNOWN".
Proof.
  assert (H1 : In [1; 1; 0; 0; 0]%Z (finger_vectors 5))
    by (apply finger_vectors_spec; split; [reflexivity | repeat constructor; auto]).
  assert (H2 : ~ In [1; 1; 0; 0; 0]%Z named_patterns)
    by (cbn; intros [E | [E | [E | [E | []]]]]; discriminate E).
  split; [exact H1|]. split; [exact H2|].
  destruct detect_gesture_table as (_ & _ & _ & _ & _ & _ & _ & Hother & _).
  exact (Hother _ H1 H2).
Defined.

Lemma window_invariant_witness :
  let f := mk_frame (Hand open_palm_hand "Right") 1 in
  let st' := mk_state ["OPEN_PALM"] 0 None in
  frame_step (fun _ => true) initial_state f = Some (st', None) /\
  window_ok initial_state /\
  window_ok st'.
Proof.
  intros f st'.
  assert (Hf : frame_step (fun _ => true) initial_state f = Some (st', None))
    by (vm_compute; reflexivity).
  destruct (window_invariant (fun _ => true)) as (Hinit & Hstep & _).
  split; [exact Hf|]. split; [exact Hinit|].
  exact (Hstep initial_state f st' None Hf Hinit).
Defined.

Lemma last_triggered_invariant_witness :
  let frames := frames_of fist_hand "Right" [1; 2; 3; 4; 5; 6]%Q in
  let d := mk_dispatch 6 "FIST" "Previous Track" [PressMediaKey "media_previous"] in
  let st := mk_state (repeat "FIST" 6) 6 (Some "FIST") in
  run (fun _ => true) initial_state frames = ([d], Some st) /\
  named_or_unset (last_triggered st) /\
  last_triggered st <> Some "UNKNOWN".
Proof.
  intros frames d st.
  assert (Hrun : run (fun _ => true) initial_state frames = ([d], Some st))
    by (vm_compute; reflexivity).
  split; [exact Hrun|].
  destruct (last_triggered_invariant (fun _ => true)) as (_ & _ & _ & _ & Hreach & _).
  exact (Hreach frames [d] st Hrun).
Defined.

Lemma no_refire_until_other_gesture_witness :
  let palm1 := frames_of open_palm_hand "Right" [1; 2; 3; 4; 5; 6]%Q in
  let palm2 := frames_of open_palm_hand "Right" [7; 8; 9; 10; 11; 12]%Q in
  let fist3 := frames_of fist_hand "Right" [13; 14; 15; 16; 17; 18]%Q in
  let palm4 := frames_of open_palm_hand "Right" [19; 20; 21; 22; 23; 24]%Q in
  let frames := palm1 ++ palm2 ++ fist3 ++ palm4 in
  let d1 := mk_dispatch 6 "OPEN_PALM" "Play/Pause" [PressMediaKey "media_play_pause"] in
  let d2 := mk_dispatch 18 "FIST" "Previous Track" [PressMediaKey "media_previous"] in
  let d3 := mk_dispatch 24 "OPEN_PALM" "Play/Pause" [PressMediaKey "media_play_pause"] in
  let held g t := mk_state (repeat g 6) t (Some g) in
  (fst (run (fun _ => true) initial_state frames) = [] ++ d1 :: [d2] ++ d3 :: [] /\
   fire_gesture d1 = fire_gesture d3 /\
   exists d, In d [d2] /\ fire_gesture d <> fire_gesture d1) /\
  (cooldown_elapsed 6 0 = true /\
   cooldown_elapsed 18 6 = true /\
   cooldown_elapsed 24 18 = true) /\
  run (fun _ => true) initial_state palm1 = ([d1], Some (held "OPEN_PALM" 6%Q)) /\
  run (fun _ => true) (held "OPEN_PALM" 6%Q) palm2 = ([], Some (held "OPEN_PALM" 6%Q)) /\
  run (fun _ => true) (held "OPEN_PALM" 6%Q) fist3 = ([d2], Some (held "FIST" 18%Q)) /\
  run (fun _ => true) (held "FIST" 18%Q) palm4 = ([d3], Some (held "OPEN_PALM" 24%Q)).
Proof.
  intros palm1 palm2 fist3 palm4 frames d1 d2 d3 held.
  destruct (no_refire_until_other_gesture (fun _ => true))
    as (Hbetween & _ & Hscenario).
  assert (Hrun : fst (run (fun _ => true) initial_state frames)
                 = [] ++ d1 :: [d2] ++ d3 :: [])
    by (vm_compute; reflexivity).
  assert (Ha : cooldown_elapsed 6 0 = true) by (vm_compute; reflexivity).
  assert (Hc : cooldown_elapsed 18 6 = true) by (vm_compute; reflexivity).
  assert (Hd : cooldown_elapsed 24 18 = true) by (vm_compute; reflexivity).
  split.
  { split; [exact Hrun|]. split; [reflexivity|].
    exact (Hbetween initial_state frames [] d1 [d2] d3 [] Hrun eq_refl). }
  split; [auto|].
  exact (Hscenario open_palm_hand "Right" fist_hand "Right"
           1%Q 2%Q 3%Q 4%Q 5%Q 6%Q 7%Q 8%Q 9%Q 10%Q 11%Q 12%Q
           13%Q 14%Q 15%Q 16%Q 17%Q 18%Q 19%Q 20%Q 21%Q 22%Q 23%Q 24%Q
           eq_refl eq_refl Ha Hc Hd).
Defined.

Lemma differing_label_blocks_stability_witness :
  length (repeat "FIST" 5 ++ ["FIST"]) <= SMOOTHING_FRAMES /\
  "FIST" <> "POINT" /\
  length (repeat "POINT" 4) <= SMOOTHING_FRAMES - 2 /\
  window_stable
    (push_all (deque_append SMOOTHING_FRAMES (repeat "FIST" 5 ++ ["FIST"]) "POINT")
              (repeat "POINT" 4)) = false.
Proof.
  assert (H1 : length (repeat "FIST" 5 ++ ["FIST"]) <= SMOOTHING_FRAMES)
    by (vm_compute; lia).
  assert (H2 : "FIST" <> "POINT") by discriminate.
  assert (H3 : length (repeat "POINT" 4) <= SMOOTHING_FRAMES - 2)
    by (vm_compute; lia).
  repeat (split; [assumption|]).
  destruct differing_label_blocks_stability as (Hdiff & _).
  exact (Hdiff (repeat "FIST" 5) "FIST" "POINT" (repeat "POINT" 4) H1 H2 H3).
Defined.

(** * Further properties of the code *)

(** ** Extractor and classifier: errors and edge cases *)

Lemma int_list_eqb_eq (a b : list Z) : int_list_eqb a b = true <-> a = b.
Proof.
  revert b. induction a as [|u a IH]; intros [|v b]; cbn [int_list_eqb];
    try (split; [discriminate | discriminate]); try tauto.
  rewrite andb_true_iff, Z.eqb_eq, IH. split.
  - intros [-> ->]. reflexivity.
  - intro E. injection E as -> ->. auto.
Qed.

Ltac destruct_int_of_bool :=
  match goal with
  | |- int_of_bool ?b = _ \/ _ => destruct b; cbn; auto
  end.

Lemma fingers_up_short (lm : list Landmark.t) (label : string) :
  length lm < 21 -> fingers_up lm label = None.
Proof.
  intro H.
  do 21 (destruct lm as [|? lm]; [reflexivity|]).
  cbn [length] in H. lia.
Qed.

Lemma fingers_up_long (lm : list Landmark.t) (label : string) :
  21 <= length lm ->
  exists thumb index middle ring pinky : bool,
    fingers_up lm label
    = Some (map int_of_bool [thumb; index; middle; ring; pinky]).
Proof.
  intro H.
  do 21 (destruct lm as [|? lm]; [cbn [length] in H; lia|]).
  unfold fingers_up, finger_raised.
  cbn [TIP_IDS nth_error tl mapM bind Nat.sub].
  do 5 eexists. reflexivity.
Qed.

(** X1. [fingers_up] raises [IndexError] exactly for a hand with fewer than 21
    landmarks, whatever the handedness label; otherwise it returns one of
    the 32 five-element 0/1 vectors. *)
Theorem fingers_up_raises_iff (lm : list Landmark.t) (label : string) :
  (fingers_up lm label = None <-> length lm < 21) /\
  (forall v, fingers_up lm label = Some v -> In v (finger_vectors 5)).
Proof.
  destruct (Nat.lt_ge_cases (length lm) 21) as [Hlt | Hge].
  - pose proof (fingers_up_short lm label Hlt) as E. rewrite E.
    split; [tauto | discriminate].
  - destruct (fingers_up_long lm label Hge) as (t & i & m & r & p & E).
    rewrite E. split.
    + split; [discriminate | lia].
    + intros v Hv. injection Hv as <-. apply finger_vectors_spec.
      split; [reflexivity|].
      cbn [map]. repeat (constructor; [destruct_int_of_bool|]). constructor.
Qed.

(** X2. The same landmarks read as a right and as a left hand: the four
    fingers agree, the thumbs are opposite, except that both thumbs are
    down when tip and joint have the same x; and every label other than
    Right is read as Left. *)
Theorem thumb_mirrored_by_handedness (lm : list Landmark.t) :
  21 <= length lm ->
  (forall label, label <> "Right" -> fingers_up lm label = fingers_up lm "Left") /\
  exists (right_thumb left_thumb : Z) (others : list Z),
    fingers_up lm "Right" = Some (right_thumb :: others) /\
    fingers_up lm "Left" = Some (left_thumb :: others) /\
    ((Landmark.x (point lm 4) == Landmark.x (point lm 3))%Q ->
     right_thumb = 0%Z /\ left_thumb = 0%Z) /\
    (~ (Landmark.x (point lm 4) == Landmark.x (point lm 3))%Q ->
     (right_thumb + left_thumb = 1)%Z).
Proof.
  intro H. split.
  - intros label Hl. unfold fingers_up.
    apply String.eqb_neq in Hl. rewrite Hl. reflexivity.
  - do 21 (destruct lm as [|? lm]; [cbn [length] in H; lia|]).
    unfold fingers_up, finger_raised, point.
    cbn [TIP_IDS nth_error nth tl mapM bind Nat.sub String.eqb Ascii.eqb Bool.eqb map].
    do 3 eexists. split; [reflexivity|]. split; [reflexivity|]. split.
    + intro E. rewrite (Qltb_eq_false _ _ E).
      rewrite (Qltb_eq_false _ _ (Qeq_sym _ _ E)). split; reflexivity.
    + intro Hne.
      match goal with
      | |- (int_of_bool (Qltb ?a ?b) + int_of_bool (Qltb ?b ?a) = 1)%Z =>
          destruct (Qltb a b) eqn:E1; destruct (Qltb b a) eqn:E2; cbn;
          try reflexivity; exfalso
      end.
      * apply Qltb_iff in E1, E2. exact (Qlt_irrefl _ (Qlt_trans _ _ _ E1 E2)).
      * apply Hne. apply Qle_antisym.
        -- apply Qnot_lt_le. intro Hlt. apply Qltb_iff in Hlt. congruence.
        -- apply Qnot_lt_le. intro Hlt. apply Qltb_iff in Hlt. congruence.
Qed.

Lemma thumb_mirrored_by_handedness_witness :
  21 <= length fist_hand /\
  fingers_up fist_hand "Right" = Some [0; 0; 0; 0; 0]%Z /\
  fingers_up fist_hand "Left" = Some [1; 0; 0; 0; 0]%Z /\
  fingers_up fist_hand "left" = fingers_up fist_hand "Left".
Proof.
  assert (H : 21 <= length fist_hand) by (vm_compute; lia).
  split; [exact H|].
  split; [vm_compute; reflexivity|]. split; [vm_compute; reflexivity|].
  apply (proj1 (thumb_mirrored_by_handedness fist_hand H)). discriminate.
Defined.

(** X3. [detect_gesture] on any list of integers: it raises [ValueError]
    exactly when the list does not have five elements; each named gesture
    comes from its one pattern only; everything else of length five, also
    with entries other than 0 and 1, is UNKNOWN. *)
Theorem detect_gesture_inverse (fingers : list Z) :
  (detect_gesture fingers = None <-> length fingers <> 5) /\
  (detect_gesture fingers = Some "OPEN_PALM" <-> fingers = [1; 1; 1; 1; 1]%Z) /\
  (detect_gesture fingers = Some "FIST" <-> fingers = [0; 0; 0; 0; 0]%Z) /\
  (detect_gesture fingers = Some "THUMB_UP" <-> fingers = [1; 0; 0; 0; 0]%Z) /\
  (detect_gesture fingers = Some "POINT" <-> fingers = [0; 1; 0; 0; 0]%Z) /\
  (detect_gesture fingers = Some "UNKNOWN" <->
     length fingers = 5 /\ ~ In fingers named_patterns).
Proof.
  destruct fingers as [|a [|b [|c [|d [|e [|x rest]]]]]];
    try (cbn; repeat split; try discriminate; try lia; try tauto;
         intros [H _]; discriminate H).
  unfold detect_gesture, named_patterns. cbn [In length].
  destruct (int_list_eqb [a; b; c; d; e] [1; 1; 1; 1; 1]%Z) eqn:E1;
    [apply int_list_eqb_eq in E1; rewrite E1;
     repeat split; try discriminate; try tauto; try lia;
     intros [_ H]; exfalso; apply H; tauto|].
  destruct (int_list_eqb [a; b; c; d; e] [0; 0; 0; 0; 0]%Z) eqn:E2;
    [apply int_list_eqb_eq in E2; rewrite E2;
     repeat split; try discriminate; try tauto; try lia;
     intros [_ H]; exfalso; apply H; tauto|].
  destruct (int_list_eqb [a; b; c; d; e] [1; 0; 0; 0; 0]%Z) eqn:E3;
    [apply int_list_eqb_eq in E3; rewrite E3;
     repeat split; try discriminate; try tauto; try lia;
     intros [_ H]; exfalso; apply H; tauto|].
  destruct (int_list_eqb [a; b; c; d; e] [0; 1; 0; 0; 0]%Z) eqn:E4;
    [apply int_list_eqb_eq in E4; rewrite E4;
     repeat split; try discriminate; try tauto; try lia;
     intros [_ H]; exfalso; apply H; tauto|].
  assert (N1 : [a; b; c; d; e] <> [1; 1; 1; 1; 1]%Z)
    by (intro E; apply int_list_eqb_eq in E; congruence).
  assert (N2 : [a; b; c; d; e] <> [0; 0; 0; 0; 0]%Z)
    by (intro E; apply int_list_eqb_eq in E; congruence).
  assert (N3 : [a; b; c; d; e] <> [1; 0; 0; 0; 0]%Z)
    by (intro E; apply int_list_eqb_eq in E; congruence).
  assert (N4 : [a; b; c; d; e] <> [0; 1; 0; 0; 0]%Z)
    by (intro E; apply int_list_eqb_eq in E; congruence).
  repeat split; try discriminate; try congruence; try lia.
  intros [E | [E | [E | [E | []]]]]; congruence.
Qed.

(** ** The loop body: when it raises, what it appends *)

Lemma gesture_of_raises_iff (lm : list Landmark.t) (label : string) :
  gesture_of lm label = None <-> length lm < 21.
Proof.
  unfold gesture_of.
  destruct (Nat.lt_ge_cases (length lm) 21) as [Hlt | Hge].
  - rewrite (fingers_up_short lm label Hlt). cbn [bind]. tauto.
  - destruct (fingers_up_long lm label Hge) as (t & i & m & r & p & E).
    rewrite E. cbn [bind map]. split; [|lia].
    unfold detect_gesture.
    repeat match goal with
           | |- context [if ?b then _ else _] => destruct b
           end; discriminate.
Qed.

Lemma hand_branch_defined (media_key_ok : string -> bool) (st : loop_state)
    (g : string) (t : Q) :
  hand_branch media_key_ok st g t <> None.
Proof.
  unfold hand_branch.
  destruct (smoothing_vote_defined SMOOTHING_FRAMES
              (deque_append SMOOTHING_FRAMES (gesture_history st) g))
    as (mc & cnt & _ & E).
  { apply deque_append_nonempty. unfold SMOOTHING_FRAMES. lia. }
  rewrite E. cbn [bind].
  repeat match goal with
         | |- context [if ?b then _ else _] => destruct b
         | |- context [let '(_, _) := ?p in _] => destruct p
         | |- context [match truthy ?d with _ => _ end] => destruct (truthy d)
         end; discriminate.
Qed.

Lemma frame_step_none_iff
    (media_key_ok : string -> bool) (st : loop_state) (f : frame_input) :
  frame_step media_key_ok st f = None <-> ~ enough_landmarks f.
Proof.
  unfold frame_step, enough_landmarks.
  destruct (results f) as [|lm label].
  - split; [discriminate | tauto].
  - pose proof (gesture_of_raises_iff lm label) as Hg. unfold gesture_of in Hg.
    destruct (fingers_up lm label) as [v|]; cbn [bind] in *.
    + destruct (detect_gesture v) as [g|]; cbn [bind] in *.
      * split.
        -- intro H. exfalso. exact (hand_branch_defined _ _ _ _ H).
        -- intro H. exfalso. apply H.
           destruct (Nat.lt_ge_cases (length lm) 21) as [Hlt | Hge];
             [apply Hg in Hlt; discriminate Hlt | exact Hge].
      * split; [intros _ | reflexivity].
        assert (length lm < 21) by (apply Hg; reflexivity). lia.
    + split; [intros _ | reflexivity].
      assert (length lm < 21) by (apply Hg; reflexivity). lia.
Qed.

(** X4. An iteration raises exactly when the pose model hands over a hand with
    fewer than 21 landmarks: the smoothing and the dispatch never raise,
    in particular [most_common(1)[0]] always finds an entry. *)
Theorem frame_step_raises_iff
    (media_key_ok : string -> bool) (st : loop_state) (f : frame_input) :
  (frame_step media_key_ok st f = None <->
   exists lm label, results f = Hand lm label /\ length lm < 21) /\
  (forall g t, hand_branch media_key_ok st g t <> None).
Proof.
  split; [|intros g t; apply hand_branch_defined].
  rewrite frame_step_none_iff. unfold enough_landmarks.
  destruct (results f) as [|lm label].
  - split; [tauto|]. intros (lm & label & H & _). discriminate H.
  - split.
    + intro H. exists lm, label. split; [reflexivity | lia].
    + intros (lm' & label' & E & Hlt). injection E as <- <-. lia.
Qed.

(** X5. A run over frames whose hands all have their 21 landmarks ends in a
    state: the loop body never raises on them. *)
Theorem run_completes
    (media_key_ok : string -> bool) (frames : list frame_input)
    (st : loop_state) :
  Forall enough_landmarks frames ->
  exists st', snd (run media_key_ok st frames) = Some st'.
Proof.
  revert st. induction frames as [|f rest IH]; intros st Hall.
  - exists st. reflexivity.
  - inversion Hall as [|? ? Hf Hrest]; subst.
    rewrite run_cons.
    destruct (frame_step media_key_ok st f) as [[st1 out]|] eqn:E.
    + cbn [snd]. apply IH. exact Hrest.
    + exfalso. apply frame_step_none_iff in E. contradiction.
Qed.

Lemma run_completes_witness :
  Forall enough_landmarks
         [mk_frame NoHand 1; mk_frame (Hand open_palm_hand "Right") 2] /\
  exists st',
    snd (run (fun _ => false) initial_state
             [mk_frame NoHand 1; mk_frame (Hand open_palm_hand "Right") 2])
    = Some st'.
Proof.
  assert (H : Forall enough_landmarks
                [mk_frame NoHand 1; mk_frame (Hand open_palm_hand "Right") 2]).
  { constructor; [exact I|]. constructor; [|constructor].
    unfold enough_landmarks. cbn [results]. vm_compute. lia. }
  split; [exact H|].
  exact (run_completes (fun _ => false) _ initial_state H).
Defined.

Lemma mapM_cons_some {A B : Type} (f : A -> option B) (a : A) (l : list A)
    (b : B) (bs : list B) :
  f a = Some b -> mapM f l = Some bs -> mapM f (a :: l) = Some (b :: bs).
Proof. intros Ha Hl. cbn [mapM]. rewrite Ha. cbn [bind]. rewrite Hl. reflexivity. Qed.

(** X6. The window is a sliding one: after a run that did not raise, the
    history is the last SMOOTHING_FRAMES entries of the old history followed
    by the labels of the frames (UNKNOWN for a frame without a hand); after
    SMOOTHING_FRAMES frames or more nothing of the old history is left. *)
Theorem run_window_is_recent_labels
    (media_key_ok : string -> bool) (frames : list frame_input)
    (st : loop_state) (fired : list dispatch) (st' : loop_state) :
  length (gesture_history st) <= SMOOTHING_FRAMES ->
  run media_key_ok st frames = (fired, Some st') ->
  exists labels,
    mapM frame_label frames = Some labels /\
    gesture_history st'
    = lastn SMOOTHING_FRAMES (gesture_history st ++ labels) /\
    (SMOOTHING_FRAMES <= length frames ->
     gesture_history st' = lastn SMOOTHING_FRAMES labels).
Proof.
  intros Hlen Hrun.
  assert (H : exists labels,
             mapM frame_label frames = Some labels /\
             length labels = length frames /\
             gesture_history st' = push_all (gesture_history st) labels).
  { clear Hlen. revert st fired Hrun.
    induction frames as [|f rest IH]; intros st fired Hrun.
    - cbn in Hrun. injection Hrun as _ <-. exists []. repeat split.
    - rewrite run_cons in Hrun.
      destruct (frame_step media_key_ok st f) as [[st1 out]|] eqn:Ef;
        [|discriminate Hrun].
      injection Hrun as _ Hfinal.
      destruct (IH st1 (fst (run media_key_ok st1 rest)))
        as (labels & Hl & Hn & Hw).
      { rewrite <- Hfinal. apply surjective_pairing. }
      apply frame_step_inv in Ef.
      destruct Ef as [(Hr & -> & _) | (lm & label & g & Hr & Hg & Hb)].
      + exists ("UNKNOWN" :: labels). split; [|split].
        * apply mapM_cons_some; [unfold frame_label; rewrite Hr; reflexivity | exact Hl].
        * cbn [length]. congruence.
        * rewrite Hw. reflexivity.
      + apply hand_branch_inv in Hb. destruct Hb as [Hh _].
        exists (g :: labels). split; [|split].
        * apply mapM_cons_some; [unfold frame_label; rewrite Hr; exact Hg | exact Hl].
        * cbn [length]. congruence.
        * rewrite Hw, Hh. reflexivity. }
  destruct H as (labels & Hl & Hn & Hw). exists labels.
  split; [exact Hl|].
  rewrite push_all_lastn in Hw by exact Hlen. split; [exact Hw|].
  intro Hfull. rewrite Hw. apply lastn_app_ge. lia.
Qed.

Lemma run_window_is_recent_labels_witness :
  let frames := frames_of point_hand "Right" [1; 2]%Q ++ [mk_frame NoHand 3] in
  let st := mk_state (repeat "FIST" 6) 0 None in
  let st' := mk_state ["FIST"; "FIST"; "FIST"; "POINT"; "POINT"; "UNKNOWN"] 0 None in
  length (gesture_history st) <= SMOOTHING_FRAMES /\
  run (fun _ => true) st frames = ([], Some st') /\
  exists labels,
    mapM frame_label frames = Some labels /\
    gesture_history st' = lastn SMOOTHING_FRAMES (gesture_history st ++ labels).
Proof.
  intros frames st st'.
  assert (H1 : length (gesture_history st) <= SMOOTHING_FRAMES) by (vm_compute; lia).
  assert (H2 : run (fun _ => true) st frames = ([], Some st'))
    by (vm_compute; reflexivity).
  split; [exact H1|]. split; [exact H2|].
  destruct (run_window_is_recent_labels (fun _ => true) frames st [] st' H1 H2)
    as (labels & Hl & Hw & _).
  exists labels. split; assumption.
Defined.

(** ** The vote is a majority count *)

Lemma max_by_count_ge (e : string * nat) (c : list (string * nat)) :
  forall x, In x (e :: c) -> snd x <= snd (max_by_count e c).
Proof.
  revert e. induction c as [|a c IH]; intros e x Hx; cbn [max_by_count].
  - destruct Hx as [<- | []]. lia.
  - destruct (Nat.ltb_spec (snd e) (snd a)) as [Hlt | Hge].
    + destruct Hx as [<- | Hx].
      * pose proof (IH a a (or_introl eq_refl)). lia.
      * apply IH. exact Hx.
    + destruct Hx as [<- | [<- | Hx]].
      * apply IH. now left.
      * pose proof (IH e e (or_introl eq_refl)). lia.
      * apply IH. now right.
Qed.

Lemma keys_Counter (l : list string) (k : string) :
  In k (map fst (Counter l)) <-> In k l.
Proof.
  induction l as [|x l IH] using rev_ind.
  - cbn. tauto.
  - rewrite Counter_snoc, keys_counter_add, IH, in_app_iff. cbn. intuition auto.
Qed.

(** X7. Line 184 on any non-empty window: [most_common] is a label of the
    window, [count] is the number of its occurrences, and no label occurs
    more often. *)
Theorem smoothing_vote_majority (maxlen : nat) (window : list string) :
  window <> [] ->
  exists most_common count stable,
    smoothing_vote maxlen window = Some (most_common, count, stable) /\
    In most_common window /\
    count = count_occ string_dec window most_common /\
    forall k, count_occ string_dec window k <= count.
Proof.
  intro Hw. unfold smoothing_vote, most_common_1.
  pose proof (Counter_nonempty window Hw) as Hc.
  destruct (Counter window) as [|e c] eqn:Ec; [congruence|].
  pose proof (max_by_count_In e c) as Hin.
  pose proof (max_by_count_ge e c) as Hge.
  destruct (max_by_count e c) as [mc cnt]. cbn [nth_error bind snd] in *.
  rewrite <- Ec in Hin, Hge.
  assert (Hcnt : cnt = count_occ string_dec window mc).
  { rewrite <- count_in_Counter. symmetry.
    apply count_in_entry; [apply NoDup_keys_Counter | exact Hin]. }
  assert (Hmax : forall k, count_occ string_dec window k <= cnt).
  { intro k. destruct (in_dec string_dec k window) as [Hk | Hk].
    - apply keys_Counter in Hk. apply in_map_iff in Hk.
      destruct Hk as ([k' n] & Hfst & Hkn). cbn in Hfst. subst k'.
      pose proof (Hge _ Hkn) as Hle. cbn [snd] in Hle.
      rewrite <- count_in_Counter.
      rewrite (count_in_entry _ _ _ (NoDup_keys_Counter window) Hkn). exact Hle.
    - apply (count_occ_not_In string_dec) in Hk. lia. }
  do 3 eexists. split; [reflexivity|]. split; [|split; assumption].
  destruct window as [|a w]; [congruence|].
  apply (count_occ_In string_dec). rewrite <- Hcnt.
  pose proof (Hmax a) as Ha. cbn [count_occ] in Ha.
  destruct (string_dec a a); [lia | congruence].
Qed.

Lemma smoothing_vote_majority_witness :
  ["FIST"; "POINT"; "POINT"; "UNKNOWN"] <> [] /\
  exists most_common count stable,
    smoothing_vote SMOOTHING_FRAMES ["FIST"; "POINT"; "POINT"; "UNKNOWN"]
    = Some (most_common, count, stable) /\
    In most_common ["FIST"; "POINT"; "POINT"; "UNKNOWN"] /\
    count = count_occ string_dec ["FIST"; "POINT"; "POINT"; "UNKNOWN"] most_common /\
    forall k, count_occ string_dec ["FIST"; "POINT"; "POINT"; "UNKNOWN"] k <= count.
Proof.
  split; [discriminate|].
  apply (smoothing_vote_majority SMOOTHING_FRAMES). discriminate.
Defined.

(** ** What is dispatched, and on which frame *)

Lemma deque_append_last (maxlen : nat) (d : list string) (g : string) :
  0 < maxlen -> exists front, deque_append maxlen d g = front ++ [g].
Proof.
  intro H. unfold deque_append.
  destruct (Nat.ltb_spec maxlen (length (d ++ [g]))) as [Hlt | Hge].
  - destruct d as [|a d]; cbn [app tl].
    + cbn in Hlt. lia.
    + exists d. reflexivity.
  - exists d. reflexivity.
Qed.

Lemma perform_action_table (media_key_ok : string -> bool) (g desc : string) :
  truthy (snd (perform_action_for_gesture media_key_ok g)) = Some desc ->
  In (g, desc) ACTIONS.
Proof.
  unfold perform_action_for_gesture, ACTIONS. cbn [In].
  destruct (String.eqb_spec g "OPEN_PALM") as [-> | _];
    [cbn; intro H; injection H as <-; tauto|].
  destruct (String.eqb_spec g "FIST") as [-> | _];
    [cbn; intro H; injection H as <-; tauto|].
  destruct (String.eqb_spec g "POINT") as [-> | _];
    [cbn; intro H; injection H as <-; tauto|].
  destruct (String.eqb_spec g "THUMB_UP") as [-> | _];
    [cbn; intro H; injection H as <-; tauto|].
  cbn. discriminate.
Qed.

Lemma frame_step_dispatch (media_key_ok : string -> bool) (st : loop_state)
    (f : frame_input) (st' : loop_state) (d : dispatch) :
  length (gesture_history st) <= SMOOTHING_FRAMES ->
  frame_step media_key_ok st f = Some (st', Some d) ->
  In (fire_gesture d, fire_desc d) ACTIONS /\
  fire_calls d = fst (perform_action_for_gesture media_key_ok (fire_gesture d)) /\
  fire_time d = now f /\
  (exists lm label,
      results f = Hand lm label /\
      gesture_of lm label = Some (fire_gesture d)) /\
  gesture_history st' = repeat (fire_gesture d) SMOOTHING_FRAMES /\
  last_triggered st' = Some (fire_gesture d) /\
  last_action_time st' = now f.
Proof.
  intros Hlen Hf. apply frame_step_inv in Hf.
  destruct Hf as [(_ & _ & Hout) | (lm & label & g & Hr & Hg & Hb)];
    [discriminate Hout|].
  apply hand_branch_inv in Hb. destruct Hb as [Hh [(Hout & _) | Hfire]];
    [discriminate Hout|].
  destruct Hfire as (mc & cnt & desc & Hv & _ & _ & Hp & Hout & Ht & Hl).
  injection Hout as ->. cbn [fire_gesture fire_desc fire_calls fire_time].
  apply smoothing_vote_stable in Hv;
    [|rewrite Hh; apply deque_append_length; exact Hlen].
  destruct Hv as (Hw & _ & _).
  assert (Egm : g = mc).
  { destruct (deque_append_last SMOOTHING_FRAMES (gesture_history st) g)
      as (front & Hfront); [unfold SMOOTHING_FRAMES; lia|].
    apply (repeat_spec SMOOTHING_FRAMES mc g).
    rewrite <- Hw, Hh, Hfront. apply in_or_app. right. now left. }
  subst g. repeat split; try assumption; try reflexivity.
  - eapply perform_action_table. exact Hp.
  - exists lm, label. split; assumption.
Qed.

(** X8. Every dispatch of a run is an entry of the action table (so never
    UNKNOWN), carries the keyboard calls of that gesture, and went out on a
    frame that showed a hand classified as that very gesture, stamped with
    that frame's clock. *)
Theorem dispatches_follow_action_table
    (media_key_ok : string -> bool) (frames : list frame_input)
    (st : loop_state) (d : dispatch) :
  length (gesture_history st) <= SMOOTHING_FRAMES ->
  In d (fst (run media_key_ok st frames)) ->
  In (fire_gesture d, fire_desc d) ACTIONS /\
  fire_gesture d <> "UNKNOWN" /\
  fire_calls d = fst (perform_action_for_gesture media_key_ok (fire_gesture d)) /\
  exists f lm label,
    In f frames /\ results f = Hand lm label /\
    gesture_of lm label = Some (fire_gesture d) /\
    fire_time d = now f.
Proof.
  revert st. induction frames as [|f rest IH]; intros st Hlen Hd.
  - destruct Hd.
  - rewrite run_cons in Hd.
    destruct (frame_step media_key_ok st f) as [[st1 out]|] eqn:Ef; [|destruct Hd].
    assert (Hlen1 : length (gesture_history st1) <= SMOOTHING_FRAMES).
    { pose proof Ef as Ef'. apply frame_step_effect in Ef'.
      destruct Ef' as [(g & _ & _ & Hh) _]. rewrite Hh.
      apply deque_append_length. exact Hlen. }
    assert (Hrest : In d (fst (run media_key_ok st1 rest)) ->
                    In (fire_gesture d, fire_desc d) ACTIONS /\
                    fire_gesture d <> "UNKNOWN" /\
                    fire_calls d
                    = fst (perform_action_for_gesture media_key_ok (fire_gesture d)) /\
                    exists f0 lm label,
                      In f0 (f :: rest) /\ results f0 = Hand lm label /\
                      gesture_of lm label = Some (fire_gesture d) /\
                      fire_time d = now f0).
    { intro H. destruct (IH st1 Hlen1 H) as (H1 & H2 & H3 & f0 & lm & label & H4 & H5).
      repeat split; try assumption. exists f0, lm, label.
      split; [now right | exact H5]. }
    destruct out as [d0|]; cbn [fst] in Hd; [|exact (Hrest Hd)].
    destruct Hd as [<- | Hd]; [|exact (Hrest Hd)].
    destruct (frame_step_dispatch _ _ _ _ _ Hlen Ef)
      as (Ha & Hc & Ht & (lm & label & Hr & Hg) & _).
    repeat split; try assumption.
    + intro E. rewrite E in Ha. cbn in Ha.
      destruct Ha as [H | [H | [H | [H | []]]]]; discriminate H.
    + exists f, lm, label. split; [now left|]. repeat split; assumption.
Qed.

Lemma dispatches_follow_action_table_witness :
  let frames := frames_of point_hand "Right" [1; 2; 3; 4; 5; 6]%Q in
  let d := mk_dispatch 6 "POINT" "Next Track"
             [PressMediaKey "media_next"; PressKeyFallback ["ctrl_l"; "right"]] in
  length (gesture_history initial_state) <= SMOOTHING_FRAMES /\
  In d (fst (run (fun _ => false) initial_state frames)) /\
  In (fire_gesture d, fire_desc d) ACTIONS /\
  fire_gesture d <> "UNKNOWN".
Proof.
  intros frames d.
  assert (H1 : length (gesture_history initial_state) <= SMOOTHING_FRAMES)
    by (vm_compute; lia).
  assert (H2 : In d (fst (run (fun _ => false) initial_state frames)))
    by (vm_compute; left; reflexivity).
  split; [exact H1|]. split; [exact H2|].
  destruct (dispatches_follow_action_table (fun _ => false) frames initial_state d H1 H2)
    as (Ha & Hu & _).
  split; assumption.
Defined.

(** ** A dispatch takes six frames *)

(** X9. Nothing is dispatched while the history has fewer than SMOOTHING_FRAMES
    entries: from the start of [main], not during the first five frames,
    whatever they show and whatever the clock. *)
Theorem no_dispatch_before_window_fills
    (media_key_ok : string -> bool) (frames : list frame_input)
    (st : loop_state) :
  length (gesture_history st) + length frames < SMOOTHING_FRAMES ->
  fst (run media_key_ok st frames) = [].
Proof.
  revert st. induction frames as [|f rest IH]; intros st Hlen.
  - reflexivity.
  - rewrite run_cons.
    destruct (frame_step media_key_ok st f) as [[st1 out]|] eqn:Ef; [|reflexivity].
    cbn [length] in Hlen.
    assert (Hh : length (gesture_history st1) = S (length (gesture_history st))).
    { pose proof Ef as Ef'. apply frame_step_effect in Ef'.
      destruct Ef' as [(g & _ & _ & Hh) _]. rewrite Hh.
      rewrite deque_append_fits; rewrite length_app; cbn [length]; lia. }
    destruct out as [d|].
    + exfalso. apply frame_step_dispatch in Ef; [|lia].
      destruct Ef as (_ & _ & _ & _ & Hw & _).
      rewrite Hw, repeat_length in Hh. lia.
    + cbn [fst]. apply IH. lia.
Qed.

Lemma no_dispatch_before_window_fills_witness :
  let frames := frames_of open_palm_hand "Right" [100; 200; 300; 400; 500]%Q in
  length (gesture_history initial_state) + length frames < SMOOTHING_FRAMES /\
  fst (run (fun _ => true) initial_state frames) = [].
Proof.
  intro frames.
  assert (H : length (gesture_history initial_state) + length frames
              < SMOOTHING_FRAMES) by (vm_compute; lia).
  split; [exact H|].
  exact (no_dispatch_before_window_fills (fun _ => true) frames initial_state H).
Defined.

Lemma quiet_while_fired_gesture_in_window
    (media_key_ok : string -> bool) (g : string) (frames : list frame_input) :
  forall (m : nat) (st : loop_state) (rest : list string),
    last_triggered st = Some g ->
    gesture_history st = repeat g m ++ rest ->
    length (gesture_history st) = SMOOTHING_FRAMES ->
    length frames < m ->
    fst (run media_key_ok st frames) = [].
Proof.
  induction frames as [|f more IH]; intros m st rest Hl Hw Hfull Hm.
  - reflexivity.
  - rewrite run_cons.
    destruct (frame_step media_key_ok st f) as [[st1 out]|] eqn:Ef; [|reflexivity].
    cbn [length] in Hm. destruct m as [|m]; [lia|].
    apply frame_step_effect in Ef. destruct Ef as [(x & _ & _ & Hh) Hd].
    assert (Hw1 : gesture_history st1 = repeat g m ++ (rest ++ [x])).
    { rewrite Hh. unfold deque_append.
      destruct (Nat.ltb_spec SMOOTHING_FRAMES (length (gesture_history st ++ [x])))
        as [_ | Hge]; [|rewrite length_app in Hge; cbn [length] in Hge; lia].
      rewrite Hw. cbn [repeat app tl]. rewrite <- app_assoc. reflexivity. }
    assert (Hfull1 : length (gesture_history st1) = SMOOTHING_FRAMES).
    { rewrite Hw1. rewrite Hw in Hfull. cbn [repeat app length] in Hfull.
      rewrite !length_app in *. cbn [length]. lia. }
    destruct Hd as [(-> & _ & Hl1) | [_ Hfire]].
    + cbn [fst]. apply (IH m st1 (rest ++ [x])); try assumption; [congruence | lia].
    + exfalso.
      destruct Hfire as (mc & cnt & desc & Hv & _ & Hdiff & _).
      apply smoothing_vote_stable in Hv; [|lia].
      destruct Hv as (Hrep & _ & _).
      assert (Eg : g = mc).
      { apply (repeat_spec SMOOTHING_FRAMES mc g). rewrite <- Hrep, Hw1.
        destruct m as [|m]; [lia|]. cbn. now left. }
      rewrite Hl, Eg in Hdiff. cbn in Hdiff. rewrite String.eqb_refl in Hdiff.
      discriminate Hdiff.
Qed.

(** X10. After a dispatch the next five frames dispatch nothing, whatever they
    show and however far the clock has moved: until six new labels have
    replaced the window, it cannot be unanimous on another gesture, and
    the fired gesture itself is suppressed. *)
Theorem five_quiet_frames_after_dispatch
    (media_key_ok : string -> bool) (st : loop_state) (f : frame_input)
    (st1 : loop_state) (d : dispatch) (frames : list frame_input) :
  length (gesture_history st) <= SMOOTHING_FRAMES ->
  frame_step media_key_ok st f = Some (st1, Some d) ->
  length frames < SMOOTHING_FRAMES ->
  fst (run media_key_ok st1 frames) = [].
Proof.
  intros Hlen Hf Hframes.
  apply frame_step_dispatch in Hf; [|exact Hlen].
  destruct Hf as (_ & _ & _ & _ & Hw & Hl & _).
  apply (quiet_while_fired_gesture_in_window media_key_ok (fire_gesture d) frames
           SMOOTHING_FRAMES st1 []).
  - exact Hl.
  - rewrite app_nil_r. exact Hw.
  - rewrite Hw. apply repeat_length.
  - exact Hframes.
Qed.

Lemma five_quiet_frames_after_dispatch_witness :
  let st := mk_state (repeat "FIST" 5) 0 None in
  let f := mk_frame (Hand fist_hand "Right") 10 in
  let st1 := mk_state (repeat "FIST" 6) 10 (Some "FIST") in
  let d := mk_dispatch 10 "FIST" "Previous Track" [PressMediaKey "media_previous"] in
  let frames := frames_of point_hand "Right" [1000; 2000; 3000; 4000; 5000]%Q in
  length (gesture_history st) <= SMOOTHING_FRAMES /\
  frame_step (fun _ => true) st f = Some (st1, Some d) /\
  length frames < SMOOTHING_FRAMES /\
  fst (run (fun _ => true) st1 frames) = [].
Proof.
  intros st f st1 d frames.
  assert (H1 : length (gesture_history st) <= SMOOTHING_FRAMES) by (vm_compute; lia).
  assert (H2 : frame_step (fun _ => true) st f = Some (st1, Some d))
    by (vm_compute; reflexivity).
  assert (H3 : length frames < SMOOTHING_FRAMES) by (vm_compute; lia).
  repeat (split; [assumption|]).
  exact (five_quiet_frames_after_dispatch (fun _ => true) st f st1 d frames H1 H2 H3).
Defined.

(** ** The keyboard helpers *)

Lemma attempt_spec (e : Keyboard.env) (calls : list Keyboard.call) :
  forall done ok done',
    attempt e calls done = (ok, done') ->
    exists sent,
      done' = done ++ sent /\
      (ok = true -> sent = calls) /\
      (ok = false ->
       exists c later,
         calls = sent ++ c :: later /\ Keyboard.raises e (done ++ sent) c = true).
Proof.
  induction calls as [|c rest IH]; intros done ok done' H; cbn [attempt] in H.
  - injection H as <- <-. exists []. rewrite app_nil_r.
    split; [reflexivity|]. split; [reflexivity | discriminate].
  - destruct (Keyboard.raises e done c) eqn:Er.
    + injection H as <- <-. exists []. rewrite app_nil_r.
      split; [reflexivity|]. split; [discriminate|].
      intros _. exists c, rest. split; [reflexivity | exact Er].
    + apply IH in H. destruct H as (sent & -> & Hok & Hfail).
      exists (c :: sent). rewrite <- app_assoc. split; [reflexivity|]. split.
      * intro E. rewrite (Hok E). reflexivity.
      * intro E. destruct (Hfail E) as (c' & later & -> & Hr).
        exists c', later. split; [reflexivity|].
        rewrite <- app_assoc in Hr. exact Hr.
Qed.

Lemma attempt_app (e : Keyboard.env) (a b : list Keyboard.call) :
  forall done,
    attempt e (a ++ b) done =
    (if fst (attempt e a done) then attempt e b (snd (attempt e a done))
     else attempt e a done).
Proof.
  induction a as [|c a IH]; intro done; cbn [app attempt fst snd].
  - reflexivity.
  - destruct (Keyboard.raises e done c); [reflexivity | apply IH].
Qed.

Lemma for_each_attempt (e : Keyboard.env) (op : Keyboard.key -> Keyboard.call)
    (ks : list Keyboard.key) :
  forall done,
    Keyboard.for_each e op ks done =
    ((if fst (attempt e (map op ks) done) then Some tt else None),
     snd (attempt e (map op ks) done)).
Proof.
  induction ks as [|k ks IH]; intro done; cbn [Keyboard.for_each map attempt].
  - reflexivity.
  - unfold Keyboard.seq, Keyboard.do_call.
    destruct (Keyboard.raises e done (op k)); [reflexivity | apply IH].
Qed.

Lemma press_key_fallback_attempt (e : Keyboard.env) (arg : Keyboard.key_or_combo)
    (done : list Keyboard.call) :
  Keyboard.press_key_fallback e arg done = attempt e (Keyboard.calls_of arg) done.
Proof.
  unfold Keyboard.press_key_fallback, Keyboard.try_except.
  destruct arg as [k | ks]; cbn [Keyboard.calls_of].
  - unfold Keyboard.seq, Keyboard.do_call, Keyboard.ret. cbn [attempt].
    destruct (Keyboard.raises e done (Keyboard.Press k)); [reflexivity|].
    destruct (Keyboard.raises e (done ++ [Keyboard.Press k]) (Keyboard.Release k));
      reflexivity.
  - rewrite attempt_app. unfold Keyboard.seq at 1. rewrite for_each_attempt.
    destruct (attempt e (map Keyboard.Press ks) done) as [ok1 done1] eqn:E1.
    cbn [fst snd]. destruct ok1; [|reflexivity].
    unfold Keyboard.seq. rewrite for_each_attempt.
    destruct (attempt e (map Keyboard.Release (rev ks)) done1) as [ok2 done2].
    cbn [fst snd]. destruct ok2; reflexivity.
Qed.

Lemma presses_app (a b : list Keyboard.call) :
  Keyboard.presses (a ++ b) = Keyboard.presses a + Keyboard.presses b.
Proof. unfold Keyboard.presses. rewrite filter_app, length_app. reflexivity. Qed.

Lemma releases_app (a b : list Keyboard.call) :
  Keyboard.releases (a ++ b) = Keyboard.releases a + Keyboard.releases b.
Proof. unfold Keyboard.releases. rewrite filter_app, length_app. reflexivity. Qed.

Lemma presses_releases_length (l : list Keyboard.call) :
  Keyboard.presses l + Keyboard.releases l = length l.
Proof.
  unfold Keyboard.presses, Keyboard.releases.
  induction l as [|[k | k] l IH]; cbn in *; lia.
Qed.

Lemma presses_of_presses (ks : list Keyboard.key) :
  Keyboard.presses (map Keyboard.Press ks) = length ks /\
  Keyboard.releases (map Keyboard.Press ks) = 0.
Proof.
  unfold Keyboard.presses, Keyboard.releases.
  induction ks as [|k ks [IH1 IH2]]; cbn in *; split; lia.
Qed.

Lemma releases_of_releases (ks : list Keyboard.key) :
  Keyboard.presses (map Keyboard.Release ks) = 0 /\
  Keyboard.releases (map Keyboard.Release ks) = length ks.
Proof.
  unfold Keyboard.presses, Keyboard.releases.
  induction ks as [|k ks [IH1 IH2]]; cbn in *; split; lia.
Qed.

Lemma calls_of_shape (arg : Keyboard.key_or_combo) :
  exists ks,
    Keyboard.calls_of arg
    = map Keyboard.Press ks ++ map Keyboard.Release (rev ks).
Proof.
  destruct arg as [k | ks].
  - exists [k]. reflexivity.
  - exists ks. reflexivity.
Qed.

(** A proper, non-empty beginning of "press all, release all in reverse"
    has more presses than releases. *)
Lemma interrupted_calls_leave_keys_down (arg : Keyboard.key_or_combo)
    (sent : list Keyboard.call) (c : Keyboard.call) (later : list Keyboard.call) :
  Keyboard.calls_of arg = sent ++ c :: later ->
  sent <> [] ->
  Keyboard.releases sent < Keyboard.presses sent.
Proof.
  intros E Hne. destruct (calls_of_shape arg) as (ks & Hs). rewrite Hs in E.
  pose proof (presses_of_presses ks) as [Hpp Hpr].
  pose proof (releases_of_releases (rev ks)) as [Hrp Hrr].
  rewrite length_rev in Hrr.
  apply app_eq_app in E. destruct E as (l & [[E1 E2] | [E1 E2]]).
  - (* the interruption is among the releases *)
    rewrite E1 in *. rewrite presses_app in Hpp. rewrite releases_app in Hpr.
    pose proof (presses_releases_length sent) as Hs1.
    destruct sent; [congruence|]. cbn [length] in Hs1. lia.
  - (* all presses went through *)
    rewrite E1, presses_app, releases_app, Hpp, Hpr.
    rewrite E2 in Hrp, Hrr.
    rewrite presses_app in Hrp. rewrite releases_app in Hrr.
    pose proof (presses_releases_length l) as Hl.
    pose proof (presses_releases_length (c :: later)) as Hc.
    cbn [length] in Hc. lia.
Qed.

(** X11. [press_key_fallback]: it returns [True] exactly when no call raised,
    and then it has pressed the keys in order and released them in reverse
    order, leaving none down; when a call raises it returns [False], the
    calls made so far stay made and nothing is released any more, so as
    soon as one press went through some key is left down. *)
Theorem press_key_fallback_calls
    (e : Keyboard.env) (arg : Keyboard.key_or_combo) (done : list Keyboard.call) :
  exists sent,
    snd (Keyboard.press_key_fallback e arg done) = done ++ sent /\
    (fst (Keyboard.press_key_fallback e arg done) = true ->
     sent = Keyboard.calls_of arg /\
     Keyboard.presses sent = Keyboard.releases sent) /\
    (fst (Keyboard.press_key_fallback e arg done) = false ->
     (exists c later,
         Keyboard.calls_of arg = sent ++ c :: later /\
         Keyboard.raises e (done ++ sent) c = true) /\
     (sent <> [] -> Keyboard.releases sent < Keyboard.presses sent)) /\
    ((forall l c, Keyboard.raises e l c = false) ->
     fst (Keyboard.press_key_fallback e arg done) = true).
Proof.
  rewrite press_key_fallback_attempt.
  destruct (attempt e (Keyboard.calls_of arg) done) as [ok done'] eqn:E.
  destruct (attempt_spec _ _ _ _ _ E) as (sent & -> & Hok & Hfail).
  exists sent. cbn [fst snd]. split; [reflexivity|]. split; [|split].
  - intro Et. rewrite (Hok Et). split; [reflexivity|].
    destruct (calls_of_shape arg) as (ks & ->).
    rewrite presses_app, releases_app.
    pose proof (presses_of_presses ks) as [-> ->].
    pose proof (releases_of_releases (rev ks)) as [-> ->].
    rewrite length_rev. lia.
  - intro Ef. destruct (Hfail Ef) as (c & later & Hc & Hr).
    split; [exists c, later; split; assumption|].
    intro Hne. eapply interrupted_calls_leave_keys_down; eassumption.
  - intro Hnever. destruct ok; [reflexivity|].
    destruct (Hfail eq_refl) as (c & later & _ & Hr).
    rewrite Hnever in Hr. discriminate Hr.
Qed.

(** X12. [press_media_key_if_available]: without the attribute it returns
    [False] and calls nothing; it returns [True] exactly when both the press
    and the release of the media key went through; when the release raises,
    it returns [False] with the media key pressed. *)
Theorem press_media_key_calls
    (e : Keyboard.env) (name : string) (done : list Keyboard.call) :
  let k := Keyboard.KeyOf name in
  exists sent,
    snd (Keyboard.press_media_key_if_available e name done) = done ++ sent /\
    (Keyboard.has_attr e name = false -> sent = [] /\
     fst (Keyboard.press_media_key_if_available e name done) = false) /\
    (fst (Keyboard.press_media_key_if_available e name done) = true <->
     sent = [Keyboard.Press k; Keyboard.Release k]) /\
    (fst (Keyboard.press_media_key_if_available e name done) = false ->
     sent = [] \/ sent = [Keyboard.Press k]) /\
    (Keyboard.has_attr e name = true ->
     Keyboard.raises e done (Keyboard.Press k) = false ->
     Keyboard.raises e (done ++ [Keyboard.Press k]) (Keyboard.Release k) = true ->
     sent = [Keyboard.Press k]).
Proof.
  intro k. unfold Keyboard.press_media_key_if_available, Keyboard.try_except,
    Keyboard.seq, Keyboard.do_call, Keyboard.ret. fold k.
  destruct (Keyboard.has_attr e name); cbn [negb].
  - destruct (Keyboard.raises e done (Keyboard.Press k)) eqn:E1.
    + exists []. rewrite app_nil_r. cbn [fst snd].
      repeat split; try discriminate; auto.
    + destruct (Keyboard.raises e (done ++ [Keyboard.Press k]) (Keyboard.Release k))
        eqn:E2.
      * exists [Keyboard.Press k]. cbn [fst snd].
        repeat split; try discriminate; auto.
      * exists [Keyboard.Press k; Keyboard.Release k]. cbn [fst snd].
        rewrite <- app_assoc.
        repeat split; try discriminate; auto.
  - exists []. rewrite app_nil_r. cbn [fst snd].
    repeat split; try discriminate; auto.
Qed.

Lemma attempt_all_pass (e : Keyboard.env) (calls : list Keyboard.call) :
  (forall l c, In c calls -> Keyboard.raises e l c = false) ->
  forall done, attempt e calls done = (true, done ++ calls).
Proof.
  induction calls as [|c rest IH]; intros Hpass done; cbn [attempt].
  - rewrite app_nil_r. reflexivity.
  - rewrite (Hpass done c (or_introl eq_refl)).
    rewrite IH by (intros l c' Hc'; apply Hpass; now right).
    rewrite <- app_assoc. reflexivity.
Qed.

Lemma perform_action_bound (e : Keyboard.env) (g native : string)
    (fallback : Keyboard.key_or_combo) (done : list Keyboard.call) :
  In (g, (native, fallback)) Keyboard.BINDINGS ->
  snd (Keyboard.perform_action_for_gesture e g done)
  = Keyboard.media_key_or_fallback e native fallback done /\
  fst (Keyboard.perform_action_for_gesture e g done) <> None /\
  ~ In (Keyboard.Release (Keyboard.KeyOf native)) (Keyboard.calls_of fallback).
Proof.
  unfold Keyboard.BINDINGS. cbn [In].
  intros [E | [E | [E | [E | []]]]]; injection E as <- <- <-;
    (split; [reflexivity|]; split; [discriminate|]);
    cbn; intuition discriminate.
Qed.

(** X13. [perform_action_for_gesture], call by call.  The description does not
    depend on the keyboard: it is returned, for the four gestures, even
    when no call went through.  A gesture without an action calls nothing.
    For a gesture with an action: when the media key went through, nothing
    else is sent; without the media key attribute the fallback keys are
    sent; when the media key was pressed and its release raised, the media
    key stays down and the fallback keys are sent on top of it. *)
Theorem perform_action_keyboard_calls
    (e : Keyboard.env) (g : string) (done : list Keyboard.call) :
  (forall media_key_ok,
      fst (Keyboard.perform_action_for_gesture e g done)
      = snd (perform_action_for_gesture media_key_ok g)) /\
  (~ In g NAMED_GESTURES ->
   Keyboard.perform_action_for_gesture e g done = (None, done)) /\
  (forall native fallback,
      In (g, (native, fallback)) Keyboard.BINDINGS ->
      let k := Keyboard.KeyOf native in
      let sent_to l := snd (Keyboard.perform_action_for_gesture e g done) = done ++ l in
      (Keyboard.has_attr e native = true ->
       Keyboard.raises e done (Keyboard.Press k) = false ->
       Keyboard.raises e (done ++ [Keyboard.Press k]) (Keyboard.Release k) = false ->
       sent_to [Keyboard.Press k; Keyboard.Release k]) /\
      (Keyboard.has_attr e native = false ->
       (forall l c, Keyboard.raises e l c = false) ->
       sent_to (Keyboard.calls_of fallback)) /\
      (Keyboard.has_attr e native = true ->
       (forall l c, c <> Keyboard.Release k -> Keyboard.raises e l c = false) ->
       Keyboard.raises e (done ++ [Keyboard.Press k]) (Keyboard.Release k) = true ->
       sent_to (Keyboard.Press k :: Keyboard.calls_of fallback)) /\
      ((forall l c, Keyboard.raises e l c = true) ->
       sent_to [])).
Proof.
  split; [|split].
  - intro ok. unfold Keyboard.perform_action_for_gesture, perform_action_for_gesture.
    repeat match goal with
           | |- context [if (?a =? ?b)%string then _ else _] =>
               destruct (a =? b)%string
           end; reflexivity.
  - intro Hn. unfold Keyboard.perform_action_for_gesture.
    unfold NAMED_GESTURES in Hn. cbn [In] in Hn.
    destruct (String.eqb_spec g "OPEN_PALM"); [exfalso; apply Hn; auto|].
    destruct (String.eqb_spec g "FIST"); [exfalso; apply Hn; auto|].
    destruct (String.eqb_spec g "POINT"); [exfalso; apply Hn; auto 6|].
    destruct (String.eqb_spec g "THUMB_UP"); [exfalso; apply Hn; auto 6|].
    reflexivity.
  - intros native fallback Hb k sent_to. subst sent_to.
    destruct (perform_action_bound e g native fallback done Hb) as (-> & _ & Hrel).
    unfold Keyboard.media_key_or_fallback.
    unfold Keyboard.press_media_key_if_available, Keyboard.try_except,
      Keyboard.seq, Keyboard.do_call, Keyboard.ret. fold k.
    split; [|split; [|split]].
    + intros -> -> ->. cbn [negb snd]. rewrite <- app_assoc. reflexivity.
    + intros -> Hnever. cbn [negb].
      rewrite press_key_fallback_attempt.
      rewrite attempt_all_pass by (intros; apply Hnever). reflexivity.
    + intros -> Hothers Hrel_raises. cbn [negb].
      rewrite (Hothers done (Keyboard.Press k)) by discriminate.
      rewrite Hrel_raises. cbn [negb].
      rewrite press_key_fallback_attempt.
      rewrite attempt_all_pass.
      * cbn [snd]. rewrite <- app_assoc. reflexivity.
      * intros l c Hc. apply Hothers. intros ->. exact (Hrel Hc).
    + intro Halways. rewrite app_nil_r.
      destruct (Keyboard.has_attr e native); cbn [negb].
      * rewrite Halways. cbn [negb]. rewrite press_key_fallback_attempt.
        destruct (calls_of_shape fallback) as (ks & Hs).
        destruct (Keyboard.calls_of fallback) as [|c rest]; cbn [attempt];
          [reflexivity | rewrite Halways; reflexivity].
      * rewrite press_key_fallback_attempt.
        destruct (Keyboard.calls_of fallback) as [|c rest]; cbn [attempt];
          [reflexivity | rewrite Halways; reflexivity].
Qed.

Lemma perform_action_keyboard_calls_witness :
  let e := Keyboard.mk_env
             (fun _ => true)
             (fun _ c => match c with
                         | Keyboard.Release (Keyboard.KeyOf attr) =>
                             (attr =? "media_previous")%string
                         | _ => false
                         end) in
  In ("FIST", ("media_previous",
               Keyboard.Tuple [Keyboard.KeyOf "ctrl_l"; Keyboard.KeyOf "left"]))
     Keyboard.BINDINGS /\
  Keyboard.perform_action_for_gesture e "FIST" []
  = (Some "Previous Track",
     [Keyboard.Press (Keyboard.KeyOf "media_previous");
      Keyboard.Press (Keyboard.KeyOf "ctrl_l");
      Keyboard.Press (Keyboard.KeyOf "left");
      Keyboard.Release (Keyboard.KeyOf "left");
      Keyboard.Release (Keyboard.KeyOf "ctrl_l")]).
Proof.
  intro e.
  assert (Hb : In ("FIST", ("media_previous",
                            Keyboard.Tuple [Keyboard.KeyOf "ctrl_l";
                                            Keyboard.KeyOf "left"]))
                  Keyboard.BINDINGS) by (cbn; tauto).
  split; [exact Hb|].
  destruct (perform_action_keyboard_calls e "FIST" []) as (Hdesc & _ & Hcalls).
  destruct (Hcalls _ _ Hb) as (_ & _ & Hboth & _).
  pose proof (Hdesc (fun _ => true)) as H1.
  assert (H2 : snd (Keyboard.perform_action_for_gesture e "FIST" [])
               = [] ++ Keyboard.Press (Keyboard.KeyOf "media_previous")
                    :: Keyboard.calls_of
                         (Keyboard.Tuple [Keyboard.KeyOf "ctrl_l";
                                          Keyboard.KeyOf "left"])).
  { apply Hboth; [reflexivity | | reflexivity].
    intros l c Hc. destruct c as [k | [attr | ch]]; try reflexivity.
    cbn. apply String.eqb_neq. intros ->. apply Hc. reflexivity. }
  destruct (Keyboard.perform_action_for_gesture e "FIST" []) as [desc sent].
  cbn [fst snd] in H1, H2. rewrite H1, H2. reflexivity.
Defined.

(** ** The loop of [main] *)

(** X14. The quit test looks at the low byte of the key code only: the loop is
    left exactly on a code that is 27 modulo 256; the -1 that [waitKey]
    returns without a key never quits, and 27 with higher bits set does. *)
Theorem quit_key_iff (pressed : Z) :
  (quit_key pressed = true <-> (pressed mod 256 = 27)%Z) /\
  quit_key (-1) = false /\
  (forall n : Z, quit_key (27 + 256 * n) = true).
Proof.
  assert (H : forall z, Z.land z 255 = (z mod 256)%Z).
  { intro z. change 255%Z with (Z.ones 8). rewrite Z.land_ones by lia. reflexivity. }
  unfold quit_key. split; [|split].
  - rewrite H, Z.eqb_eq. tauto.
  - reflexivity.
  - intro n. rewrite H. apply Z.eqb_eq.
    rewrite (Z.mul_comm 256 n), Z.mod_add by lia. reflexivity.
Qed.

(** ** The frame rate *)

Section FrameRate.

Local Open Scope Q_scope.

Lemma round64_pos_cases (x : Q) :
  0 < x ->
  round64 x = Infinity false \/
  exists v, round64 x = Finite v /\ 0 <= v /\ v < 2 ^ 1024.
Proof.
  intro Hx. unfold round64. destruct (Qcompare x 0) eqn:Ec.
  - apply Qcompare_Eq in Ec. lra.
  - apply Qcompare_Lt in Ec. lra.
  - destruct (Qle_bool (2 ^ 1024) (round_positive (Qred x))) eqn:Eo;
      [left; reflexivity|].
    right. eexists. split; [reflexivity|]. split.
    + apply round_positive_nonneg. rewrite Qred_eq. exact Hx.
    + apply Qle_bool_false. exact Eo.
Qed.

Lemma round64_neg_cases (x : Q) :
  x < 0 ->
  round64 x = Infinity true \/
  exists v, round64 x = Finite v /\ v <= 0 /\ - 2 ^ 1024 < v.
Proof.
  intro Hx. unfold round64. destruct (Qcompare x 0) eqn:Ec.
  - apply Qcompare_Eq in Ec. lra.
  - destruct (Qle_bool (2 ^ 1024) (round_positive (Qred (- x)))) eqn:Eo;
      [left; reflexivity|].
    right. eexists. split; [reflexivity|].
    assert (H0 : 0 <= round_positive (Qred (- x))).
    { apply round_positive_nonneg. rewrite Qred_eq. lra. }
    apply Qle_bool_false in Eo. split; lra.
  - apply Qcompare_Gt in Ec. lra.
Qed.

Lemma round64_le_neg_grid (x y : Q) :
  on_grid y -> x <= - y ->
  round64 x = Infinity true \/ exists v, round64 x = Finite v /\ v <= - y.
Proof.
  intros Hy Hxy.
  assert (Hy0 : 0 < y).
  { destruct Hy as (j & k & Hj & _ & ->).
    apply Qmult_lt_0_compat; [|apply pow2_pos].
    rewrite <- (Zlt_Qlt 0). lia. }
  unfold round64. destruct (Qcompare x 0) eqn:Ec.
  - apply Qcompare_Eq in Ec. lra.
  - apply Qcompare_Lt in Ec.
    destruct (Qle_bool (2 ^ 1024) (round_positive (Qred (- x))));
      [left; reflexivity|].
    right. eexists. split; [reflexivity|].
    assert (H : y <= round_positive (Qred (- x))).
    { apply round_positive_ge; [rewrite Qred_eq; lra | exact Hy |].
      rewrite Qred_eq. lra. }
    lra.
  - apply Qcompare_Gt in Ec. lra.
Qed.

Lemma on_grid_pow2 (k : Z) : (-1074 <= k)%Z -> on_grid (2 ^ k).
Proof.
  intro Hk. exists 1%Z, k. split; [split; reflexivity|].
  split; [exact Hk|]. change (inject_Z 1) with 1. ring.
Qed.

Lemma pow2_inv (k : Z) : / 2 ^ k == 2 ^ (- k).
Proof. rewrite Qpower_opp. reflexivity. Qed.

Lemma float_sub_same (a b : Q) : a == b -> float_sub a b = Finite 0.
Proof.
  intro E. unfold float_sub.
  rewrite (round64_Qeq (a - b) 0) by (rewrite E; ring). reflexivity.
Qed.

(** The difference of two doubles is zero only when they are equal: there
    is no underflow to zero. *)
Lemma float_sub_zero (a b d : Q) :
  is_double a = true -> is_double b = true ->
  float_sub a b = Finite d -> d == 0 -> a == b.
Proof.
  intros Ha Hb Hs Hd. pose proof (pow2_pos (-1074)) as Hp.
  pose proof (on_grid_pow2 (-1074) ltac:(lia)) as Hg.
  unfold float_sub in Hs.
  destruct (Q_dec a b) as [[Hlt | Hgt] | E]; [| |exact E]; exfalso.
  - pose proof (doubles_apart a b Ha Hb Hlt) as Hgap.
    destruct (round64_le_neg_grid (a - b) (2 ^ (-1074)) Hg ltac:(lra))
      as [Hi | (v & Hv & Hle)]; [congruence|].
    rewrite Hs in Hv. injection Hv as <-. lra.
  - pose proof (doubles_apart b a Hb Ha Hgt) as Hgap.
    destruct (round64_ge_grid (a - b) (2 ^ (-1074)) Hg ltac:(lra))
      as [Hi | (v & Hv & Hle)]; [congruence|].
    rewrite Hs in Hv. injection Hv as <-. lra.
Qed.

Lemma Qinv_le_pow2 (d : Q) (k : Z) : 2 ^ k <= d -> / d <= 2 ^ (- k).
Proof.
  intro H. pose proof (pow2_pos k) as Hp. rewrite <- pow2_inv.
  assert (Hd : 0 < d) by lra.
  apply Qle_shift_inv_r; [exact Hd|].
  setoid_replace (/ 2 ^ k * d) with (d / 2 ^ k) by (field; lra).
  apply Qle_shift_div_l; [exact Hp | lra].
Qed.

Lemma Qinv_ge_pow2 (d : Q) (k : Z) : 0 < d -> d <= 2 ^ k -> 2 ^ (- k) <= / d.
Proof.
  intros Hd H. pose proof (pow2_pos k) as Hp. rewrite <- pow2_inv.
  apply Qle_shift_inv_l; [exact Hd|].
  setoid_replace (/ 2 ^ k * d) with (d / 2 ^ k) by (field; lra).
  apply Qle_shift_div_r; [exact Hp | lra].
Qed.

(** The quotient [1.0 / d] has the sign of [d]: it does not underflow to
    zero. *)
Lemma float_div_pos (d : Q) :
  0 < d -> d < 2 ^ 1024 -> float_gt (float_div 1 d) 0 = true.
Proof.
  intros Hd Hmax. unfold float_div.
  pose proof (pow2_pos (-1074)) as Hp.
  assert (Hq : 2 ^ (-1074) <= 1 / d).
  { unfold Qdiv. rewrite Qmult_1_l.
    apply Qle_trans with (2 ^ (- 1024)); [apply pow2_le; lia|].
    apply (Qinv_ge_pow2 d 1024); [exact Hd | lra]. }
  destruct (round64_ge_grid (1 / d) (2 ^ (-1074))
              (on_grid_pow2 (-1074) ltac:(lia)) Hq) as [-> | (v & -> & Hv)].
  - reflexivity.
  - cbn [float_gt]. apply Qltb_iff. lra.
Qed.

Lemma float_div_neg (d : Q) :
  d < 0 -> - 2 ^ 1024 < d -> float_lt (float_div 1 d) 0 = true.
Proof.
  intros Hd Hmax. unfold float_div.
  pose proof (pow2_pos (-1074)) as Hp.
  assert (Hq : 1 / d <= - 2 ^ (-1074)).
  { assert (Hpos : 2 ^ (-1074) <= / (- d)).
    { apply Qle_trans with (2 ^ (- 1024)); [apply pow2_le; lia|].
      apply (Qinv_ge_pow2 (- d) 1024); lra. }
    setoid_replace (1 / d) with (- / (- d)) by (field; lra). lra. }
  destruct (round64_le_neg_grid (1 / d) (2 ^ (-1074))
              (on_grid_pow2 (-1074) ltac:(lia)) Hq) as [-> | (v & -> & Hv)].
  - reflexivity.
  - cbn [float_lt]. apply Qltb_iff. lra.
Qed.

Lemma frames_per_second_first (prev_time cur_time : Q) :
  prev_time == 0 -> frames_per_second prev_time cur_time = Some (Finite 0).
Proof.
  intro H. unfold frames_per_second.
  apply Qeq_bool_iff in H. rewrite H. reflexivity.
Qed.

Lemma frames_per_second_later (prev_time cur_time : Q) :
  ~ prev_time == 0 ->
  frames_per_second prev_time cur_time =
  match float_sub cur_time prev_time with
  | Finite d => if Qeq_bool d 0 then None else Some (float_div 1 d)
  | Infinity _ => Some (Finite 0)
  end.
Proof.
  intro H. unfold frames_per_second.
  destruct (Qeq_bool prev_time 0) eqn:E; [|reflexivity].
  apply Qeq_bool_iff in E. contradiction.
Qed.

(** Equal readings raise [ZeroDivisionError]. *)
Lemma frames_per_second_same (prev_time cur_time : Q) :
  ~ prev_time == 0 -> cur_time == prev_time ->
  frames_per_second prev_time cur_time = None.
Proof.
  intros Hnz Hsame. rewrite frames_per_second_later by exact Hnz.
  rewrite float_sub_same by exact Hsame. reflexivity.
Qed.

Lemma frames_per_second_none_iff (prev_time cur_time : Q) :
  is_double prev_time = true -> is_double cur_time = true ->
  (frames_per_second prev_time cur_time = None <->
   ~ prev_time == 0 /\ cur_time == prev_time).
Proof.
  intros Hp Hc. split.
  - intro H. unfold frames_per_second in H.
    destruct (Qeq_bool prev_time 0) eqn:E0; [discriminate H|].
    split; [intro E; apply Qeq_bool_iff in E; congruence|].
    destruct (float_sub cur_time prev_time) as [d|] eqn:Es; [|discriminate H].
    destruct (Qeq_bool d 0) eqn:Ed; [|discriminate H].
    apply Qeq_bool_iff in Ed.
    exact (float_sub_zero cur_time prev_time d Hc Hp Es Ed).
  - intros [Hnz Hsame]. apply frames_per_second_same; assumption.
Qed.

(** A clock that advanced by at least 2^-1022 gives a frame rate that can
    be shown. *)
Lemma frame_rate_shown_defined (prev_time cur_time : Q) :
  clock_advances prev_time cur_time ->
  exists n, frame_rate_shown prev_time cur_time = Some n.
Proof.
  unfold clock_advances, frame_rate_shown. intro Hadv.
  pose proof (pow2_pos (-1022)) as Hp.
  destruct (Qeq_bool prev_time 0) eqn:E0.
  - unfold frames_per_second. rewrite E0. cbn. eexists. reflexivity.
  - assert (Hnz : ~ prev_time == 0)
      by (intro E; apply Qeq_bool_iff in E; congruence).
    rewrite frames_per_second_later by exact Hnz. unfold float_sub.
    destruct (round64_ge_grid (cur_time - prev_time) (2 ^ (-1022))
                (on_grid_pow2 (-1022) ltac:(lia)) ltac:(lra))
      as [-> | (v & -> & Hv)].
    + cbn. eexists. reflexivity.
    + assert (Ev : Qeq_bool v 0 = false).
      { destruct (Qeq_bool v 0) eqn:E; [|reflexivity].
        apply Qeq_bool_iff in E. lra. }
      rewrite Ev. cbn [bind]. unfold float_div.
      assert (Hq : 1 / v <= 2 ^ 1022).
      { unfold Qdiv. rewrite Qmult_1_l.
        exact (Qinv_le_pow2 v (-1022) Hv). }
      assert (Hq0 : 0 < 1 / v).
      { unfold Qdiv. rewrite Qmult_1_l. apply Qinv_lt_0_compat. lra. }
      pose proof (round64_le_grid (1 / v) (2 ^ 1022)
                    (on_grid_pow2 1022 ltac:(lia))
                    ltac:(apply Qlt_alt; vm_compute; reflexivity) Hq) as Hle.
      destruct (round64_pos_cases (1 / v) Hq0) as [Hi | (w & Hw & _)].
      * rewrite Hi in Hle. discriminate Hle.
      * rewrite Hw. cbn. eexists. reflexivity.
Qed.

(** A clock that advanced by at most 2^-1024 gives an infinite frame
    rate. *)
Lemma frames_per_second_overflow (prev_time cur_time : Q) :
  ~ prev_time == 0 ->
  2 ^ (-1074) <= cur_time - prev_time ->
  cur_time - prev_time <= 2 ^ (-1024) ->
  frames_per_second prev_time cur_time = Some (Infinity false).
Proof.
  intros Hnz Hlo Hhi. pose proof (pow2_pos (-1074)) as Hp.
  rewrite frames_per_second_later by exact Hnz. unfold float_sub.
  pose proof (round64_le_grid (cur_time - prev_time) (2 ^ (-1024))
                (on_grid_pow2 (-1024) ltac:(lia))
                ltac:(apply Qlt_alt; vm_compute; reflexivity) Hhi) as Hle.
  destruct (round64_ge_grid (cur_time - prev_time) (2 ^ (-1074))
              (on_grid_pow2 (-1074) ltac:(lia)) Hlo)
    as [Hi | (v & Hv & Hge)].
  - rewrite Hi in Hle. discriminate Hle.
  - rewrite Hv in Hle |- *. cbn [float_gt] in Hle. apply Qltb_false in Hle.
    assert (Ev : Qeq_bool v 0 = false).
    { destruct (Qeq_bool v 0) eqn:E; [|reflexivity].
      apply Qeq_bool_iff in E. lra. }
    rewrite Ev. f_equal. unfold float_div.
    assert (Hq : 2 ^ 1024 <= 1 / v).
    { unfold Qdiv. rewrite Qmult_1_l.
      apply (Qinv_ge_pow2 v (-1024)); lra. }
    destruct (round64_ge_grid (1 / v) (2 ^ 1024)
                (on_grid_pow2 1024 ltac:(lia)) Hq) as [Hi | (w & Hw & Hwge)];
      [exact Hi|].
    exfalso.
    assert (Hq0 : 0 < 1 / v).
    { unfold Qdiv. rewrite Qmult_1_l. apply Qinv_lt_0_compat. lra. }
    destruct (round64_pos_cases (1 / v) Hq0) as [Hi | (w' & Hw' & _ & Hlt)];
      [congruence|].
    rewrite Hw in Hw'. injection Hw' as <-. lra.
Qed.

End FrameRate.

(** X15. For clock readings (doubles), the frame rate of line 203 raises
    [ZeroDivisionError] exactly when the previous reading is not zero and
    the clock has not moved since; on the first pass (previous reading 0)
    it is 0; after a clock that moved forward it is positive, after one
    that moved backward negative, unless the difference of the readings
    overflowed, and then it is 0. *)
Theorem frames_per_second_raises_iff (prev_time cur_time : Q) :
  is_double prev_time = true ->
  is_double cur_time = true ->
  (frames_per_second prev_time cur_time = None <->
   ~ (prev_time == 0)%Q /\ (cur_time == prev_time)%Q) /\
  ((prev_time == 0)%Q ->
   frames_per_second prev_time cur_time = Some (Finite 0)) /\
  (forall fps,
      ~ (prev_time == 0)%Q ->
      frames_per_second prev_time cur_time = Some fps ->
      ((prev_time < cur_time)%Q ->
       float_gt fps 0 = true \/
       (float_sub cur_time prev_time = Infinity false /\ fps = Finite 0)) /\
      ((cur_time < prev_time)%Q ->
       float_lt fps 0 = true \/
       (float_sub cur_time prev_time = Infinity true /\ fps = Finite 0))).
Proof.
  intros Hp Hc.
  split; [exact (frames_per_second_none_iff prev_time cur_time Hp Hc)|].
  split; [apply frames_per_second_first|].
  intros fps Hnz Hf. rewrite frames_per_second_later in Hf by exact Hnz.
  split; intro Hlt.
  - assert (Hx : (0 < cur_time - prev_time)%Q) by lra.
    unfold float_sub in *.
    destruct (round64_pos_cases _ Hx) as [Hi | (v & Hv & Hv0 & Hvmax)].
    + rewrite Hi in Hf |- *. injection Hf as <-. right. split; reflexivity.
    + rewrite Hv in Hf.
      destruct (Qeq_bool v 0) eqn:Ev; [discriminate Hf|].
      injection Hf as <-. left. apply float_div_pos; [|exact Hvmax].
      assert (Hne : ~ (v == 0)%Q)
        by (intro E; apply Qeq_bool_iff in E; congruence).
      lra.
  - assert (Hx : (cur_time - prev_time < 0)%Q) by lra.
    unfold float_sub in *.
    destruct (round64_neg_cases _ Hx) as [Hi | (v & Hv & Hv0 & Hvmax)].
    + rewrite Hi in Hf |- *. injection Hf as <-. right. split; reflexivity.
    + rewrite Hv in Hf.
      destruct (Qeq_bool v 0) eqn:Ev; [discriminate Hf|].
      injection Hf as <-. left. apply float_div_neg; [|exact Hvmax].
      assert (Hne : ~ (v == 0)%Q)
        by (intro E; apply Qeq_bool_iff in E; congruence).
      lra.
Qed.

Lemma frames_per_second_raises_iff_witness :
  is_double 10 = true /\ is_double (21 # 2) = true /\
  frames_per_second 10 (21 # 2) = Some (Finite 2) /\
  (frames_per_second 10 10 = None <-> ~ (10 == 0)%Q /\ (10 == 10)%Q).
Proof.
  assert (H1 : is_double 10 = true) by (vm_compute; reflexivity).
  assert (H2 : is_double (21 # 2) = true) by (vm_compute; reflexivity).
  split; [exact H1|]. split; [exact H2|].
  split; [vm_compute; reflexivity|].
  exact (proj1 (frames_per_second_raises_iff 10 10 H1 H1)).
Defined.

Lemma display_of_defined (f : frame_input) :
  display_of f = None <-> ~ enough_landmarks f.
Proof.
  unfold display_of, enough_landmarks.
  destruct (results f) as [|lm label].
  - split; [discriminate | tauto].
  - pose proof (gesture_of_raises_iff lm label) as Hg. unfold gesture_of in Hg.
    destruct (fingers_up lm label) as [v|]; cbn [bind] in *.
    + destruct (detect_gesture v) as [g|]; cbn [bind] in *.
      * split; [discriminate|]. intro H. exfalso. apply H.
        destruct (Nat.lt_ge_cases (length lm) 21) as [Hlt | Hge];
          [apply Hg in Hlt; discriminate Hlt | exact Hge].
      * split; [intros _ | reflexivity].
        assert (length lm < 21) by (apply Hg; reflexivity). lia.
    + split; [intros _ | reflexivity].
      assert (length lm < 21) by (apply Hg; reflexivity). lia.
Qed.

Section MainFacts.

Variable media_key_ok : string -> bool.

(** The dispatches of a session are those of the loop body over the frames
    of its first [k] passes, and its overlays are at most [k]. *)
Lemma main_loop_as_run (passes : list iteration) :
  forall st prev_time,
  exists k,
    k <= length passes /\
    dispatched (main_loop media_key_ok st prev_time passes)
    = fst (run media_key_ok st (map seen (firstn k passes))) /\
    length (shown (main_loop media_key_ok st prev_time passes)) <= k /\
    (ended (main_loop media_key_ok st prev_time passes) = StillRunning ->
     k = length passes /\
     length (shown (main_loop media_key_ok st prev_time passes)) = k /\
     snd (run media_key_ok st (map seen passes)) <> None).
Proof.
  induction passes as [|p rest IH]; intros st prev_time.
  - exists 0. cbn. repeat split; try lia; discriminate.
  - cbn [main_loop].
    destruct (ret p); cbn [negb];
      [|exists 0; cbn; repeat split; try lia; discriminate].
    destruct (frame_step media_key_ok st (seen p)) as [[st1 out]|] eqn:Ef;
      [|exists 0; cbn; repeat split; try lia; discriminate].
    destruct (display_of (seen p)) as [shown_gesture|];
      [|exists 0; cbn; repeat split; try lia; discriminate].
    assert (Hone : fst (run media_key_ok st (map seen (firstn 1 (p :: rest))))
                   = match out with Some d => [d] | None => [] end).
    { cbn [firstn map]. rewrite run_cons, Ef. destruct out; reflexivity. }
    destruct (frame_rate_shown prev_time (cur_time p)) as [fps|];
      [|exists 1; cbn [dispatched shown ended length]; rewrite Hone;
        repeat split; try lia; discriminate].
    destruct (quit_key (pressed p));
      [exists 1; cbn [dispatched shown ended length]; rewrite Hone;
       repeat split; try lia; discriminate|].
    destruct (IH st1 (cur_time p)) as (k & Hk & Hd & Hs & Hrun).
    exists (S k). cbn [length firstn map].
    rewrite run_cons, Ef. unfold add_pass. cbn [dispatched shown ended length fst snd].
    rewrite Hd. split; [lia|]. split; [destruct out; reflexivity|].
    split; [lia|].
    intro He. destruct (Hrun He) as (-> & Hs' & Hn).
    repeat split; try lia. rewrite run_cons, Ef. cbn [snd]. exact Hn.
Qed.

Lemma main_loop_stops (passes : list iteration) :
  forall st prev_time more,
    ended (main_loop media_key_ok st prev_time passes) <> StillRunning ->
    main_loop media_key_ok st prev_time (passes ++ more)
    = main_loop media_key_ok st prev_time passes.
Proof.
  induction passes as [|p rest IH]; intros st prev_time more Hend.
  - cbn in Hend. congruence.
  - cbn [main_loop app] in *.
    destruct (ret p); cbn [negb] in *; [|reflexivity].
    destruct (frame_step media_key_ok st (seen p)) as [[st1 out]|]; [|reflexivity].
    destruct (display_of (seen p)); [|reflexivity].
    destruct (frame_rate_shown prev_time (cur_time p)); [|reflexivity].
    destruct (quit_key (pressed p)); [reflexivity|].
    unfold add_pass in *. cbn [ended] in Hend.
    rewrite IH by exact Hend. reflexivity.
Qed.

End MainFacts.

(** X16. What [main] dispatches is what the loop body dispatches over the
    frames of the passes it made: for some [k], the first [k] passes.  So
    whatever holds for every run of the loop body holds for [main]: its
    dispatches are more than ACTION_COOLDOWN apart and no two in a row are
    for the same gesture.  Without a camera nothing is dispatched or
    shown; and a session that did not end made all the passes given, showed
    an overlay for each, and the body raised on none. *)
Theorem main_dispatches_as_run
    (media_key_ok : string -> bool) (opened : bool) (passes : list iteration) :
  let s := main media_key_ok opened passes in
  (exists k,
      k <= length passes /\
      dispatched s
      = fst (run media_key_ok initial_state (map seen (firstn k passes))) /\
      length (shown s) <= k) /\
  (opened = false -> s = mk_session [] [] CameraNotOpened) /\
  (ended s = StillRunning ->
   dispatched s = fst (run media_key_ok initial_state (map seen passes)) /\
   length (shown s) = length passes /\
   Forall enough_landmarks (map seen passes)) /\
  ForallOrdPairs
    (fun d1 d2 => (ACTION_COOLDOWN < fire_time d2 - fire_time d1)%Q)
    (dispatched s) /\
  alternating None (map fire_gesture (dispatched s)).
Proof.
  intro s. subst s. unfold main. destruct opened; cbn [negb].
  - destruct (main_loop_as_run media_key_ok passes initial_state 0)
      as (k & Hk & Hd & Hs & Hrun).
    split; [exists k; auto|]. split; [discriminate|]. split; [|split].
    + intro He. destruct (Hrun He) as (-> & Hs' & Hn).
      rewrite firstn_all in Hd. repeat split; try assumption.
      clear - Hn. revert Hn. generalize initial_state.
      induction (map seen passes) as [|f fs IH]; intros st Hn; [constructor|].
      rewrite run_cons in Hn.
      destruct (frame_step media_key_ok st f) as [[st1 out]|] eqn:Ef.
      * constructor; [|apply (IH st1); exact Hn].
        destruct (frame_step_none_iff media_key_ok st f) as [_ H].
        unfold enough_landmarks in *. destruct (results f); [exact I|].
        destruct (Nat.lt_ge_cases (length hand_landmarks) 21) as [Hlt | Hge];
          [|exact Hge].
        exfalso. assert (E : frame_step media_key_ok st f = None)
          by (apply H; lia). congruence.
      * exfalso. apply Hn. reflexivity.
    + rewrite Hd. apply run_cooldown.
    + rewrite Hd. apply (run_alternating media_key_ok _ initial_state).
  - split; [exists 0; cbn; repeat split; lia|]. split; [reflexivity|].
    split; [discriminate|]. split; constructor.
Qed.

(** X17. Once the loop has ended (read failure, ESC, or an exception) nothing
    further is read or dispatched: passes after the one that ended it do
    not change the session. *)
Theorem main_ignores_passes_after_end
    (media_key_ok : string -> bool) (opened : bool)
    (passes more : list iteration) :
  ended (main media_key_ok opened passes) <> StillRunning ->
  main media_key_ok opened (passes ++ more) = main media_key_ok opened passes.
Proof.
  unfold main. destruct opened; cbn [negb]; [|reflexivity].
  apply main_loop_stops.
Qed.

Lemma main_ignores_passes_after_end_witness :
  let quit := mk_iteration true (mk_frame NoHand 1) 1 27 in
  let more := [mk_iteration true (mk_frame (Hand open_palm_hand "Right") 2) 2 (-1)] in
  ended (main (fun _ => true) true [quit]) <> StillRunning /\
  main (fun _ => true) true ([quit] ++ more) = main (fun _ => true) true [quit].
Proof.
  intros quit more.
  assert (H : ended (main (fun _ => true) true [quit]) <> StillRunning)
    by (vm_compute; discriminate).
  split; [exact H|].
  exact (main_ignores_passes_after_end (fun _ => true) true [quit] more H).
Defined.

Lemma frame_rate_shown_same (prev_time cur_time : Q) :
  ~ (prev_time == 0)%Q -> (cur_time == prev_time)%Q ->
  frame_rate_shown prev_time cur_time = None.
Proof.
  intros Hnz Hsame. unfold frame_rate_shown.
  rewrite frames_per_second_same by assumption. reflexivity.
Qed.

(** X18. When two passes in a row read the same clock value at line 202 (other
    than 0), the second one raises at the frame rate: the loop ends there,
    after the frame of that pass has been processed and its action, if any,
    dispatched, and without an overlay for it. *)
Theorem repeated_clock_raises
    (media_key_ok : string -> bool) (st : loop_state) (prev_time : Q)
    (p1 p2 : iteration) (rest : list iteration) :
  ret p1 = true -> ret p2 = true ->
  enough_landmarks (seen p1) -> enough_landmarks (seen p2) ->
  frame_rate_shown prev_time (cur_time p1) <> None ->
  quit_key (pressed p1) = false ->
  ~ (cur_time p1 == 0)%Q ->
  (cur_time p2 == cur_time p1)%Q ->
  let s := main_loop media_key_ok st prev_time (p1 :: p2 :: rest) in
  frames_per_second (cur_time p1) (cur_time p2) = None /\
  ended s = Raised /\
  dispatched s = fst (run media_key_ok st [seen p1; seen p2]) /\
  length (shown s) = 1.
Proof.
  intros Hr1 Hr2 He1 He2 Hfps Hq Hnz Hsame s. subst s.
  split; [apply frames_per_second_same; assumption|].
  cbn [main_loop]. rewrite Hr1, Hr2. cbn [negb].
  destruct (frame_step media_key_ok st (seen p1)) as [[st1 out1]|] eqn:Ef1;
    [|exfalso; apply frame_step_none_iff in Ef1; contradiction].
  destruct (display_of (seen p1)) as [g1|] eqn:Ed1;
    [|exfalso; apply display_of_defined in Ed1; contradiction].
  destruct (frame_rate_shown prev_time (cur_time p1)) as [fps1|]; [|congruence].
  rewrite Hq.
  destruct (frame_step media_key_ok st1 (seen p2)) as [[st2 out2]|] eqn:Ef2;
    [|exfalso; apply frame_step_none_iff in Ef2; contradiction].
  destruct (display_of (seen p2)) as [g2|] eqn:Ed2;
    [|exfalso; apply display_of_defined in Ed2; contradiction].
  rewrite (frame_rate_shown_same (cur_time p1) (cur_time p2) Hnz Hsame).
  unfold add_pass. cbn [ended dispatched shown length].
  repeat split. rewrite run_cons, Ef1, run_cons, Ef2. cbn [fst run].
  destruct out1, out2; reflexivity.
Qed.

Lemma repeated_clock_raises_witness :
  let st := mk_state (repeat "FIST" 5) 0 None in
  let p1 := mk_iteration true (mk_frame NoHand 9) 10 (-1) in
  let p2 := mk_iteration true (mk_frame (Hand fist_hand "Right") 10) 10 (-1) in
  let s := main_loop (fun _ => true) st 0 [p1; p2] in
  frames_per_second (cur_time p1) (cur_time p2) = None /\
  ended s = Raised /\
  dispatched s = fst (run (fun _ => true) st [seen p1; seen p2]) /\
  length (shown s) = 1.
Proof.
  intros st p1 p2.
  assert (H1 : enough_landmarks (seen p1)) by exact I.
  assert (H2 : enough_landmarks (seen p2)).
  { unfold enough_landmarks. cbn [seen results p2]. vm_compute. lia. }
  assert (H3 : frame_rate_shown 0 (cur_time p1) <> None) by discriminate.
  assert (H4 : ~ (cur_time p1 == 0)%Q)
    by (intro H; vm_compute in H; discriminate H).
  assert (H5 : (cur_time p2 == cur_time p1)%Q) by reflexivity.
  exact (repeated_clock_raises (fun _ => true) st 0 p1 p2 []
           eq_refl eq_refl H1 H2 H3 eq_refl H4 H5).
Defined.

(** X19. With hands that have their landmarks and a clock at line 202 that
    moves forward from pass to pass, each time by at least 2^-1022 (the
    smallest normal double), the loop never ends by an exception. *)
Theorem main_loop_never_raises
    (media_key_ok : string -> bool) (passes : list iteration) :
  forall (st : loop_state) (prev_time : Q),
    Forall (fun p => enough_landmarks (seen p)) passes ->
    Sorted clock_advances (prev_time :: map cur_time passes) ->
    ended (main_loop media_key_ok st prev_time passes) <> Raised.
Proof.
  induction passes as [|p rest IH]; intros st prev_time Hall Hclock.
  - discriminate.
  - inversion Hall as [|? ? Hp Hrest]; subst.
    cbn [map] in Hclock.
    inversion Hclock as [|? ? Hsorted Hhd]; subst.
    inversion Hhd as [|? ? Hadv]; subst.
    cbn [main_loop]. destruct (ret p); cbn [negb]; [|discriminate].
    destruct (frame_step media_key_ok st (seen p)) as [[st1 out]|] eqn:Ef;
      [|exfalso; apply frame_step_none_iff in Ef; contradiction].
    destruct (display_of (seen p)) as [g|] eqn:Ed;
      [|exfalso; apply display_of_defined in Ed; contradiction].
    destruct (frame_rate_shown_defined prev_time (cur_time p) Hadv) as (n & ->).
    destruct (quit_key (pressed p)); [discriminate|].
    unfold add_pass. cbn [ended]. apply IH; assumption.
Qed.

Lemma main_loop_never_raises_witness :
  let passes :=
    [mk_iteration true (mk_frame NoHand 1) 1 (-1);
     mk_iteration true (mk_frame (Hand point_hand "Left") 2) 2 (-1)] in
  Forall (fun p => enough_landmarks (seen p)) passes /\
  Sorted clock_advances (0%Q :: map cur_time passes) /\
  ended (main_loop (fun _ => false) initial_state 0 passes) <> Raised.
Proof.
  intro passes.
  assert (H1 : Forall (fun p => enough_landmarks (seen p)) passes).
  { constructor; [exact I|]. constructor; [|constructor].
    unfold enough_landmarks. cbn [seen results]. vm_compute. lia. }
  assert (H2 : Sorted clock_advances (0%Q :: map cur_time passes)).
  { repeat constructor; vm_compute; discriminate. }
  split; [exact H1|]. split; [exact H2|].
  exact (main_loop_never_raises (fun _ => false) passes initial_state 0 H1 H2).
Defined.

Lemma action_text_nonempty (d : dispatch) :
  (action_text_of (Some d) =? EmptyString)%string = false.
Proof. reflexivity. Qed.

(** X20. What the screen announces against what was dispatched: the action
    texts shown are, in order, "Action: " followed by the description of
    the dispatches; every announced action was dispatched; and only a
    session that ended by raising can have dispatched one action (its
    last) without announcing it. *)
Theorem announced_actions_were_dispatched
    (media_key_ok : string -> bool) (passes : list iteration) :
  forall (st : loop_state) (prev_time : Q),
    let s := main_loop media_key_ok st prev_time passes in
    announced s
    = map (fun d => String.append "Action: " (fire_desc d))
          (firstn (length (announced s)) (dispatched s)) /\
    length (announced s) <= length (dispatched s) /\
    length (dispatched s) <= S (length (announced s)) /\
    (ended s <> Raised -> length (announced s) = length (dispatched s)).
Proof.
  induction passes as [|p rest IH]; intros st prev_time s; subst s.
  - cbn. repeat split; lia.
  - cbn [main_loop].
    destruct (ret p); cbn [negb]; [|cbn; repeat split; lia].
    destruct (frame_step media_key_ok st (seen p)) as [[st1 out]|];
      [|cbn; repeat split; lia].
    destruct (display_of (seen p)) as [g|]; [|cbn; repeat split; lia].
    destruct (frame_rate_shown prev_time (cur_time p)) as [fps|].
    + destruct (quit_key (pressed p)).
      * destruct out as [d|]; cbn; repeat split; lia.
      * specialize (IH st1 (cur_time p)). cbn zeta in IH.
        destruct IH as (Ha & Hle & Hge & Heq).
        unfold add_pass, announced in *.
        cbn [shown dispatched ended map filter action_line].
        destruct out as [d|].
        -- rewrite action_text_nonempty. cbn [negb length firstn map].
           rewrite <- Ha. repeat split; try lia.
           intro He. rewrite (Heq He). reflexivity.
        -- cbn [action_text_of String.eqb negb].
           repeat split; try assumption.
    + destruct out as [d|]; cbn; repeat split; try lia; congruence.
Qed.

(** ** The demo scripts against the controller *)

Lemma demo_fingers_up_ints (lm : list Landmark.t) (label : string) :
  fingers_up lm label = option_map (map int_of_bool) (Demo.fingers_up lm label).
Proof.
  unfold fingers_up, Demo.fingers_up.
  destruct (nth_error TIP_IDS 0) as [tip0|]; cbn [bind option_map]; [|reflexivity].
  destruct (nth_error lm tip0) as [a|]; cbn [bind option_map]; [|reflexivity].
  destruct (nth_error lm (tip0 - 1)) as [b|]; cbn [bind option_map]; [|reflexivity].
  destruct (mapM (finger_raised lm) (tl TIP_IDS)) as [others|];
    cbn [bind option_map]; reflexivity.
Qed.

(** X21. The three scripts agree.  The controller's [fingers_up] is the demos'
    [fingers_up] with each boolean turned into 1 or 0, and raises on the
    same hands; the demo's [detect_gesture] gives on the booleans, and on
    integers, the label the controller's gives on the integers; so the
    label the gesture demo shows for a hand is the one the controller
    appends to its history. *)
Theorem demos_agree_with_controller (lm : list Landmark.t) (label : string) :
  fingers_up lm label = option_map (map int_of_bool) (Demo.fingers_up lm label) /\
  (forall up : list bool,
      Demo.detect_gesture (map Demo.PyBool up)
      = detect_gesture (map int_of_bool up)) /\
  (forall v : list Z, Demo.detect_gesture (Demo.ints v) = detect_gesture v) /\
  Demo.gesture_of lm label = gesture_of lm label.
Proof.
  assert (Hb : forall up : list bool,
             Demo.detect_gesture (map Demo.PyBool up)
             = detect_gesture (map int_of_bool up)).
  { intro up.
    destruct up as [|a [|b [|c [|d [|e [|x rest]]]]]]; reflexivity. }
  split; [apply demo_fingers_up_ints|]. split; [exact Hb|]. split.
  - intro v.
    destruct v as [|a [|b [|c [|d [|e [|x rest]]]]]]; reflexivity.
  - unfold Demo.gesture_of, gesture_of. rewrite demo_fingers_up_ints.
    destruct (Demo.fingers_up lm label) as [up|]; cbn [bind option_map];
      [apply Hb | reflexivity].
Qed.

(** ** Holding a gesture gets it dispatched *)

Lemma run_app (media_key_ok : string -> bool) (a b : list frame_input) :
  forall st,
    run media_key_ok st (a ++ b) =
    match snd (run media_key_ok st a) with
    | Some st1 =>
        (fst (run media_key_ok st a) ++ fst (run media_key_ok st1 b),
         snd (run media_key_ok st1 b))
    | None => (fst (run media_key_ok st a), None)
    end.
Proof.
  induction a as [|f a IH]; intro st.
  - cbn [app run fst snd]. destruct (run media_key_ok st b). reflexivity.
  - cbn [app]. rewrite !run_cons.
    destruct (frame_step media_key_ok st f) as [[st1 out]|]; [|reflexivity].
    rewrite IH. cbn [fst snd].
    destruct (snd (run media_key_ok st1 a)); destruct out; reflexivity.
Qed.

Lemma differs_from_other (g : string) (last : option string) :
  last <> Some g -> differs_from g last = true.
Proof.
  intro H. destruct last as [l|]; [|reflexivity]. cbn.
  apply negb_true_iff. apply String.eqb_neq. congruence.
Qed.

Lemma frame_step_labelled (media_key_ok : string -> bool) (st : loop_state)
    (f : frame_input) (g : string) :
  frame_label f = Some g -> g <> "UNKNOWN" ->
  frame_step media_key_ok st f = hand_branch media_key_ok st g (now f).
Proof.
  unfold frame_label. destruct f as [[|lm label] t]; cbn [results now].
  - intros H Hne. injection H as <-. congruence.
  - intros H _. apply frame_step_hand. exact H.
Qed.

(** Frames that all show the gesture [g]: at most one dispatch, of [g]. *)
Lemma run_same_gesture (media_key_ok : string -> bool) (g : string)
    (frames : list frame_input) :
  g <> "UNKNOWN" ->
  Forall (fun f => frame_label f = Some g) frames ->
  forall st,
    length (gesture_history st) <= SMOOTHING_FRAMES ->
    exists fired st',
      run media_key_ok st frames = (fired, Some st') /\
      gesture_history st'
      = push_all (gesture_history st) (repeat g (length frames)) /\
      ((fired = [] /\
        last_action_time st' = last_action_time st /\
        last_triggered st' = last_triggered st) \/
       (exists d, fired = [d] /\ fire_gesture d = g /\
                  last_triggered st' = Some g /\
                  last_triggered st <> Some g)).
Proof.
  intros Hg Hall. induction frames as [|f rest IH]; intros st Hlen.
  - exists [], st. split; [reflexivity|]. split; [reflexivity|]. left. auto.
  - inversion Hall as [|? ? Hf Hrest]; subst. specialize (IH Hrest).
    rewrite run_cons, (frame_step_labelled media_key_ok st f g Hf Hg).
    destruct (hand_branch media_key_ok st g (now f)) as [[st1 out]|] eqn:Eb;
      [|exfalso; exact (hand_branch_defined _ _ _ _ Eb)].
    pose proof Eb as Hinv. apply hand_branch_inv in Hinv.
    destruct Hinv as [Hh Hd].
    assert (Hlen1 : length (gesture_history st1) <= SMOOTHING_FRAMES)
      by (rewrite Hh; apply deque_append_length; exact Hlen).
    destruct (IH st1 Hlen1) as (fired & st' & Hrun & Hw & Hcases).
    rewrite Hrun. cbn [fst snd length repeat].
    assert (Hw' : gesture_history st'
                  = push_all (gesture_history st) (g :: repeat g (length rest))).
    { rewrite Hw, Hh. reflexivity. }
    destruct Hd as [(-> & Ht & Hl) | Hfire].
    + exists fired, st'. split; [reflexivity|]. split; [exact Hw'|].
      destruct Hcases as [(-> & Ht' & Hl') | (d & -> & Hd1 & Hd2 & Hd3)].
      * left. repeat split; congruence.
      * right. exists d. repeat split; congruence.
    + destruct Hfire as (mc & cnt & desc & Hv & _ & Hdiff & _ & -> & _ & Hl).
      assert (Emc : mc = g).
      { apply smoothing_vote_stable in Hv; [|exact Hlen1].
        destruct Hv as (Hrep & _ & _).
        destruct (deque_append_last SMOOTHING_FRAMES (gesture_history st) g)
          as (front & Hfront); [unfold SMOOTHING_FRAMES; lia|].
        symmetry. apply (repeat_spec SMOOTHING_FRAMES mc g).
        rewrite <- Hrep, Hh, Hfront. apply in_or_app. right. now left. }
      subst mc.
      destruct Hcases as [(-> & _ & Hl') | (d & _ & _ & _ & Hne)];
        [|congruence].
      exists [mk_dispatch (now f) g desc
                (fst (perform_action_for_gesture media_key_ok g))], st'.
      split; [reflexivity|]. split; [exact Hw'|].
      right. eexists. repeat split; try congruence.
      intro E. rewrite E in Hdiff. cbn in Hdiff.
      rewrite String.eqb_refl in Hdiff. discriminate Hdiff.
Qed.

(** X22. Six frames in a row that show the same gesture with an action get it
    dispatched, once, provided it is not the gesture dispatched last and
    the cooldown test of line 188 passes when the sixth is processed. *)
Theorem held_gesture_is_dispatched
    (media_key_ok : string -> bool) (st : loop_state) (g : string)
    (front : list frame_input) (sixth : frame_input) :
  length (gesture_history st) <= SMOOTHING_FRAMES ->
  In g NAMED_GESTURES ->
  length front = SMOOTHING_FRAMES - 1 ->
  Forall (fun f => frame_label f = Some g) (front ++ [sixth]) ->
  last_triggered st <> Some g ->
  cooldown_elapsed (now sixth) (last_action_time st) = true ->
  exists d st',
    run media_key_ok st (front ++ [sixth]) = ([d], Some st') /\
    fire_gesture d = g /\
    In (g, fire_desc d) ACTIONS /\
    last_triggered st' = Some g /\
    gesture_history st' = repeat g SMOOTHING_FRAMES.
Proof.
  intros Hlen Hg Hfront Hall Hlast Hcool.
  pose proof (named_is_known g Hg) as Hunk.
  destruct (run_same_gesture media_key_ok g (front ++ [sixth]) Hunk Hall st Hlen)
    as (fired & st' & Hrun & Hw & Hcases).
  assert (Hwin : gesture_history st' = repeat g SMOOTHING_FRAMES).
  { assert (Hn : length (front ++ [sixth]) = SMOOTHING_FRAMES)
      by (rewrite length_app, Hfront; reflexivity).
    rewrite Hw, Hn, push_all_lastn by exact Hlen.
    rewrite lastn_app_ge by (rewrite repeat_length; lia).
    apply lastn_all. rewrite repeat_length. lia. }
  destruct Hcases as [(-> & Ht & Hl) | (d & -> & Hd & Hl & _)].
  - (* nothing fired: impossible, the sixth frame fires *)
    exfalso. rewrite run_app in Hrun.
    apply Forall_app in Hall. destruct Hall as [Hall5 Hall6].
    inversion Hall6 as [|? ? Hsix _]; subst.
    destruct (run_same_gesture media_key_ok g front Hunk Hall5 st Hlen)
      as (fired5 & st5 & Hrun5 & Hw5 & Hcases5).
    rewrite Hrun5 in Hrun. cbn [fst snd] in Hrun.
    assert (Hlen5 : length (gesture_history st5) <= SMOOTHING_FRAMES)
      by (rewrite Hw5; apply push_all_length; exact Hlen).
    assert (Hfire : exists d st6,
               frame_step media_key_ok st5 sixth = Some (st6, Some d)).
    { destruct Hcases5 as [(_ & Ht5 & Hl5) | (d & -> & _)];
        [|cbn in Hrun; destruct (run media_key_ok st5 [sixth]); discriminate Hrun].
      rewrite (frame_step_labelled media_key_ok st5 sixth g Hsix Hunk).
      destruct st5 as [w5 lat5 lt5]. cbn in Ht5, Hl5, Hw5. subst lat5 lt5.
      assert (Hp : exists desc,
                 perform_action_for_gesture media_key_ok g
                 = (fst (perform_action_for_gesture media_key_ok g), Some desc)
                 /\ desc <> EmptyString).
      { cbn in Hg. destruct Hg as [<- | [<- | [<- | [<- | []]]]];
          eexists; (split; [reflexivity | discriminate]). }
      destruct Hp as (desc & Hp & Hdesc).
      do 2 eexists. eapply hand_branch_fire; try eassumption.
      - reflexivity.
      - assert (E : deque_append SMOOTHING_FRAMES w5 g = repeat g SMOOTHING_FRAMES).
        { rewrite Hw5.
          change (deque_append SMOOTHING_FRAMES
                    (push_all (gesture_history st) (repeat g (length front))) g)
            with (fold_left (deque_append SMOOTHING_FRAMES) [g]
                    (push_all (gesture_history st) (repeat g (length front)))).
          unfold push_all. rewrite <- fold_left_app.
          fold (push_all (gesture_history st) (repeat g (length front) ++ [g])).
          rewrite push_all_lastn by exact Hlen.
          replace (repeat g (length front) ++ [g]) with (repeat g SMOOTHING_FRAMES)
            by (rewrite Hfront; reflexivity).
          rewrite lastn_app_ge by (rewrite repeat_length; lia).
          apply lastn_all. rewrite repeat_length. lia. }
        rewrite E. apply smoothing_vote_repeat; [unfold SMOOTHING_FRAMES; lia | exact Hunk].
      - apply differs_from_other. exact Hlast. }
    destruct Hfire as (d & st6 & Hf6).
    rewrite run_cons, Hf6 in Hrun. cbn [fst snd] in Hrun.
    destruct fired5; discriminate Hrun.
  - exists d, st'. split; [exact Hrun|]. split; [exact Hd|].
    split; [|split; assumption].
    assert (Hin : In d (fst (run media_key_ok st (front ++ [sixth]))))
      by (rewrite Hrun; now left).
    assert (Ha : In (fire_gesture d, fire_desc d) ACTIONS).
    { clear - Hin Hlen. revert st Hlen Hin.
      induction (front ++ [sixth]) as [|f fs IH]; intros st Hlen Hin; [destruct Hin|].
      rewrite run_cons in Hin.
      destruct (frame_step media_key_ok st f) as [[st1 out]|] eqn:Ef; [|destruct Hin].
      assert (Hlen1 : length (gesture_history st1) <= SMOOTHING_FRAMES).
      { pose proof Ef as Ef'. apply frame_step_effect in Ef'.
        destruct Ef' as [(x & _ & _ & Hh) _]. rewrite Hh.
        apply deque_append_length. exact Hlen. }
      destruct out as [d0|]; cbn [fst] in Hin; [|exact (IH st1 Hlen1 Hin)].
      destruct Hin as [<- | Hin]; [|exact (IH st1 Hlen1 Hin)].
      apply (frame_step_dispatch _ _ _ _ _ Hlen Ef). }
    rewrite Hd in Ha. exact Ha.
Qed.

Lemma held_gesture_is_dispatched_witness :
  let st := mk_state ["FIST"; "UNKNOWN"; "POINT"] 3 (Some "FIST") in
  let front := frames_of point_hand "Right" [4; 5; 6; 7; 8]%Q in
  let sixth := mk_frame (Hand point_hand "Right") 9 in
  exists d st',
    run (fun _ => true) st (front ++ [sixth]) = ([d], Some st') /\
    fire_gesture d = "POINT" /\
    In ("POINT", fire_desc d) ACTIONS /\
    last_triggered st' = Some "POINT" /\
    gesture_history st' = repeat "POINT" SMOOTHING_FRAMES.
Proof.
  intros st front sixth.
  apply (held_gesture_is_dispatched (fun _ => true) st "POINT" front sixth).
  - vm_compute. lia.
  - cbn. tauto.
  - reflexivity.
  - repeat constructor.
  - discriminate.
  - vm_compute. reflexivity.
Defined.

(** X23. When the clock of line 202 has advanced since the pass before, but
    by no more than 2^-1024, the frame rate of line 203 is the float
    infinity and [int(fps)] at line 211 raises [OverflowError]: the loop
    ends there, after the frame of the pass has been processed and its
    action, if any, dispatched, and without an overlay for it. *)
Theorem infinite_frame_rate_raises
    (media_key_ok : string -> bool) (st : loop_state) (prev_time : Q)
    (p : iteration) (rest : list iteration) :
  ret p = true ->
  enough_landmarks (seen p) ->
  ~ (prev_time == 0)%Q ->
  (2 ^ (-1074) <= cur_time p - prev_time)%Q ->
  (cur_time p - prev_time <= 2 ^ (-1024))%Q ->
  let s := main_loop media_key_ok st prev_time (p :: rest) in
  frames_per_second prev_time (cur_time p) = Some (Infinity false) /\
  ended s = Raised /\
  dispatched s = fst (run media_key_ok st [seen p]) /\
  shown s = [].
Proof.
  intros Hr He Hnz Hlo Hhi s. subst s.
  pose proof (frames_per_second_overflow prev_time (cur_time p) Hnz Hlo Hhi)
    as Hinf.
  split; [exact Hinf|].
  cbn [main_loop]. rewrite Hr. cbn [negb].
  destruct (frame_step media_key_ok st (seen p)) as [[st1 out]|] eqn:Ef;
    [|exfalso; apply frame_step_none_iff in Ef; contradiction].
  destruct (display_of (seen p)) as [g|] eqn:Ed;
    [|exfalso; apply display_of_defined in Ed; contradiction].
  unfold frame_rate_shown. rewrite Hinf. cbn [bind int_of_float].
  cbn [ended dispatched shown]. repeat split.
  rewrite run_cons, Ef. cbn [fst run]. destruct out; reflexivity.
Qed.

Lemma infinite_frame_rate_raises_witness :
  let tick := (2 ^ (-1074))%Q in
  let st := mk_state (repeat "FIST" 5) 0 None in
  let p := mk_iteration true (mk_frame (Hand fist_hand "Right") 10) (2 * tick) (-1) in
  let s := main_loop (fun _ => true) st tick [p] in
  is_double tick = true /\ is_double (2 * tick) = true /\
  frames_per_second tick (cur_time p) = Some (Infinity false) /\
  ended s = Raised /\
  dispatched s = fst (run (fun _ => true) st [seen p]) /\
  shown s = [].
Proof.
  intros tick st p.
  split; [vm_compute; reflexivity|]. split; [vm_compute; reflexivity|].
  apply (infinite_frame_rate_raises (fun _ => true) st tick p []).
  - reflexivity.
  - unfold enough_landmarks. cbn [seen results p]. vm_compute. lia.
  - intro H. vm_compute in H. discriminate H.
  - vm_compute. discriminate.
  - vm_compute. discriminate.
Defined.

(** X24. The cooldown test of line 188 compares the rounded difference of
    the two readings with the double 0.8.  It fails whenever the exact
    difference is at most the double 0.8, and passes whenever the exact
    difference is at least the next double, 0.8 + 2^-53; in between the
    rounding decides: for the readings 0.8 + 2^-53 and 2^-54 the exact
    difference is above the double 0.8 and the test fails. *)
Theorem cooldown_test_rounds :
  (forall now last : Q,
      (now - last <= ACTION_COOLDOWN)%Q -> cooldown_elapsed now last = false) /\
  (forall now last : Q,
      (ACTION_COOLDOWN + 2 ^ (-53) <= now - last)%Q ->
      cooldown_elapsed now last = true) /\
  (let now := (7205759403792795 # 9007199254740992)%Q in
   let last := (1 # 18014398509481984)%Q in
   is_double now = true /\ is_double last = true /\
   (ACTION_COOLDOWN < now - last)%Q /\
   cooldown_elapsed now last = false).
Proof.
  split; [exact cooldown_not_elapsed|]. split.
  - intros now last H. unfold cooldown_elapsed, float_sub.
    assert (Hg : on_grid (ACTION_COOLDOWN + 2 ^ (-53))%Q).
    { exists 7205759403792795%Z, (-53)%Z.
      split; [split; reflexivity|]. split; [discriminate|].
      vm_compute. reflexivity. }
    assert (Hp : (0 < 2 ^ (-53))%Q) by apply pow2_pos.
    destruct (round64_ge_grid _ _ Hg H) as [-> | (v & -> & Hv)];
      [reflexivity|].
    cbn [float_gt]. apply Qltb_iff. lra.
  - intros now last. repeat split; vm_compute; reflexivity.
Qed.
